(** * Permission-settings utilities: a shallow embedding and its properties

    The development covers the two scripts of the repository:

    - [claude_settings_merger.py]: [load_json_file],
      [merge_permission_lists], [merge_settings_files] and the end of
      [main] (preparing and writing the output, with its backup);
    - [md_to_json_converter.py]: [parse_markdown_file],
      [create_permissions_json] and [process_file].

    Python strings are sequences of Unicode code points. The dicts and
    lists that [merge_settings_files] handles live in an explicit store,
    since the function copies the first document shallowly and then
    assigns into a dict that the copy shares. The regular expression of
    the converter is run by a small backtracking matcher. Library
    functions ([json.load], [json.dumps], [pathlib], [os.path.splitext])
    are modelled as far as the code uses them.

    The properties come last, one theorem per claim of the
    specification, named C1 to C10. *)

From Stdlib Require Import ZArith NArith Ascii String List Lia DecimalNat.
From stdpp Require Import base option list strings gmap sorting.

Set Warnings "-clear-no-such-hyp,-register-all".

Local Open Scope N_scope.
Local Open Scope nat_scope.
Local Open Scope list_scope.

(** ** Python strings *)

(** A [str] is a sequence of code points. *)
Abbreviation pystr := (list N).

(** Literals: every byte of an ASCII literal is its own code point. *)
Definition py (s : string) : pystr :=
  N_of_ascii <$> list_ascii_of_string s.

(** ** Order-preserving deduplication *)

Module Dedup.
Section loop.
(** Items of type [A] are put in a Python [set]; the set identifies
    items through [key] (for strings the key is the string itself). *)
Context {A K : Type} `{Countable K} (key : A → K).

(** The body of the inner loop:
<<
    if item not in seen:
        seen.add(item)
        result.append(item)
>> *)
Definition visit (st : gset K * list A) (item : A) : gset K * list A :=
  if decide (key item ∈ st.1) then st
  else ({[key item]} ∪ st.1, st.2 ++ [item]).

(** [for item in permission_list: ...] *)
Definition visit_list (st : gset K * list A) (permission_list : list A) :=
  foldl visit st permission_list.

(** [seen = set(); result = []; for permission_list in lists: ...;
    return result] *)
Definition merge_loop (lists : list (list A)) : list A :=
  (foldl visit_list (∅, []) lists).2.

(** The items of [l] that are new with respect to [seen], each once. *)
Fixpoint fresh_items (seen : gset K) (l : list A) : list A :=
  match l with
  | [] => []
  | x :: l' =>
      if decide (key x ∈ seen) then fresh_items seen l'
      else x :: fresh_items ({[key x]} ∪ seen) l'
  end.

Lemma visit_list_fresh (l : list A) (seen : gset K) (res : list A) :
  visit_list (seen, res) l
  = (seen ∪ list_to_set (key <$> l), res ++ fresh_items seen l).
Proof.
  revert seen res. induction l as [|x l IH]; intros seen res.
  - simpl. f_equal; [set_solver | by rewrite app_nil_r].
  - change (visit_list (seen, res) (x :: l))
      with (visit_list (visit (seen, res) x) l).
    unfold visit. simpl. destruct (decide (key x ∈ seen)) as [Hin|Hout].
    + rewrite IH. f_equal. set_solver.
    + rewrite IH. f_equal; [set_solver | by rewrite <- app_assoc].
Qed.

Lemma foldl_visit_list_concat (lists : list (list A)) st :
  foldl visit_list st lists = visit_list st (concat lists).
Proof.
  revert st. induction lists as [|l lists IH]; intros st; simpl; [done|].
  rewrite IH. unfold visit_list. by rewrite foldl_app.
Qed.

Lemma merge_loop_fresh (lists : list (list A)) :
  merge_loop lists = fresh_items ∅ (concat lists).
Proof.
  unfold merge_loop. rewrite foldl_visit_list_concat, visit_list_fresh.
  done.
Qed.

Lemma fresh_items_elem (l : list A) seen x :
  x ∈ fresh_items seen l → x ∈ l ∧ key x ∉ seen.
Proof.
  revert seen. induction l as [|y l IH]; intros seen; simpl.
  - by intros ?%elem_of_nil.
  - destruct (decide (key y ∈ seen)) as [Hin|Hout].
    + intros [??]%IH. split; [by right | done].
    + intros [->|[??]%IH]%elem_of_cons.
      * split; [by left | done].
      * split; [by right | set_solver].
Qed.

Lemma fresh_items_complete (l : list A) seen x :
  x ∈ l → key x ∉ seen → key x ∈ key <$> fresh_items seen l.
Proof.
  revert seen. induction l as [|y l IH]; intros seen; simpl.
  - by intros ?%elem_of_nil.
  - intros [->|Hx]%elem_of_cons Hk.
    + rewrite decide_False by done. set_solver.
    + destruct (decide (key y ∈ seen)); [by apply IH|].
      destruct (decide (key x = key y)) as [->|Hne]; [set_solver|].
      rewrite fmap_cons. right. apply IH; [done | set_solver].
Qed.

Lemma fresh_items_NoDup (l : list A) seen :
  NoDup (key <$> fresh_items seen l).
Proof.
  revert seen. induction l as [|y l IH]; intros seen; simpl.
  - constructor.
  - destruct (decide (key y ∈ seen)); [apply IH|].
    rewrite fmap_cons. constructor; [|apply IH].
    intros (z & Hz & [_ Hn]%fresh_items_elem)%list_elem_of_fmap.
    set_solver.
Qed.

(** When nothing repeats and nothing was seen, the loop keeps the
    whole list. *)
Lemma fresh_items_id (l : list A) seen :
  NoDup (key <$> l) → (∀ x, x ∈ l → key x ∉ seen) →
  fresh_items seen l = l.
Proof.
  revert seen. induction l as [|y l IH]; intros seen Hnd Hs; simpl; [done|].
  rewrite fmap_cons in Hnd. apply NoDup_cons in Hnd as [Hy Hnd].
  rewrite decide_False by (apply Hs; by left).
  f_equal. apply IH; [done|]. intros x Hx.
  assert (key x ≠ key y) by (intros E; apply Hy; rewrite <- E; set_solver).
  assert (key x ∉ seen) by (apply Hs; by right). set_solver.
Qed.

(** Order: an item kept at an earlier place has an occurrence in the
    input that comes before every occurrence of a later kept item. *)
Lemma fresh_items_order (l : list A) seen i j x y :
  fresh_items seen l !! i = Some x →
  fresh_items seen l !! j = Some y →
  (i < j)%nat →
  ∃ p, l !! p = Some x ∧ key y ∉ key <$> take p l.
Proof.
  revert seen i j. induction l as [|z l IH]; intros seen i j; simpl.
  - by rewrite lookup_nil.
  - destruct (decide (key z ∈ seen)) as [Hin|Hout].
    + intros Hi Hj Hlt. destruct (IH _ _ _ Hi Hj Hlt) as (p & Hp & Hy).
      exists (S p). split; [done|]. simpl.
      apply not_elem_of_cons. split; [|done].
      apply list_elem_of_lookup_2, fresh_items_elem in Hj as [_ Hj].
      congruence.
    + destruct i as [|i]; simpl.
      * intros [= ->] Hj Hlt. exists 0%nat. split; [done|].
        simpl. apply not_elem_of_nil.
      * destruct j as [|j]; [lia|]. simpl. intros Hi Hj Hlt.
        destruct (IH _ _ _ Hi Hj ltac:(lia)) as (p & Hp & Hy).
        exists (S p). split; [done|]. simpl.
        apply not_elem_of_cons. split; [|done].
        apply list_elem_of_lookup_2, fresh_items_elem in Hj as [_ Hj].
        set_solver.
Qed.
End loop.
End Dedup.

(** [merge_permission_lists(lists: List[List[str]]) -> List[str]] at its
    declared type: the items are strings and the set holds them as they
    are. *)
Definition merge_permission_lists (lists : list (list pystr)) : list pystr :=
  Dedup.merge_loop id lists.

(** ** First occurrences, stated on positions *)

Section first_occurrences.
Context {A : Type} `{EqDecision A}.

(** [keep_first pre l i]: the element of [l] at position [i], unless an
    equal one stands in [pre] or earlier in [l]. *)
Definition keep_first (pre l : list A) (i : nat) : option A :=
  x ← l !! i; if decide (x ∈ pre ++ take i l) then None else Some x.

(** The elements of [l] that do not occur at an earlier position, in
    the order of [l]. *)
Definition first_occurrences (l : list A) : list A :=
  omap (keep_first [] l) (seq 0 (length l)).

Lemma omap_seq_S {B} (f : nat → option B) j n :
  omap f (seq (S j) n) = omap (f ∘ S) (seq j n).
Proof.
  revert j. induction n as [|n IH]; intros j; [done|].
  simpl. destruct (f (S j)); by rewrite IH.
Qed.

Lemma omap_seq_ext {B} (f g : nat → option B) j n :
  (∀ i, (j ≤ i < j + n)%nat → f i = g i) →
  omap f (seq j n) = omap g (seq j n).
Proof.
  revert j. induction n as [|n IH]; intros j Hfg; [done|].
  simpl. rewrite (Hfg j) by lia. rewrite IH; [done|].
  intros i Hi. apply Hfg. lia.
Qed.
End first_occurrences.

Section dedup_first.
Context {A : Type} `{Countable A}.

Lemma fresh_items_keep_first (l pre : list A) :
  Dedup.fresh_items id (list_to_set pre) l
  = omap (keep_first pre l) (seq 0 (length l)).
Proof.
  revert pre. induction l as [|x l IH]; intros pre; [done|].
  cbn [Dedup.fresh_items length seq omap list_omap].
  rewrite omap_seq_S. unfold keep_first at 1. cbn [lookup list_lookup].
  simpl. rewrite app_nil_r.
  destruct (decide (x ∈ (list_to_set pre : gset A))) as [Hin|Hout].
  - rewrite decide_True by set_solver. rewrite IH.
    apply omap_seq_ext. intros i _. unfold keep_first, compose. simpl.
    destruct (l !! i) as [y|]; [simpl|done].
    destruct (decide (y ∈ pre ++ take i l)),
      (decide (y ∈ pre ++ x :: take i l)); try done; set_solver.
  - rewrite decide_False by set_solver. f_equal.
    replace ({[x]} ∪ list_to_set pre : gset A)
      with (list_to_set (pre ++ [x]) : gset A) by set_solver.
    rewrite IH. apply omap_seq_ext. intros i _.
    unfold keep_first, compose. simpl. by rewrite <- app_assoc.
Qed.

Lemma merge_loop_first_occurrences (lists : list (list A)) :
  Dedup.merge_loop id lists = first_occurrences (concat lists).
Proof.
  rewrite Dedup.merge_loop_fresh.
  apply (fresh_items_keep_first (concat lists) []).
Qed.
End dedup_first.

(** ** Exceptions *)

(** The exceptions the modelled code can raise or let through. *)
Inductive exn : Type :=
| ValueError (msg : string)
| TypeError
| AttributeError
| KeyError
| IndexError
| FileNotFoundError
| SystemError
| SystemExit (code : Z).

(** The outcome of a computation that may raise. *)
Inductive result (A : Type) : Type :=
| Ok (a : A)
| Raise (e : exn).
Arguments Ok {A} a.
Arguments Raise {A} e.

#[global] Instance result_ret : MRet result := λ A a, Ok a.
#[global] Instance result_bind : MBind result := λ A B f m,
  match m with Ok a => f a | Raise e => Raise e end.

(** ** JSON documents *)

(** The value [json.load] builds, as a tree. An object lists its members
    in the order of the text; the decoder never yields the same key
    twice, and [dict_get] and [dict_set] below are meant for such
    objects. Numbers are the integers; JSON numbers with a fraction or
    an exponent are not represented. *)
Inductive json : Type :=
| JNull
| JBool (b : bool)
| JInt (z : Z)
| JStr (s : pystr)
| JArr (items : list json)
| JObj (fields : list (pystr * json)).

(** Field names used by the code. *)
Definition k_permissions : pystr := Eval vm_compute in py "permissions".
Definition k_allow : pystr := Eval vm_compute in py "allow".
Definition k_deny : pystr := Eval vm_compute in py "deny".

(** Lookup in an insertion-ordered dict. *)
Fixpoint dict_get {V : Type} (k : pystr) (d : list (pystr * V)) : option V :=
  match d with
  | [] => None
  | (k', v) :: d' => if decide (k' = k) then Some v else dict_get k d'
  end.

(** [d[k] = v]: an existing key keeps its place, a new one goes last. *)
Fixpoint dict_set {V : Type} (k : pystr) (v : V) (d : list (pystr * V))
  : list (pystr * V) :=
  match d with
  | [] => [(k, v)]
  | (k', v') :: d' =>
      if decide (k' = k) then (k', v) :: d' else (k', v') :: dict_set k v d'
  end.

(** ** The pattern extractor ([md_to_json_converter.py]) *)

(** *** Whitespace and [str.strip] *)

(** The code points for which [str.isspace] holds; the same set is the
    class [\s] of a [str] pattern. *)
Definition is_space (c : N) : bool :=
  ((9 <=? c) && (c <=? 13) || (28 <=? c) && (c <=? 32)
   || (c =? 133) || (c =? 160) || (c =? 5760)
   || (8192 <=? c) && (c <=? 8202)
   || (c =? 8232) || (c =? 8233) || (c =? 8239) || (c =? 8287)
   || (c =? 12288))%N.

(** The longest prefix whose characters satisfy [p], and the rest. *)
Fixpoint span (p : N → bool) (s : pystr) : pystr * pystr :=
  match s with
  | [] => ([], [])
  | c :: s' => if p c then let '(a, b) := span p s' in (c :: a, b)
               else ([], s)
  end.

Definition lstrip (s : pystr) : pystr := (span is_space s).2.
Definition rstrip (s : pystr) : pystr := reverse (lstrip (reverse s)).
Definition strip (s : pystr) : pystr := rstrip (lstrip s).

(** *** The regular expression *)

Definition c_star : N := 42.
Definition c_hyphen : N := 45.
Definition c_backtick : N := 96.

(** The constructs of the pattern, in the order they are written. *)
Inductive re_item : Type :=
| Bol                       (* ^ *)
| One (p : N → bool)        (* a character class, one character *)
| Many1 (p : N → bool)      (* a character class followed by +, greedy *)
| GroupOpen                 (* ( *)
| GroupClose.               (* ) *)

(** [r'^[\*\-]\s+`([^`]+)`'] *)
Definition bullet_pattern : list re_item :=
  [ Bol;
    One (λ c, bool_decide (c = c_star) || bool_decide (c = c_hyphen));
    Many1 is_space;
    One (λ c, bool_decide (c = c_backtick));
    GroupOpen;
    Many1 (λ c, negb (bool_decide (c = c_backtick)));
    GroupClose;
    One (λ c, bool_decide (c = c_backtick)) ].

(** The text of the group being captured grows with each character. *)
Definition push (c : N) (cur : option pystr) : option pystr :=
  (λ acc, acc ++ [c]) <$> cur.

(** Greedy repetition with backtracking: take as many characters as
    possible, and give one back at a time while the rest of the pattern
    ([k]) fails. *)
Fixpoint greedy {R} (p : N → bool) (k : nat → option pystr → pystr → option R)
    (pos : nat) (cur : option pystr) (s : pystr) : option R :=
  match s with
  | [] => None
  | c :: s' =>
      if p c then
        match greedy p k (S pos) (push c cur) s' with
        | Some m => Some m
        | None => k (S pos) (push c cur) s'
        end
      else None
  end.

(** The matcher: [pos] is the number of characters consumed, [cur] the
    open group and [caps] the closed ones. *)
Fixpoint re_run (items : list re_item) (caps : list pystr)
    (pos : nat) (cur : option pystr) (s : pystr) : option (list pystr) :=
  match items with
  | [] => Some caps
  | it :: r =>
      match it with
      | Bol => if decide (pos = 0) then re_run r caps pos cur s else None
      | One p =>
          match s with
          | c :: s' => if p c then re_run r caps (S pos) (push c cur) s'
                       else None
          | [] => None
          end
      | Many1 p => greedy p (re_run r caps) pos cur s
      | GroupOpen => re_run r caps pos (Some []) s
      | GroupClose => re_run r (caps ++ [default [] cur]) pos None s
      end
  end.

(** [re.match(pattern, s)]: the match starts at the first character; the
    match object is modelled by its captured groups. *)
Definition re_match (pattern : list re_item) (s : pystr)
  : option (list pystr) :=
  re_run pattern [] 0 None s.

(** [match.group(n)] for [n >= 1]. *)
Definition group (n : nat) (m : list pystr) : result pystr :=
  match m !! (n - 1) with
  | Some g => Ok g
  | None => Raise IndexError
  end.

(** *** Reading the file *)

Definition c_lf : N := 10.
Definition c_cr : N := 13.

(** Text mode translates ["\r\n"] and a lone ["\r"] to ["\n"]. *)
Fixpoint universal_newlines (s : pystr) : pystr :=
  match s with
  | [] => []
  | c :: s' =>
      if decide (c = c_cr) then
        match s' with
        | c' :: _ =>
            if decide (c' = c_lf) then universal_newlines s'
            else c_lf :: universal_newlines s'
        | [] => [c_lf]
        end
      else c :: universal_newlines s'
  end.

(** Iterating over a file yields its lines, each with its newline. *)
Fixpoint split_lines (cur : pystr) (s : pystr) : list pystr :=
  match s with
  | [] => match cur with [] => [] | _ => [cur] end
  | c :: s' =>
      if decide (c = c_lf) then (cur ++ [c]) :: split_lines [] s'
      else split_lines (cur ++ [c]) s'
  end.

Definition file_lines (text : pystr) : list pystr :=
  split_lines [] (universal_newlines text).

(** The loop body of [parse_markdown_file]. *)
Definition parse_line (patterns : list pystr) (line : pystr)
  : result (list pystr) :=
  match re_match bullet_pattern (strip line) with
  | Some m => g ← group 1 m; Ok (patterns ++ [g])
  | None => Ok patterns
  end.

Fixpoint parse_lines (patterns : list pystr) (lines : list pystr)
  : result (list pystr) :=
  match lines with
  | [] => Ok patterns
  | line :: lines' =>
      patterns' ← parse_line patterns line; parse_lines patterns' lines'
  end.

(** [parse_markdown_file(filepath)]; [fs] gives the text of each file. *)
Definition parse_markdown_file (fs : gmap pystr pystr) (filepath : pystr)
  : result (list pystr) :=
  match fs !! filepath with
  | None => Raise FileNotFoundError
  | Some text => parse_lines [] (file_lines text)
  end.

(** [create_permissions_json(patterns)] *)
Definition create_permissions_json (patterns : list pystr) : json :=
  let unique_permissions := (Dedup.visit_list id (∅, []) patterns).2 in
  JObj [ (k_permissions,
          JObj [ (k_allow, JArr (JStr <$> unique_permissions));
                 (k_deny, JArr []) ]) ].

(** *** What the pattern matches *)

(** The line shape of the specification: a marker, a non-empty run of
    whitespace, a backtick, a non-empty capture without backtick, a
    closing backtick, and anything after it. *)
Definition bullet_line (t cap : pystr) : Prop :=
  ∃ (m : N) (ws rest : pystr),
    t = m :: ws ++ c_backtick :: cap ++ c_backtick :: rest
    ∧ (m = c_star ∨ m = c_hyphen)
    ∧ ws ≠ [] ∧ Forall (λ c, is_space c = true) ws
    ∧ cap ≠ [] ∧ c_backtick ∉ cap.

Definition push_all (a : pystr) (cur : option pystr) : option pystr :=
  (λ acc, acc ++ a) <$> cur.

Lemma span_app_eq (p : N → bool) (s a b : pystr) :
  span p s = (a, b) → s = a ++ b.
Proof.
  revert a b. induction s as [|c s IH]; intros a b; simpl.
  - by intros [= <- <-].
  - destruct (p c); [|by intros [= <- <-]].
    destruct (span p s) as [a' b']. intros [= <- <-].
    simpl. f_equal. by apply IH.
Qed.

Lemma span_Forall (p : N → bool) (s a b : pystr) :
  span p s = (a, b) → Forall (λ c, p c = true) a.
Proof.
  revert a b. induction s as [|c s IH]; intros a b; simpl.
  - intros [= <- <-]. constructor.
  - destruct (p c) eqn:Hc; [|intros [= <- <-]; constructor].
    destruct (span p s) as [a' b']. intros [= <- <-].
    constructor; [done | by eapply IH].
Qed.

Lemma span_rest (p : N → bool) (s a b : pystr) (c : N) :
  span p s = (a, c :: b) → p c = false.
Proof.
  revert a. induction s as [|d s IH]; intros a; simpl; [done|].
  destruct (p d) eqn:Hd; [|by intros [= <- <- <-]].
  destruct (span p s) as [a' b']. intros [= <- ->]. by eapply IH.
Qed.

Lemma span_maximal (p : N → bool) (a b : pystr) :
  Forall (λ c, p c = true) a →
  match b with [] => True | c :: _ => p c = false end →
  span p (a ++ b) = (a, b).
Proof.
  intros Ha Hb. induction Ha as [|c a Hc _ IH]; simpl.
  - destruct b as [|c b]; [done|]. simpl. by rewrite Hb.
  - by rewrite Hc, IH.
Qed.

Lemma push_all_push (c : N) (a : pystr) (cur : option pystr) :
  push_all a (push c cur) = push_all (c :: a) cur.
Proof. destruct cur; simpl; [|done]. by rewrite <- app_assoc. Qed.

(** When what follows the repetition cannot start with a character of
    the class, backtracking never succeeds: the repetition takes the
    longest run. *)
Lemma greedy_longest {R} (p : N → bool)
    (k : nat → option pystr → pystr → option R) (s : pystr) pos cur :
  (∀ pos' cur' c s', p c = true → k pos' cur' (c :: s') = None) →
  greedy p k pos cur s
  = match span p s with
    | ([], _) => None
    | (a, b) => k (pos + length a) (push_all a cur) b
    end.
Proof.
  intros Hk. revert pos cur. induction s as [|c s IH]; intros pos cur.
  - done.
  - simpl. destruct (p c) eqn:Hc; [|done].
    rewrite IH. destruct (span p s) as [a b] eqn:Hs.
    destruct a as [|d a].
    + apply span_app_eq in Hs as ->. simpl.
      replace (pos + 1) with (S pos) by lia.
      by destruct cur; simpl.
    + rewrite push_all_push.
      replace (S pos + length (d :: a)) with (pos + length (c :: d :: a))
        by (simpl; lia).
      destruct (k _ _ b) eqn:Hkb; [done|].
      pose proof (span_Forall _ _ _ _ Hs) as Hd.
      apply Forall_cons in Hd as [Hd _].
      apply span_app_eq in Hs as ->. simpl. by apply Hk.
Qed.

(** The equations of the matcher, one per construct. *)
Lemma re_run_Bol r caps pos cur s :
  re_run (Bol :: r) caps pos cur s
  = if decide (pos = 0) then re_run r caps pos cur s else None.
Proof. done. Qed.

Lemma re_run_One p r caps pos cur s :
  re_run (One p :: r) caps pos cur s
  = match s with
    | c :: s' => if p c then re_run r caps (S pos) (push c cur) s' else None
    | [] => None
    end.
Proof. done. Qed.

Lemma re_run_Many1 p r caps pos cur s :
  re_run (Many1 p :: r) caps pos cur s = greedy p (re_run r caps) pos cur s.
Proof. done. Qed.

Lemma re_run_Open r caps pos cur s :
  re_run (GroupOpen :: r) caps pos cur s = re_run r caps pos (Some []) s.
Proof. done. Qed.

Lemma re_run_Close r caps pos cur s :
  re_run (GroupClose :: r) caps pos cur s
  = re_run r (caps ++ [default [] cur]) pos None s.
Proof. done. Qed.

Lemma re_run_one_rejects (q p : N → bool) r caps :
  (∀ c, p c = true → q c = false) →
  ∀ pos' cur' c s', p c = true →
    re_run (One q :: r) caps pos' cur' (c :: s') = None.
Proof. intros Hpq pos' cur' c s' Hc. simpl. by rewrite (Hpq c Hc). Qed.

Lemma is_space_backtick : is_space c_backtick = false.
Proof. reflexivity. Qed.

(** The pattern, run on a string, in terms of its two longest runs. *)
Lemma re_match_bullet_spans (t : pystr) :
  re_match bullet_pattern t
  = match t with
    | [] => None
    | m :: t1 =>
        if bool_decide (m = c_star) || bool_decide (m = c_hyphen) then
          match span is_space t1 with
          | (_ :: _, b :: t3) =>
              if bool_decide (b = c_backtick) then
                match span (λ c, negb (bool_decide (c = c_backtick))) t3 with
                | (d :: cap, e :: _) =>
                    if bool_decide (e = c_backtick) then Some [d :: cap]
                    else None
                | _ => None
                end
              else None
          | _ => None
          end
        else None
    end.
Proof.
  unfold re_match, bullet_pattern.
  rewrite re_run_Bol, decide_True by done.
  destruct t as [|m t1]; [done|]. rewrite re_run_One.
  destruct (bool_decide (m = c_star) || bool_decide (m = c_hyphen)); [|done].
  rewrite re_run_Many1, greedy_longest; last first.
  { apply re_run_one_rejects. intros c Hc. apply bool_decide_eq_false.
    intros ->. by rewrite is_space_backtick in Hc. }
  destruct (span is_space t1) as [[|w ws] [|b t3]]; try done.
  rewrite re_run_One. destruct (bool_decide (b = c_backtick)); [|done].
  rewrite re_run_Open, re_run_Many1, greedy_longest; last first.
  { intros pos' cur' c s' Hc. rewrite re_run_Close, re_run_One.
    apply negb_true_iff in Hc. by rewrite Hc. }
  by destruct (span _ t3) as [[|d cap] [|e t5]].
Qed.

Lemma not_backtick_Forall (cap : pystr) :
  Forall (λ c, negb (bool_decide (c = c_backtick)) = true) cap
  ↔ c_backtick ∉ cap.
Proof.
  rewrite Forall_forall. split.
  - intros Hall Hin. specialize (Hall _ Hin).
    by rewrite bool_decide_eq_true_2 in Hall.
  - intros Hnin c Hc. apply negb_true_iff, bool_decide_eq_false.
    by intros ->.
Qed.

(** The pattern matches exactly the lines of the specified shape, and
    its group is the capture. *)
Lemma re_match_bullet_sound (t : pystr) (m : list pystr) :
  re_match bullet_pattern t = Some m → ∃ cap, m = [cap] ∧ bullet_line t cap.
Proof.
  rewrite re_match_bullet_spans.
  destruct t as [|c t1]; [done|].
  destruct (_ || _) eqn:Hm; [|done].
  destruct (span is_space t1) as [[|w ws] [|b t3]] eqn:Hws; try done.
  destruct (bool_decide (b = c_backtick)) eqn:Hb; [|done].
  apply bool_decide_eq_true in Hb as ->.
  destruct (span _ t3) as [[|d cap] [|e t5]] eqn:Hcap; try done.
  destruct (bool_decide (e = c_backtick)) eqn:He; [|done].
  apply bool_decide_eq_true in He as ->.
  intros [= <-]. exists (d :: cap). split; [done|].
  exists c, (w :: ws), t5. repeat split.
  - apply span_app_eq in Hws as ->. apply span_app_eq in Hcap as ->.
    done.
  - apply orb_true_iff in Hm as [?%bool_decide_eq_true|?%bool_decide_eq_true];
      auto.
  - done.
  - by eapply span_Forall.
  - done.
  - apply not_backtick_Forall. by eapply span_Forall.
Qed.

Lemma re_match_bullet_complete (t cap : pystr) :
  bullet_line t cap → re_match bullet_pattern t = Some [cap].
Proof.
  intros (m & ws & rest & -> & Hm & Hws & Hsp & Hcap & Hbt).
  rewrite re_match_bullet_spans.
  replace (bool_decide (m = c_star) || bool_decide (m = c_hyphen))
    with true; last first.
  { symmetry. apply orb_true_iff.
    destruct Hm as [->| ->]; [left|right]; by apply bool_decide_eq_true. }
  rewrite (span_maximal is_space ws) by done.
  destruct ws as [|w ws]; [done|].
  rewrite bool_decide_eq_true_2 by done.
  rewrite (span_maximal _ cap); [|by apply not_backtick_Forall|].
  - destruct cap as [|d cap]; [done|].
    by rewrite bool_decide_eq_true_2.
  - by rewrite bool_decide_eq_true_2.
Qed.

Lemma bullet_line_functional (t cap cap' : pystr) :
  bullet_line t cap → bullet_line t cap' → cap = cap'.
Proof.
  intros H1%re_match_bullet_complete H2%re_match_bullet_complete.
  congruence.
Qed.

(** [str.strip] removes a run of whitespace at each end and leaves a
    string that neither starts nor ends with whitespace. *)
Lemma lstrip_spec (s : pystr) :
  ∃ a, s = a ++ lstrip s ∧ Forall (λ c, is_space c = true) a
       ∧ match lstrip s with [] => True | c :: _ => is_space c = false end.
Proof.
  unfold lstrip. destruct (span is_space s) as [a b] eqn:Hs.
  exists a. split; [by apply span_app_eq in Hs|].
  split; [by eapply span_Forall|]. simpl.
  destruct b as [|c b]; [done|]. by eapply span_rest.
Qed.

Lemma strip_spec (s : pystr) :
  ∃ a b, s = a ++ strip s ++ b
         ∧ Forall (λ c, is_space c = true) a
         ∧ Forall (λ c, is_space c = true) b
         ∧ match strip s with [] => True | c :: _ => is_space c = false end
         ∧ match reverse (strip s) with
           | [] => True | c :: _ => is_space c = false
           end.
Proof.
  destruct (lstrip_spec s) as (a & Hs & Ha & Hhd).
  destruct (lstrip_spec (reverse (lstrip s))) as (b & Hr & Hb & Htl).
  exists a, (reverse b). unfold strip, rstrip.
  set (t := lstrip (reverse (lstrip s))) in *.
  assert (Hl : lstrip s = reverse t ++ reverse b).
  { rewrite <- reverse_app, <- Hr. by rewrite reverse_involutive. }
  repeat split.
  - by rewrite <- Hl.
  - done.
  - by apply Forall_reverse.
  - destruct (reverse t) as [|c rt] eqn:Hrt; [done|].
    rewrite Hl in Hhd. done.
  - by rewrite reverse_involutive.
Qed.

(** *** The extractor on a list of lines *)

(** What a line contributes: its capture when it has the bullet shape
    after trimming, nothing otherwise. *)
Definition line_capture (line : pystr) (oc : option pystr) : Prop :=
  match oc with
  | Some cap => bullet_line (strip line) cap
  | None => ∀ cap, ¬ bullet_line (strip line) cap
  end.

Lemma parse_line_capture (patterns : list pystr) (line : pystr) :
  ∃ oc, line_capture line oc
        ∧ parse_line patterns line = Ok (patterns ++ option_list oc).
Proof.
  unfold parse_line.
  destruct (re_match bullet_pattern (strip line)) as [m|] eqn:Hm.
  - apply re_match_bullet_sound in Hm as (cap & -> & Hcap).
    exists (Some cap). by split.
  - exists None. split; [|by rewrite app_nil_r].
    intros cap Hcap%re_match_bullet_complete. congruence.
Qed.

Lemma parse_lines_captures (lines : list pystr) (patterns : list pystr) :
  ∃ ocs, Forall2 line_capture lines ocs
         ∧ parse_lines patterns lines = Ok (patterns ++ omap id ocs).
Proof.
  revert patterns. induction lines as [|line lines IH]; intros patterns.
  - exists []. split; [constructor | by rewrite app_nil_r].
  - destruct (parse_line_capture patterns line) as (oc & Hoc & Hline).
    destruct (IH (patterns ++ option_list oc)) as (ocs & Hocs & Hlines).
    exists (oc :: ocs). split; [by constructor|].
    simpl. rewrite Hline. simpl. rewrite Hlines.
    rewrite <- app_assoc. by destruct oc.
Qed.

(** *** Reading a permission document *)

Definition json_get (k : pystr) (j : json) : option json :=
  match j with JObj d => dict_get k d | _ => None end.

Definition json_string (j : json) : option pystr :=
  match j with JStr s => Some s | _ => None end.

Definition json_strings (j : json) : option (list pystr) :=
  match j with JArr items => mapM json_string items | _ => None end.

(** The list ["allow"] or ["deny"] of a document's ["permissions"]. *)
Definition permission_list (field : pystr) (doc : json)
  : option (list pystr) :=
  permissions ← json_get k_permissions doc;
  items ← json_get field permissions;
  json_strings items.

Lemma json_strings_JStr (l : list pystr) :
  json_strings (JArr (JStr <$> l)) = Some l.
Proof.
  simpl. apply mapM_Some. induction l; constructor; done.
Qed.

Lemma first_occurrences_fresh (l : list pystr) :
  Dedup.fresh_items id ∅ l = first_occurrences l.
Proof. apply (fresh_items_keep_first l []). Qed.

Lemma first_occurrences_NoDup (l : list pystr) : NoDup (first_occurrences l).
Proof.
  rewrite <- first_occurrences_fresh.
  rewrite <- (list_fmap_id (Dedup.fresh_items id ∅ l)).
  apply Dedup.fresh_items_NoDup.
Qed.

Lemma first_occurrences_elem (l : list pystr) (x : pystr) :
  x ∈ first_occurrences l ↔ x ∈ l.
Proof.
  rewrite <- first_occurrences_fresh. split.
  - by intros [? _]%Dedup.fresh_items_elem.
  - intros Hx. rewrite <- (list_fmap_id (Dedup.fresh_items id ∅ l)).
    apply (Dedup.fresh_items_complete id l ∅ x Hx). set_solver.
Qed.

Lemma first_occurrences_NoDup_id (l : list pystr) :
  NoDup l → first_occurrences l = l.
Proof.
  intros Hnd. rewrite <- first_occurrences_fresh.
  apply Dedup.fresh_items_id; [by rewrite list_fmap_id | set_solver].
Qed.

Lemma create_permissions_json_first (patterns : list pystr) :
  create_permissions_json patterns
  = JObj [ (k_permissions,
            JObj [ (k_allow, JArr (JStr <$> first_occurrences patterns));
                   (k_deny, JArr []) ]) ].
Proof.
  unfold create_permissions_json.
  by rewrite Dedup.visit_list_fresh, <- first_occurrences_fresh.
Qed.

(** The document that holds a list of patterns and nothing else. *)
Definition emitted_document (l : list pystr) : json :=
  JObj [ (k_permissions,
          JObj [ (k_allow, JArr (JStr <$> l)); (k_deny, JArr []) ]) ].

Lemma emitted_document_allow (l : list pystr) :
  permission_list k_allow (emitted_document l) = Some l.
Proof.
  unfold permission_list, emitted_document. cbn [json_get dict_get].
  rewrite decide_True by done. cbn [mbind option_bind json_get dict_get].
  rewrite decide_True by done. apply json_strings_JStr.
Qed.

Lemma emitted_document_deny (l : list pystr) :
  permission_list k_deny (emitted_document l) = Some [].
Proof. done. Qed.

Lemma emitted_document_other (l : list pystr) (k : pystr) :
  k ≠ k_permissions → json_get k (emitted_document l) = None.
Proof.
  intros Hk. unfold emitted_document. cbn [json_get dict_get].
  by rewrite decide_False.
Qed.

Lemma create_permissions_json_emitted (patterns : list pystr) :
  create_permissions_json patterns
  = emitted_document (first_occurrences patterns).
Proof. apply create_permissions_json_first. Qed.

Lemma create_permissions_json_distinct (ps : list pystr) :
  NoDup ps → create_permissions_json ps = emitted_document ps.
Proof.
  intros Hnd. rewrite create_permissions_json_emitted.
  by rewrite first_occurrences_NoDup_id.
Qed.

(** ** The settings merger ([claude_settings_merger.py]) *)

(** *** Python objects in a store *)

Abbreviation loc := nat.

(** A Python value: an immutable scalar, or a reference to a dict or a
    list of the store. *)
Inductive value : Type :=
| VNone
| VBool (b : bool)
| VInt (z : Z)
| VStr (s : pystr)
| VRef (l : loc).

Inductive object : Type :=
| ODict (d : list (pystr * value))
| OList (items : list value).

(** The store: object [l] is the [l]-th allocated. *)
Abbreviation heap := (list object).

(** Computations that read and update the store and may raise. *)
Definition M (A : Type) : Type := heap → result (A * heap).

#[global] Instance M_ret : MRet M := λ A a h, Ok (a, h).
#[global] Instance M_bind : MBind M := λ A B f m h,
  match m h with Ok (a, h') => f a h' | Raise e => Raise e end.

Definition raise {A} (e : exn) : M A := λ _, Raise e.

Definition alloc (o : object) : M value :=
  λ h, Ok (VRef (length h), h ++ [o]).

Definition store (l : loc) (o : object) : M unit :=
  λ h, Ok ((), <[l := o]> h).

(** What a value is at run time. *)
Inductive view : Type :=
| IsNone
| IsBool (b : bool)
| IsInt (z : Z)
| IsStr (s : pystr)
| IsDict (l : loc) (d : list (pystr * value))
| IsList (l : loc) (items : list value)
| Dangling.

Definition view_of (h : heap) (v : value) : view :=
  match v with
  | VNone => IsNone
  | VBool b => IsBool b
  | VInt z => IsInt z
  | VStr s => IsStr s
  | VRef l =>
      match h !! l with
      | Some (ODict d) => IsDict l d
      | Some (OList items) => IsList l items
      | None => Dangling
      end
  end.

Definition inspect (v : value) : M view := λ h, Ok (view_of h v, h).

(** A reference to nothing does not occur in a store built by the code;
    the model answers it with an internal error. *)
Definition dangling {A} : M A := raise SystemError.

(** [mapM] in the store monad, written so that a recursive function can
    be mapped over the children of its argument. *)
Definition mapM_M {A B} (f : A → M B) : list A → M (list B) :=
  fix go (l : list A) : M (list B) :=
    match l with
    | [] => mret []
    | x :: l' => y ← f x; ys ← go l'; mret (y :: ys)
    end.

(** [json.load]: the decoder allocates a fresh dict or list for every
    object or array of the document, children first. *)
Fixpoint load_value (j : json) : M value :=
  match j with
  | JNull => mret VNone
  | JBool b => mret (VBool b)
  | JInt z => mret (VInt z)
  | JStr s => mret (VStr s)
  | JArr items =>
      vs ← mapM_M load_value items; alloc (OList vs)
  | JObj fields =>
      d ← mapM_M (λ kj, v ← load_value kj.2; mret (kj.1, v)) fields;
      alloc (ODict d)
  end.

(** A file as [load_json_file] finds it. *)
Inductive file : Type :=
| Unreadable            (* open or read fails *)
| Malformed             (* the content is not JSON *)
| Document (j : json).  (* the content parses to [j] *)

(** [load_json_file(filepath)]: every failure prints a message and exits
    with status 1. *)
Definition load_json_file (docs : gmap pystr file) (filepath : pystr)
  : M value :=
  match docs !! filepath with
  | None => raise (SystemExit 1)             (* FileNotFoundError *)
  | Some Malformed => raise (SystemExit 1)   (* json.JSONDecodeError *)
  | Some Unreadable => raise (SystemExit 1)  (* Exception *)
  | Some (Document j) => load_value j
  end.

(** *** The operations of the code on run-time values *)

#[global] Instance value_eq_dec : EqDecision value.
Proof. solve_decision. Defined.

Fixpoint is_prefix (a s : pystr) : bool :=
  match a, s with
  | [], _ => true
  | x :: a', y :: s' => bool_decide (x = y) && is_prefix a' s'
  | _ :: _, [] => false
  end.

Fixpoint is_substring (a s : pystr) : bool :=
  is_prefix a s
  || match s with [] => false | _ :: s' => is_substring a s' end.

(** [v.copy()]: dicts and lists have the method; the copy is shallow. *)
Definition copy_method (v : value) : M value :=
  w ← inspect v;
  match w with
  | IsDict _ d => alloc (ODict d)
  | IsList _ items => alloc (OList items)
  | Dangling => dangling
  | _ => raise AttributeError
  end.

(** [v.get(k, {})]: the default is built before the call. *)
Definition get_method (v : value) (k : pystr) : M value :=
  w ← inspect v;
  match w with
  | IsDict _ d =>
      dflt ← alloc (ODict []); mret (default dflt (dict_get k d))
  | Dangling => dangling
  | _ => raise AttributeError
  end.

(** [k in v] for a string [k]. *)
Definition contains (k : pystr) (v : value) : M bool :=
  w ← inspect v;
  match w with
  | IsDict _ d => mret (bool_decide (is_Some (dict_get k d)))
  | IsList _ items => mret (bool_decide (VStr k ∈ items))
  | IsStr s => mret (is_substring k s)
  | Dangling => dangling
  | _ => raise TypeError
  end.

(** [v[k]] for a string [k]. *)
Definition getitem (v : value) (k : pystr) : M value :=
  w ← inspect v;
  match w with
  | IsDict _ d =>
      match dict_get k d with Some x => mret x | None => raise KeyError end
  | Dangling => dangling
  | _ => raise TypeError
  end.

(** [v[k] = x] for a string [k]. *)
Definition setitem (v : value) (k : pystr) (x : value) : M unit :=
  w ← inspect v;
  match w with
  | IsDict l d => store l (ODict (dict_set k x d))
  | Dangling => dangling
  | _ => raise TypeError
  end.

(** The items a [for] loop over [v] visits. *)
Definition py_iter (v : value) : M (list value) :=
  w ← inspect v;
  match w with
  | IsList _ items => mret items
  | IsDict _ d => mret ((λ kv, VStr kv.1) <$> d)
  | IsStr s => mret ((λ c, VStr [c]) <$> s)
  | Dangling => dangling
  | _ => raise TypeError
  end.

(** What a [set] compares: [True == 1] and [False == 0]. *)
Inductive hkey : Type :=
| KNone
| KNum (z : Z)
| KStr (s : pystr).

#[global] Instance hkey_eq_dec : EqDecision hkey.
Proof. solve_decision. Defined.

#[global] Instance hkey_countable : Countable hkey.
Proof.
  refine (inj_countable'
    (λ k, match k with
          | KNone => None
          | KNum z => Some (inl z)
          | KStr s => Some (inr s)
          end)
    (λ o, match o with
          | None => KNone
          | Some (inl z) => KNum z
          | Some (inr s) => KStr s
          end) _).
  by intros [].
Defined.

(** Dicts and lists are unhashable. *)
Definition py_hash (v : value) : option hkey :=
  match v with
  | VNone => Some KNone
  | VBool b => Some (KNum (if b then 1 else 0))
  | VInt z => Some (KNum z)
  | VStr s => Some (KStr s)
  | VRef _ => None
  end.

Definition hashed (item : value) : M (hkey * value) :=
  match py_hash item with
  | Some k => mret (k, item)
  | None => raise TypeError
  end.

(** [merge_permission_lists] on run-time values: the loop is
    [Dedup.merge_loop]; an argument that cannot be iterated or an item
    that cannot be hashed raises [TypeError]. The result is a new list. *)
Definition merge_permission_lists_dyn (lists : list value) : M value :=
  item_lists ←
    mapM_M (λ permission_list,
              items ← py_iter permission_list; mapM_M hashed items) lists;
  alloc (OList (snd <$> Dedup.merge_loop fst item_lists)).

Definition foldM_M {A B} (f : B → A → M B) : B → list A → M B :=
  fix go (b : B) (l : list A) : M B :=
    match l with
    | [] => mret b
    | x :: l' => b' ← f b x; go b' l'
    end.

(** The body of [for settings in settings_list]. *)
Definition collect (acc : list value * list value) (settings : value)
  : M (list value * list value) :=
  permissions ← get_method settings k_permissions;
  has_allow ← contains k_allow permissions;
  allow_lists ←
    (if has_allow : bool
     then x ← getitem permissions k_allow; mret (acc.1 ++ [x])
     else mret acc.1);
  has_deny ← contains k_deny permissions;
  deny_lists ←
    (if has_deny : bool
     then x ← getitem permissions k_deny; mret (acc.2 ++ [x])
     else mret acc.2);
  mret (allow_lists, deny_lists).

(** The two assignments and the return:
<<
    merged['permissions']['allow'] = merge_permission_lists(allow_lists)
    merged['permissions']['deny'] = merge_permission_lists(deny_lists)
    return merged
>>
    The right-hand side is evaluated before the target is looked up. *)
Definition assign_lists (merged : value) (lists : list value * list value)
  : M value :=
  allow ← merge_permission_lists_dyn lists.1;
  permissions ← getitem merged k_permissions;
  _ ← setitem permissions k_allow allow;
  deny ← merge_permission_lists_dyn lists.2;
  permissions ← getitem merged k_permissions;
  _ ← setitem permissions k_deny deny;
  mret merged.

(** [merge_settings_files] once the files are loaded (from
    [merged = settings_list[0].copy()] to [return merged]). *)
Definition merge_loaded (settings_list : list value) : M value :=
  match settings_list with
  | [] => raise IndexError
  | first :: _ =>
      merged ← copy_method first;
      lists ← foldM_M collect ([], []) settings_list;
      has_permissions ← contains k_permissions merged;
      _ ← (if has_permissions : bool then mret ()
           else empty ← alloc (ODict []);
                setitem merged k_permissions empty);
      assign_lists merged lists
  end.

(** [settings_list = [load_json_file(f) for f in files]] *)
Definition load_settings (docs : gmap pystr file) (files : list pystr)
  : M (list value) :=
  mapM_M (load_json_file docs) files.

(** [merge_settings_files(files)] *)
Definition merge_settings_files (docs : gmap pystr file)
    (files : list pystr) : M value :=
  match files with
  | [] => raise (ValueError "No files provided to merge")
  | _ :: _ =>
      settings_list ← load_settings docs files;
      merge_loaded settings_list
  end.

(** *** Reading a document back from the store *)

Definition all2 {A B} (f : A → B → bool) : list A → list B → bool :=
  fix go (l : list A) (k : list B) : bool :=
    match l, k with
    | [], [] => true
    | x :: l', y :: k' => f x y && go l' k'
    | _, _ => false
    end.

(** [represents h j v]: in store [h], the value [v] is the document [j]. *)
Fixpoint represents (h : heap) (j : json) (v : value) : bool :=
  match j, v with
  | JNull, VNone => true
  | JBool b, VBool b' => bool_decide (b = b')
  | JInt z, VInt z' => bool_decide (z = z')
  | JStr s, VStr s' => bool_decide (s = s')
  | JArr items, VRef l =>
      match h !! l with
      | Some (OList vs) => all2 (represents h) items vs
      | _ => false
      end
  | JObj fields, VRef l =>
      match h !! l with
      | Some (ODict d) =>
          all2 (λ kj kv, bool_decide (kj.1 = kv.1) && represents h kj.2 kv.2)
            fields d
      | _ => false
      end
  | _, _ => false
  end.

(** *** Induction over documents *)

Lemma json_induction (P : json → Prop) :
  P JNull → (∀ b, P (JBool b)) → (∀ z, P (JInt z)) → (∀ s, P (JStr s)) →
  (∀ items, Forall P items → P (JArr items)) →
  (∀ fields, Forall (λ kj, P kj.2) fields → P (JObj fields)) →
  ∀ j, P j.
Proof.
  intros Hnull Hbool Hint Hstr Harr Hobj.
  fix IH 1.
  intros [| b | z | s | items | fields];
    [apply Hnull | apply Hbool | apply Hint | apply Hstr | |].
  - apply Harr. revert items. fix IHl 1. intros [|j items].
    + constructor.
    + constructor; [apply IH | apply IHl].
  - apply Hobj. revert fields. fix IHl 1. intros [|[k j] fields].
    + constructor.
    + constructor; [apply IH | apply IHl].
Qed.

(** A value of a store reads as at most one document. *)
Lemma represents_functional (j : json) :
  ∀ j' h v, represents h j v = true → represents h j' v = true → j = j'.
Proof.
  induction j as [| b | z | s | items IH | fields IH] using json_induction;
    intros j' h v Hj Hj'.
  - by destruct v, j'.
  - destruct v, j'; try done. simpl in *.
    apply bool_decide_eq_true in Hj, Hj'. congruence.
  - destruct v, j'; try done. simpl in *.
    apply bool_decide_eq_true in Hj, Hj'. congruence.
  - destruct v, j'; try done. simpl in *.
    apply bool_decide_eq_true in Hj, Hj'. congruence.
  - destruct v as [| | | |l]; try done.
    destruct j' as [| | | |items'|fields']; try done; simpl in *;
      destruct (h !! l) as [[d|vs]|]; try done.
    f_equal. clear l. revert items' vs Hj Hj'.
    induction IH as [|j items Hjj _ IHl]; intros [|j' items'] [|v vs];
      try done.
    simpl. intros [H1 H2]%andb_true_iff [H1' H2']%andb_true_iff.
    f_equal; [by eapply Hjj | by eapply IHl].
  - destruct v as [| | | |l]; try done.
    destruct j' as [| | | |items'|fields']; try done; simpl in *;
      destruct (h !! l) as [[d|vs]|]; try done.
    f_equal. clear l. revert fields' d Hj Hj'.
    induction IH as [|[k j] fields Hjj _ IHl];
      intros [|[k' j'] fields'] [|[k2 v] d]; try done.
    simpl.
    intros [[Hk%bool_decide_eq_true H1]%andb_true_iff H2]%andb_true_iff.
    intros [[Hk'%bool_decide_eq_true H1']%andb_true_iff H2']%andb_true_iff.
    simpl in *. subst. f_equal; [|by eapply IHl].
    f_equal. by eapply Hjj.
Qed.

(** *** Where [json.load] puts a document *)

(** The number of objects [load_value] allocates for a document. *)
Fixpoint cells (j : json) : nat :=
  match j with
  | JArr items => S (sum_list (cells <$> items))
  | JObj fields => S (sum_list ((λ kj, cells kj.2) <$> fields))
  | _ => 0
  end.

(** Consecutive placement of the elements of a sequence from a base. *)
Definition laid_seq {A B} (size : A → nat) (P : nat → A → B → Prop)
  : nat → list A → list B → Prop :=
  fix go (a : nat) (l : list A) (k : list B) : Prop :=
    match l, k with
    | [], [] => True
    | x :: l', y :: k' => P a x y ∧ go (a + size x) l' k'
    | _, _ => False
    end.

(** [laid_out h a j v]: the objects of [j] occupy the locations from [a]
    on, children before their parent, and [v] is its value. *)
Fixpoint laid_out (h : heap) (a : nat) (j : json) (v : value) : Prop :=
  match j with
  | JNull => v = VNone
  | JBool b => v = VBool b
  | JInt z => v = VInt z
  | JStr s => v = VStr s
  | JArr items =>
      let l := a + sum_list (cells <$> items) in
      ∃ vs, v = VRef l ∧ h !! l = Some (OList vs)
            ∧ laid_seq cells (laid_out h) a items vs
  | JObj fields =>
      let l := a + sum_list ((λ kj, cells kj.2) <$> fields) in
      ∃ d, v = VRef l ∧ h !! l = Some (ODict d)
           ∧ laid_seq (λ kj, cells kj.2)
               (λ a kj kv, kj.1 = kv.1 ∧ laid_out h a kj.2 kv.2) a fields d
  end.

Definition laid_fields (h : heap) : nat → list (pystr * json)
    → list (pystr * value) → Prop :=
  laid_seq (λ kj, cells kj.2)
    (λ a kj kv, kj.1 = kv.1 ∧ laid_out h a kj.2 kv.2).

Definition laid_items (h : heap) : nat → list json → list value → Prop :=
  laid_seq cells (laid_out h).

(** Two stores that agree on the locations from [a] up to [b]. *)
Definition agree (a b : nat) (h h2 : heap) : Prop :=
  ∀ l, a ≤ l < b → h2 !! l = h !! l.

Lemma agree_weaken (a b a' b' : nat) (h h2 : heap) :
  a ≤ a' → b' ≤ b → agree a b h h2 → agree a' b' h h2.
Proof. intros ?? Hag l ?. apply Hag. lia. Qed.

Lemma agree_trans (a b : nat) (h1 h2 h3 : heap) :
  agree a b h1 h2 → agree a b h2 h3 → agree a b h1 h3.
Proof. intros H12 H23 l Hl. by rewrite H23, H12. Qed.

Lemma agree_app (a b : nat) (h e : heap) :
  b ≤ length h → agree a b h (h ++ e).
Proof. intros ? l ?. apply lookup_app_l. lia. Qed.

Lemma agree_insert (a b p : nat) (h : heap) (o : object) :
  ¬ (a ≤ p < b) → agree a b h (<[p := o]> h).
Proof. intros ? l ?. apply list_lookup_insert_ne. lia. Qed.

(** A laid-out document only depends on its own locations. *)
Lemma laid_out_agree (j : json) :
  ∀ h h2 a v, agree a (a + cells j) h h2 →
    laid_out h a j v → laid_out h2 a j v.
Proof.
  induction j as [| | | | items IH | fields IH] using json_induction;
    intros h h2 a v Hag; try done.
  - simpl. intros (vs & -> & Hl & Hseq). exists vs.
    split; [done|]. split; [rewrite Hag; [done | simpl; lia]|].
    assert (Hag' : agree a (a + sum_list (cells <$> items)) h h2)
      by (eapply agree_weaken; [| |done]; simpl; lia).
    clear Hl Hag. revert a vs Hseq Hag'.
    induction IH as [|j items Hj _ IHl]; intros a [|w vs]; try done.
    csimpl. intros [Hw Hrest] Hag. split.
    + eapply Hj; [|done]. eapply agree_weaken; [| |done]; lia.
    + apply IHl; [done|]. eapply agree_weaken; [| |done]; lia.
  - simpl. intros (d & -> & Hl & Hseq). exists d.
    split; [done|]. split; [rewrite Hag; [done | simpl; lia]|].
    assert (Hag' : agree a (a + sum_list ((λ kj, cells kj.2) <$> fields))
                     h h2)
      by (eapply agree_weaken; [| |done]; simpl; lia).
    clear Hl Hag. revert a d Hseq Hag'.
    induction IH as [|kj fields Hj _ IHl]; intros a [|kv d]; try done.
    csimpl. intros [[Hk Hw] Hrest] Hag. split; [split; [done|]|].
    + eapply Hj; [|done]. eapply agree_weaken; [| |done]; lia.
    + apply IHl; [done|]. eapply agree_weaken; [| |done]; lia.
Qed.

Lemma laid_fields_agree (fields : list (pystr * json)) :
  ∀ h h2 a d,
    agree a (a + sum_list ((λ kj, cells kj.2) <$> fields)) h h2 →
    laid_fields h a fields d → laid_fields h2 a fields d.
Proof.
  induction fields as [|kj fields IH]; intros h h2 a [|kv d]; try done.
  csimpl. intros Hag [[Hk Hw] Hrest]. split; [split; [done|]|].
  - eapply laid_out_agree; [|done]. eapply agree_weaken; [| |done]; lia.
  - eapply IH; [|done]. eapply agree_weaken; [| |done]; lia.
Qed.

(** A laid-out document is represented. *)
Lemma laid_out_represents (j : json) :
  ∀ h a v, laid_out h a j v → represents h j v = true.
Proof.
  induction j as [| | | | items IH | fields IH] using json_induction;
    intros h a v; cbn [laid_out represents].
  - by intros ->.
  - intros ->. by apply bool_decide_eq_true.
  - intros ->. by apply bool_decide_eq_true.
  - intros ->. by apply bool_decide_eq_true.
  - intros (vs & -> & Hl & Hseq). cbn [represents]. rewrite Hl.
    clear Hl. revert a vs Hseq.
    induction IH as [|j items Hj _ IHl]; intros a [|w vs]; try done.
    simpl. intros [Hw Hrest]. apply andb_true_iff. split; eauto.
  - intros (d & -> & Hl & Hseq). cbn [represents]. rewrite Hl.
    clear Hl. revert a d Hseq.
    induction IH as [|kj fields Hj _ IHl]; intros a [|kv d]; try done.
    simpl. intros [[Hk Hw] Hrest].
    rewrite !andb_true_iff. split; [split|]; eauto.
    by apply bool_decide_eq_true.
Qed.

Lemma laid_items_agree (items : list json) :
  ∀ h h2 a vs,
    agree a (a + sum_list (cells <$> items)) h h2 →
    laid_items h a items vs → laid_items h2 a items vs.
Proof.
  induction items as [|j items IH]; intros h h2 a [|v vs]; try done.
  csimpl. intros Hag [Hw Hrest]. split.
  - eapply laid_out_agree; [|done]. eapply agree_weaken; [| |done]; lia.
  - eapply IH; [|done]. eapply agree_weaken; [| |done]; lia.
Qed.

(** *** Stepping through computations *)

Lemma M_bind_Ok {A B} (m : M A) (f : A → M B) (h h' : heap) (a : A) :
  m h = Ok (a, h') → (m ≫= f) h = f a h'.
Proof. unfold mbind, M_bind. by intros ->. Qed.

Lemma M_bind_Raise {A B} (m : M A) (f : A → M B) (h : heap) (e : exn) :
  m h = Raise e → (m ≫= f) h = Raise e.
Proof. unfold mbind, M_bind. by intros ->. Qed.

Lemma M_bind_inv {A B} (m : M A) (f : A → M B) (h h2 : heap) (b : B) :
  (m ≫= f) h = Ok (b, h2) →
  ∃ a h1, m h = Ok (a, h1) ∧ f a h1 = Ok (b, h2).
Proof.
  unfold mbind, M_bind. destruct (m h) as [[a h1]|e]; [|done].
  intros Hf. by exists a, h1.
Qed.

(** [json.load] lays the document out at the end of the store. *)
Definition loads_at (j : json) (h : heap) : Prop :=
  ∃ new v, load_value j h = Ok (v, h ++ new)
           ∧ length new = cells j
           ∧ laid_out (h ++ new) (length h) j v.

Lemma load_items_laid (items : list json) :
  Forall (λ j, ∀ h, loads_at j h) items →
  ∀ h, ∃ new vs,
    mapM_M load_value items h = Ok (vs, h ++ new)
    ∧ length new = sum_list (cells <$> items)
    ∧ laid_items (h ++ new) (length h) items vs.
Proof.
  induction 1 as [|j items Hj _ IH]; intros h.
  - exists [], []. by rewrite app_nil_r.
  - destruct (Hj h) as (n1 & v & Hload & Hlen1 & Hlaid).
    destruct (IH (h ++ n1)) as (n2 & vs & Hrest & Hlen2 & Hlaids).
    exists (n1 ++ n2), (v :: vs). cbn [mapM_M].
    rewrite (M_bind_Ok _ _ _ _ _ Hload), (M_bind_Ok _ _ _ _ _ Hrest).
    rewrite app_assoc. split; [done|].
    split; [rewrite length_app; csimpl; lia|].
    split.
    + eapply laid_out_agree; [|done].
      apply agree_app. rewrite length_app. lia.
    + rewrite length_app, Hlen1 in Hlaids. done.
Qed.

Lemma load_fields_laid (fields : list (pystr * json)) :
  Forall (λ kj, ∀ h, loads_at kj.2 h) fields →
  ∀ h, ∃ new d,
    mapM_M (λ kj, v ← load_value kj.2; mret (kj.1, v)) fields h
      = Ok (d, h ++ new)
    ∧ length new = sum_list ((λ kj, cells kj.2) <$> fields)
    ∧ laid_fields (h ++ new) (length h) fields d.
Proof.
  induction 1 as [|kj fields Hj _ IH]; intros h.
  - exists [], []. by rewrite app_nil_r.
  - destruct (Hj h) as (n1 & v & Hload & Hlen1 & Hlaid).
    destruct (IH (h ++ n1)) as (n2 & d & Hrest & Hlen2 & Hlaids).
    exists (n1 ++ n2), ((kj.1, v) :: d). cbn [mapM_M].
    rewrite (M_bind_Ok _ _ _ (h ++ n1) (kj.1, v)); last first.
    { by rewrite (M_bind_Ok _ _ _ _ _ Hload). }
    rewrite (M_bind_Ok _ _ _ _ _ Hrest).
    rewrite app_assoc. split; [done|].
    split; [rewrite length_app; csimpl; lia|].
    split; [split; [done|]|].
    + eapply laid_out_agree; [|done].
      apply agree_app. rewrite length_app. lia.
    + rewrite length_app, Hlen1 in Hlaids. done.
Qed.

Lemma load_value_laid (j : json) (h : heap) : loads_at j h.
Proof.
  revert h.
  induction j as [| b | z | s | items IH | fields IH] using json_induction;
    intros h; unfold loads_at.
  - exists [], VNone. by rewrite app_nil_r.
  - exists [], (VBool b). by rewrite app_nil_r.
  - exists [], (VInt z). by rewrite app_nil_r.
  - exists [], (VStr s). by rewrite app_nil_r.
  - destruct (load_items_laid items IH h) as (new & vs & Hload & Hlen & Hl).
    exists (new ++ [OList vs]), (VRef (length (h ++ new))).
    cbn [load_value]. rewrite (M_bind_Ok _ _ _ _ _ Hload).
    unfold alloc. rewrite app_assoc. split; [done|].
    split; [rewrite length_app; simpl; lia|].
    cbn [laid_out]. exists vs. rewrite length_app, Hlen.
    split; [done|]. split.
    + rewrite lookup_app_r by (rewrite length_app; lia).
      rewrite length_app, Hlen, Nat.sub_diag. done.
    + eapply laid_items_agree; [|done].
      apply agree_app. rewrite length_app. lia.
  - destruct (load_fields_laid fields IH h) as (new & d & Hload & Hlen & Hl).
    exists (new ++ [ODict d]), (VRef (length (h ++ new))).
    cbn [load_value]. rewrite (M_bind_Ok _ _ _ _ _ Hload).
    unfold alloc. rewrite app_assoc. split; [done|].
    split; [rewrite length_app; simpl; lia|].
    cbn [laid_out]. exists d. rewrite length_app, Hlen.
    split; [done|]. split.
    + rewrite lookup_app_r by (rewrite length_app; lia).
      rewrite length_app, Hlen, Nat.sub_diag. done.
    + eapply laid_fields_agree; [|done].
      apply agree_app. rewrite length_app. lia.
Qed.

(** *** Dicts *)

Section dict.
Context {V : Type}.
Implicit Types (d : list (pystr * V)) (k : pystr) (v : V).

Lemma dict_get_set_eq d k v : dict_get k (dict_set k v d) = Some v.
Proof.
  induction d as [|[k' v'] d IH]; simpl.
  - by rewrite decide_True.
  - destruct (decide (k' = k)) as [->|Hne]; simpl.
    + by rewrite decide_True.
    + by rewrite decide_False.
Qed.

Lemma dict_get_set_ne d k k' v :
  k ≠ k' → dict_get k' (dict_set k v d) = dict_get k' d.
Proof.
  intros Hne. induction d as [|[k2 v2] d IH]; simpl.
  - by rewrite decide_False.
  - destruct (decide (k2 = k)) as [->|Hne2]; simpl.
    + by rewrite !decide_False.
    + destruct (decide (k2 = k')); [done | apply IH].
Qed.

Lemma dict_set_absent d k v :
  dict_get k d = None → dict_set k v d = d ++ [(k, v)].
Proof.
  induction d as [|[k' v'] d IH]; simpl; [done|].
  destruct (decide (k' = k)); [done|]. intros ?. f_equal. by apply IH.
Qed.

Lemma dict_set_keys_present d k v :
  is_Some (dict_get k d) → (dict_set k v d).*1 = d.*1.
Proof.
  induction d as [|[k' v'] d IH]; simpl; [by intros [? [=]]|].
  destruct (decide (k' = k)); [done|]. intros ?. csimpl. f_equal. by apply IH.
Qed.
End dict.

(** *** Operations on a dict or a list of the store *)

Lemma copy_method_dict (h : heap) (l : loc) d :
  h !! l = Some (ODict d) →
  copy_method (VRef l) h = Ok (VRef (length h), h ++ [ODict d]).
Proof.
  intros Hl. unfold copy_method, inspect, mbind, M_bind, view_of.
  by rewrite Hl.
Qed.

Lemma get_method_dict (h : heap) (l : loc) d k :
  h !! l = Some (ODict d) →
  get_method (VRef l) k h
  = Ok (default (VRef (length h)) (dict_get k d), h ++ [ODict []]).
Proof.
  intros Hl. unfold get_method, inspect, mbind, M_bind, view_of.
  by rewrite Hl.
Qed.

Lemma contains_dict (h : heap) (l : loc) d k :
  h !! l = Some (ODict d) →
  contains k (VRef l) h = Ok (bool_decide (is_Some (dict_get k d)), h).
Proof.
  intros Hl. unfold contains, inspect, mbind, M_bind, view_of.
  by rewrite Hl.
Qed.

Lemma getitem_dict (h : heap) (l : loc) d k x :
  h !! l = Some (ODict d) → dict_get k d = Some x →
  getitem (VRef l) k h = Ok (x, h).
Proof.
  intros Hl Hk. unfold getitem, inspect, mbind, M_bind, view_of.
  by rewrite Hl, Hk.
Qed.

Lemma setitem_dict (h : heap) (l : loc) d k x :
  h !! l = Some (ODict d) →
  setitem (VRef l) k x h = Ok ((), <[l := ODict (dict_set k x d)]> h).
Proof.
  intros Hl. unfold setitem, inspect, mbind, M_bind, view_of.
  by rewrite Hl.
Qed.

Lemma py_iter_list (h : heap) (l : loc) items :
  h !! l = Some (OList items) → py_iter (VRef l) h = Ok (items, h).
Proof.
  intros Hl. unfold py_iter, inspect, mbind, M_bind, view_of.
  by rewrite Hl.
Qed.

(** *** The deduplication loop under a change of items *)

Lemma fresh_items_fmap {A B K K'} `{Countable K, Countable K'}
    (key : A → K) (key' : B → K') (g : A → B)
    (l : list A) (seen : gset K) (seen' : gset K') :
  (∀ x y, key' (g x) = key' (g y) ↔ key x = key y) →
  (∀ x, x ∈ l → key' (g x) ∈ seen' ↔ key x ∈ seen) →
  Dedup.fresh_items key' seen' (g <$> l) = g <$> Dedup.fresh_items key seen l.
Proof.
  intros Hinj. revert seen seen'.
  induction l as [|x l IH]; intros seen seen' Hseen; [done|].
  csimpl. destruct (decide (key x ∈ seen)) as [Hin|Hout].
  - rewrite decide_True by (apply Hseen; [by left | done]).
    apply IH. intros y Hy. apply Hseen. by right.
  - rewrite decide_False by (rewrite Hseen; [done | by left]).
    csimpl. f_equal. apply IH. intros y Hy.
    rewrite !elem_of_union, !elem_of_singleton, Hinj.
    rewrite (Hseen y) by (by right). done.
Qed.

Lemma merge_loop_fmap {A B K K'} `{Countable K, Countable K'}
    (key : A → K) (key' : B → K') (g : A → B) (lists : list (list A)) :
  (∀ x y, key' (g x) = key' (g y) ↔ key x = key y) →
  Dedup.merge_loop key' ((λ l : list A, g <$> l) <$> lists)
  = g <$> Dedup.merge_loop key lists.
Proof.
  intros Hinj. rewrite !Dedup.merge_loop_fresh.
  replace (concat ((λ l : list A, g <$> l) <$> lists))
    with (g <$> concat lists).
  - apply fresh_items_fmap; [done | set_solver].
  - induction lists as [|l lists IH]; [done|].
    csimpl. by rewrite fmap_app, IH.
Qed.

(** *** Permission documents *)

Definition is_string (j : json) : bool :=
  match j with JStr _ => true | _ => false end.

Definition string_array (j : json) : bool :=
  match j with JArr items => forallb is_string items | _ => false end.

(** An optional field that, when present, is an array of strings. *)
Definition optional_string_array (k : pystr) (fields : list (pystr * json))
  : bool :=
  match dict_get k fields with Some x => string_array x | None => true end.

Definition permissions_mapping (pj : json) : bool :=
  match pj with
  | JObj pf =>
      bool_decide (NoDup pf.*1)
      && optional_string_array k_allow pf
      && optional_string_array k_deny pf
  | _ => false
  end.

(** The shape of a settings file: a mapping with distinct keys whose
    optional ["permissions"] is a mapping with optional ["allow"] and
    ["deny"] arrays of strings; the other fields are arbitrary. *)
Definition permission_document (d : json) : bool :=
  match d with
  | JObj fields =>
      bool_decide (NoDup fields.*1)
      && match dict_get k_permissions fields with
         | Some pj => permissions_mapping pj
         | None => true
         end
  | _ => false
  end.

(** [x] is a list object of the store holding the strings [l]. *)
Definition string_list_at (h : heap) (x : value) (l : list pystr) : Prop :=
  ∃ lx, x = VRef lx ∧ h !! lx = Some (OList (VStr <$> l)).

Lemma string_list_at_app (h e : heap) x l :
  string_list_at h x l → string_list_at (h ++ e) x l.
Proof.
  intros (lx & -> & Hl). exists lx. split; [done|].
  rewrite lookup_app_l; [done|]. by eapply lookup_lt_Some.
Qed.

Lemma string_list_at_insert_dict (h : heap) (q : loc) d d' x l :
  h !! q = Some (ODict d) →
  string_list_at h x l → string_list_at (<[q := ODict d']> h) x l.
Proof.
  intros Hq (lx & -> & Hl). exists lx. split; [done|].
  rewrite list_lookup_insert_ne; [done|]. intros ->. congruence.
Qed.

Definition field_rep (h : heap) (kj : pystr * json) (kv : pystr * value)
  : bool :=
  bool_decide (kj.1 = kv.1) && represents h kj.2 kv.2.

Lemma represents_obj (h : heap) fields v :
  represents h (JObj fields) v = true →
  ∃ l d, v = VRef l ∧ h !! l = Some (ODict d)
         ∧ all2 (field_rep h) fields d = true.
Proof.
  destruct v as [| | | |l]; try done. simpl.
  destruct (h !! l) as [[d|]|] eqn:Hl; try done.
  intros Hall. by exists l, d.
Qed.

Lemma all2_fields_get (h : heap) k fields d :
  all2 (field_rep h) fields d = true →
  match dict_get k fields with
  | None => dict_get k d = None
  | Some j => ∃ v, dict_get k d = Some v ∧ represents h j v = true
  end.
Proof.
  revert d. induction fields as [|[k1 j1] fields IH]; intros [|[k2 v2] d];
    try done.
  simpl. unfold field_rep at 1. simpl.
  intros [[->%bool_decide_eq_true Hrep]%andb_true_iff Hall]%andb_true_iff.
  destruct (decide (k2 = k)); [by exists v2 | by apply IH].
Qed.

Lemma represents_string_array (h : heap) j x :
  string_array j = true → represents h j x = true →
  ∃ l, json_strings j = Some l ∧ string_list_at h x l.
Proof.
  destruct j as [| | | |items|]; try done.
  destruct x as [| | | |lx]; try done. simpl.
  destruct (h !! lx) as [[|vs]|] eqn:Hl; try done.
  intros Hstr Hall.
  cut (∃ l, mapM json_string items = Some l ∧ vs = VStr <$> l).
  { intros (l & Hl1 & ->). exists l. split; [done|]. by exists lx. }
  clear Hl. revert vs Hall.
  induction items as [|j items IH]; intros [|v vs]; try done.
  - by exists [].
  - simpl in *. apply andb_true_iff in Hstr as [Hj Hstr].
    intros [Hv Hall]%andb_true_iff.
    destruct (IH Hstr vs Hall) as (l & Hl1 & ->).
    destruct j as [| | |s| |]; try done.
    destruct v as [| | |s'|]; try done.
    apply bool_decide_eq_true in Hv as <-.
    exists (s :: l). split; [|done].
    change (mapM json_string (JStr s :: items))
      with (x ← json_string (JStr s); k ← mapM json_string items;
            mret (x :: k)).
    simpl. by rewrite Hl1.
Qed.

(** Reading one optional list of a ["permissions"] mapping:
    [if k in permissions: lists.append(permissions[k])]. *)
Lemma read_optional_list (h h1 : heap) (p : loc) pf pd k
    (acc : list value) :
  h1 !! p = Some (ODict pd) →
  all2 (field_rep h) pf pd = true →
  optional_string_array k pf = true →
  ∃ (b : bool) ox,
    contains k (VRef p) h1 = Ok (b, h1)
    ∧ (if b then x ← getitem (VRef p) k; mret (acc ++ [x]) else mret acc) h1
      = Ok (acc ++ option_list ox, h1)
    ∧ match dict_get k pf ≫= json_strings with
      | Some l => ∃ x, ox = Some x ∧ string_list_at h x l
      | None => ox = None
      end.
Proof.
  intros Hp Hall Hopt. rewrite (contains_dict _ _ _ _ Hp).
  pose proof (all2_fields_get h k pf pd Hall) as Hget.
  unfold optional_string_array in Hopt.
  destruct (dict_get k pf) as [j|] eqn:Hj.
  - destruct Hget as (x & Hx & Hrep).
    destruct (represents_string_array h j x Hopt Hrep) as (l & Hl & Hat).
    exists true, (Some x). rewrite Hx. split; [by rewrite bool_decide_eq_true_2|].
    split.
    + by rewrite (M_bind_Ok _ _ _ _ _ (getitem_dict _ _ _ _ _ Hp Hx)).
    + simpl. rewrite Hl. by exists x.
  - exists false, None. rewrite Hget.
    split; [by rewrite bool_decide_eq_false_2 by (by intros [? [=]])|].
    split; [by rewrite app_nil_r | done].
Qed.

(** What a loaded document contributes to one of the two lists. *)
Definition field_at (h : heap) (d : json) (k : pystr) (ox : option value)
  : Prop :=
  match permission_list k d with
  | Some l => ∃ x, ox = Some x ∧ string_list_at h x l
  | None => ox = None
  end.

(** One turn of the loop over the loaded documents. *)
Lemma collect_spec (h : heap) (d : json) (v : value)
    (acc : list value * list value) :
  represents h d v = true → permission_document d = true →
  ∃ xa xd,
    collect acc v h
    = Ok ((acc.1 ++ option_list xa, acc.2 ++ option_list xd),
          h ++ [ODict []])
    ∧ field_at h d k_allow xa ∧ field_at h d k_deny xd.
Proof.
  intros Hrep Hshape. destruct d as [| | | | |fields]; try done.
  apply represents_obj in Hrep as (l & dv & -> & Hl & Hall).
  unfold collect. rewrite (M_bind_Ok _ _ _ _ _ (get_method_dict _ _ _ _ Hl)).
  pose proof (all2_fields_get h k_permissions fields dv Hall) as Hget.
  simpl in Hshape. apply andb_true_iff in Hshape as [_ Hshape].
  unfold field_at, permission_list. cbn [json_get].
  destruct (dict_get k_permissions fields) as [pj|] eqn:Hpj.
  - destruct Hget as (pv & -> & Hprep). cbn [default].
    destruct pj as [| | | | |pf]; try done.
    apply represents_obj in Hprep as (p & pd & -> & Hp & Hpall).
    simpl in Hshape.
    apply andb_true_iff in Hshape as [[_ Hallow]%andb_true_iff Hdeny].
    assert (Hp1 : (h ++ [ODict []]) !! p = Some (ODict pd)).
    { rewrite lookup_app_l; [done|]. by eapply lookup_lt_Some. }
    destruct (read_optional_list h _ p pf pd k_allow acc.1 Hp1 Hpall Hallow)
      as (ba & xa & Hca & Hia & Hfa).
    destruct (read_optional_list h _ p pf pd k_deny acc.2 Hp1 Hpall Hdeny)
      as (bd & xd & Hcd & Hid & Hfd).
    exists xa, xd.
    rewrite (M_bind_Ok _ _ _ _ _ Hca), (M_bind_Ok _ _ _ _ _ Hia).
    rewrite (M_bind_Ok _ _ _ _ _ Hcd), (M_bind_Ok _ _ _ _ _ Hid).
    done.
  - rewrite Hget. cbn [default]. exists None, None.
    assert (Hp1 : (h ++ [ODict []]) !! length h = Some (ODict [])).
    { rewrite lookup_app_r, Nat.sub_diag; done. }
    rewrite (M_bind_Ok _ _ _ _ _ (contains_dict _ _ _ k_allow Hp1)).
    rewrite bool_decide_eq_false_2 by (by intros [? [=]]).
    rewrite (M_bind_Ok _ _ _ (h ++ [ODict []]) acc.1) by done.
    rewrite (M_bind_Ok _ _ _ _ _ (contains_dict _ _ _ k_deny Hp1)).
    rewrite bool_decide_eq_false_2 by (by intros [? [=]]).
    rewrite (M_bind_Ok _ _ _ (h ++ [ODict []]) acc.2) by done.
    by rewrite !app_nil_r.
Qed.

(** A document that stays represented however the store grows. *)
Definition stable (h : heap) (d : json) (v : value) : Prop :=
  ∀ e, represents (h ++ e) d v = true.

Lemma stable_app (h e : heap) d v : stable h d v → stable (h ++ e) d v.
Proof. intros Hs e'. rewrite <- app_assoc. apply Hs. Qed.

Lemma field_at_app (h e : heap) d k ox :
  field_at h d k ox → field_at (h ++ e) d k ox.
Proof.
  unfold field_at. destruct (permission_list k d); [|done].
  intros (x & -> & Hx). exists x. split; [done|]. by apply string_list_at_app.
Qed.

(** The lists that the documents define, in order. *)
Definition defined_lists (k : pystr) (ds : list json) : list (list pystr) :=
  omap (permission_list k) ds.

(** The whole loop over the loaded documents. *)
Lemma collect_all (ds : list json) :
  ∀ (vs : list value) (h : heap) (acc : list value * list value),
    Forall2 (stable h) ds vs →
    Forall (λ d, permission_document d = true) ds →
    ∃ xas xds,
      let h' := h ++ replicate (length vs) (ODict []) in
      foldM_M collect acc vs h = Ok ((acc.1 ++ xas, acc.2 ++ xds), h')
      ∧ Forall2 (λ l x, string_list_at h' x l) (defined_lists k_allow ds) xas
      ∧ Forall2 (λ l x, string_list_at h' x l) (defined_lists k_deny ds) xds.
Proof.
  induction ds as [|d ds IH]; intros vs h [al dl] Hst Hshape.
  - apply Forall2_nil_inv_l in Hst as ->. exists [], []. simpl.
    rewrite !app_nil_r. by repeat split; constructor.
  - apply Forall2_cons_inv_l in Hst as (v & vs' & Hv & Hvs & ->).
    apply Forall_cons in Hshape as [Hd Hds].
    pose proof (Hv []) as Hrep. rewrite app_nil_r in Hrep.
    destruct (collect_spec h d v (al, dl) Hrep Hd)
      as (xa & xd & Hc & Hfa & Hfd).
    cbn [fst snd] in Hc.
    destruct (IH vs' (h ++ [ODict []])
                (al ++ option_list xa, dl ++ option_list xd))
      as (xas & xds & Hfold & Has & Hds').
    { eapply Forall2_impl; [done|]. intros ???. by apply stable_app. }
    { done. }
    exists (option_list xa ++ xas), (option_list xd ++ xds).
    cbn [foldM_M length replicate].
    rewrite (M_bind_Ok _ _ _ _ _ Hc). cbn zeta in Hfold. rewrite Hfold.
    cbn [fst snd]. rewrite <- !app_assoc.
    change (h ++ ODict [] :: replicate (length vs') (ODict []))
      with (h ++ [ODict []] ++ replicate (length vs') (ODict [])).
    split; [done|].
    unfold defined_lists in *. cbn [omap list_omap].
    apply (field_at_app _ ([ODict []] ++ replicate (length vs') (ODict [])))
      in Hfa, Hfd.
    unfold field_at in Hfa, Hfd. rewrite !app_assoc in *. split.
    + destruct (permission_list k_allow d).
      * destruct Hfa as (x & -> & Hx). by constructor.
      * by subst xa.
    + destruct (permission_list k_deny d).
      * destruct Hfd as (x & -> & Hx). by constructor.
      * by subst xd.
Qed.

(** *** The merged lists *)

Lemma hashed_strings (l : list pystr) (h : heap) :
  mapM_M hashed (VStr <$> l) h = Ok ((λ s, (KStr s, VStr s)) <$> l, h).
Proof.
  induction l as [|s l IH]; [done|].
  csimpl. rewrite (M_bind_Ok _ _ _ h (KStr s, VStr s)) by done.
  by rewrite (M_bind_Ok _ _ _ _ _ IH).
Qed.

Lemma iterate_string_lists (h : heap) (ls : list (list pystr))
    (xs : list value) :
  Forall2 (λ l x, string_list_at h x l) ls xs →
  mapM_M (λ permission_list,
            items ← py_iter permission_list; mapM_M hashed items) xs h
  = Ok ((λ l : list pystr, (λ s, (KStr s, VStr s)) <$> l) <$> ls, h).
Proof.
  induction 1 as [|l x ls xs (lx & -> & Hl) _ IH]; [done|].
  csimpl.
  rewrite (M_bind_Ok _ _ _ h ((λ s, (KStr s, VStr s)) <$> l)); last first.
  { rewrite (M_bind_Ok _ _ _ _ _ (py_iter_list _ _ _ Hl)).
    apply hashed_strings. }
  by rewrite (M_bind_Ok _ _ _ _ _ IH).
Qed.

(** On lists of strings the run-time function computes
    [merge_permission_lists] and returns it in a new list object. *)
Lemma merge_permission_lists_dyn_strings (h : heap)
    (ls : list (list pystr)) (xs : list value) :
  Forall2 (λ l x, string_list_at h x l) ls xs →
  merge_permission_lists_dyn xs h
  = Ok (VRef (length h), h ++ [OList (VStr <$> merge_permission_lists ls)]).
Proof.
  intros Hxs. unfold merge_permission_lists_dyn.
  rewrite (M_bind_Ok _ _ _ _ _ (iterate_string_lists _ _ _ Hxs)).
  unfold alloc, merge_permission_lists. do 3 f_equal.
  rewrite (merge_loop_fmap id fst (λ s, (KStr s, VStr s))).
  - rewrite <- list_fmap_compose. done.
  - intros x y. simpl. split; [by intros [= ->] | by intros ->].
Qed.

(** The two assignments, when ["permissions"] of [merged] is the dict at
    [p]. *)
Lemma assign_lists_spec (h : heap) (m p : loc) dvm pd
    (lsa lsd : list (list pystr)) (xas xds : list value) :
  h !! m = Some (ODict dvm) →
  dict_get k_permissions dvm = Some (VRef p) →
  h !! p = Some (ODict pd) →
  m ≠ p →
  Forall2 (λ l x, string_list_at h x l) lsa xas →
  Forall2 (λ l x, string_list_at h x l) lsd xds →
  ∃ h',
    assign_lists (VRef m) (xas, xds) h = Ok (VRef m, h')
    ∧ length h' = length h + 2
    ∧ (∀ l, l < length h → l ≠ p → h' !! l = h !! l)
    ∧ h' !! p
      = Some (ODict (dict_set k_deny (VRef (S (length h)))
                       (dict_set k_allow (VRef (length h)) pd)))
    ∧ h' !! length h = Some (OList (VStr <$> merge_permission_lists lsa))
    ∧ h' !! S (length h)
      = Some (OList (VStr <$> merge_permission_lists lsd)).
Proof.
  intros Hm Hperm Hp Hmp Hxa Hxd.
  pose proof (lookup_lt_Some _ _ _ Hm) as Hmlt.
  pose proof (lookup_lt_Some _ _ _ Hp) as Hplt.
  set (A := OList (VStr <$> merge_permission_lists lsa)).
  set (D := OList (VStr <$> merge_permission_lists lsd)).
  set (h4 := h ++ [A]).
  set (pd1 := dict_set k_allow (VRef (length h)) pd).
  set (h5 := <[p := ODict pd1]> h4).
  set (h6 := h5 ++ [D]).
  set (pd2 := dict_set k_deny (VRef (S (length h))) pd1).
  exists (<[p := ODict pd2]> h6).
  assert (Hm4 : h4 !! m = Some (ODict dvm)) by by apply lookup_app_l_Some.
  assert (Hp4 : h4 !! p = Some (ODict pd)) by by apply lookup_app_l_Some.
  assert (Hlen5 : length h5 = S (length h)).
  { unfold h5, h4. rewrite length_insert, length_app. simpl. lia. }
  assert (Hm6 : h6 !! m = Some (ODict dvm)).
  { apply lookup_app_l_Some. unfold h5.
    by rewrite list_lookup_insert_ne. }
  assert (Hp6 : h6 !! p = Some (ODict pd1)).
  { apply lookup_app_l_Some. unfold h5.
    apply list_lookup_insert_eq. unfold h4. rewrite length_app. lia. }
  split.
  - unfold assign_lists. cbn [fst snd].
    rewrite (M_bind_Ok _ _ _ _ _
               (merge_permission_lists_dyn_strings _ _ _ Hxa)).
    fold A h4.
    rewrite (M_bind_Ok _ _ _ _ _ (getitem_dict _ _ _ _ _ Hm4 Hperm)).
    rewrite (M_bind_Ok _ _ _ _ _ (setitem_dict _ _ _ k_allow _ Hp4)).
    fold pd1 h5.
    rewrite (M_bind_Ok _ _ _ h6 (VRef (S (length h)))); last first.
    { rewrite (merge_permission_lists_dyn_strings h5 lsd xds).
      - by rewrite Hlen5.
      - eapply Forall2_impl; [done|]. intros l x Hx. unfold h5.
        eapply string_list_at_insert_dict; [done|].
        by apply string_list_at_app. }
    rewrite (M_bind_Ok _ _ _ _ _ (getitem_dict _ _ _ _ _ Hm6 Hperm)).
    by rewrite (M_bind_Ok _ _ _ _ _ (setitem_dict _ _ _ k_deny _ Hp6)).
  - assert (Hlen6 : length h6 = length h + 2).
    { unfold h6. rewrite length_app, Hlen5. simpl. lia. }
    split; [by rewrite length_insert|].
    split; [|split; [|split]].
    + intros l Hl Hlp. rewrite list_lookup_insert_ne by done.
      unfold h6. rewrite lookup_app_l by lia.
      unfold h5. rewrite list_lookup_insert_ne by done.
      unfold h4. by rewrite lookup_app_l.
    + apply list_lookup_insert_eq. lia.
    + rewrite list_lookup_insert_ne by lia.
      unfold h6. rewrite lookup_app_l by lia.
      unfold h5. rewrite list_lookup_insert_ne by lia.
      unfold h4. by rewrite lookup_app_r, Nat.sub_diag by lia.
    + rewrite list_lookup_insert_ne by lia.
      unfold h6. rewrite lookup_app_r by lia.
      by rewrite Hlen5, Nat.sub_diag.
Qed.

(** *** Fields of a laid-out mapping *)

Lemma all2_app {A B} (f : A → B → bool) (l1 l2 : list A) (k1 k2 : list B) :
  all2 f l1 k1 = true → all2 f l2 k2 = true →
  all2 f (l1 ++ l2) (k1 ++ k2) = true.
Proof.
  revert k1. induction l1 as [|x l1 IH]; intros [|y k1]; try done.
  simpl. intros [??]%andb_true_iff ?. apply andb_true_iff. auto.
Qed.

Lemma all2_dict_set (h : heap) k j v fields d :
  all2 (field_rep h) fields d = true → represents h j v = true →
  all2 (field_rep h) (dict_set k j fields) (dict_set k v d) = true.
Proof.
  intros Hall Hrep. revert d Hall.
  induction fields as [|[k1 j1] fields IH]; intros [|[k2 v2] d]; try done.
  - intros _. simpl. unfold field_rep. simpl.
    by rewrite bool_decide_eq_true_2, Hrep.
  - simpl. unfold field_rep at 1. simpl.
    intros [[->%bool_decide_eq_true Hr]%andb_true_iff Hall]%andb_true_iff.
    destruct (decide (k2 = k)) as [->|Hne]; simpl; unfold field_rep at 1;
      simpl; rewrite bool_decide_eq_true_2 by done; simpl.
    + by rewrite Hrep, Hall.
    + rewrite Hr. by apply IH.
Qed.

Lemma represents_strings (h : heap) (l : list pystr) (lx : loc) :
  h !! lx = Some (OList (VStr <$> l)) →
  represents h (JArr (JStr <$> l)) (VRef lx) = true.
Proof.
  intros Hl. cbn [represents]. rewrite Hl. clear Hl.
  induction l as [|s l IH]; [done|].
  csimpl. by rewrite bool_decide_eq_true_2, IH.
Qed.

Lemma laid_fields_rep (h : heap) (fields : list (pystr * json)) :
  ∀ a d, laid_fields h a fields d → all2 (field_rep h) fields d = true.
Proof.
  induction fields as [|kj fields IH]; intros a [|kv d]; try done.
  simpl. intros [[Hk Hlaid] Hrest]. unfold field_rep at 1.
  rewrite bool_decide_eq_true_2 by done.
  rewrite (laid_out_represents _ _ _ _ Hlaid). simpl. by eapply IH.
Qed.

(** The value of a field of a laid-out mapping, and what remains true
    of the mapping when only the objects of that field change. *)
Lemma laid_fields_get (h : heap) (k : pystr)
    (fields : list (pystr * json)) :
  ∀ a d pj,
    laid_fields h a fields d → dict_get k fields = Some pj →
    ∃ b pv,
      dict_get k d = Some pv ∧ laid_out h b pj pv
      ∧ a ≤ b
      ∧ b + cells pj ≤ a + sum_list ((λ kj, cells kj.2) <$> fields)
      ∧ ∀ h2 newj,
          agree a b h h2 →
          agree (b + cells pj)
            (a + sum_list ((λ kj, cells kj.2) <$> fields)) h h2 →
          represents h2 newj pv = true →
          all2 (field_rep h2) (dict_set k newj fields) d = true.
Proof.
  induction fields as [|[k1 j1] fields IH]; intros a [|[k2 v2] d] pj;
    try done.
  csimpl. intros [[<- Hlaid] Hrest].
  destruct (decide (k1 = k)) as [->|Hne].
  - intros [= ->]. exists a, v2. split; [done|]. split; [done|].
    split; [lia|]. split; [lia|].
    intros h2 newj _ Hag Hrep. simpl. unfold field_rep at 1. simpl.
    rewrite bool_decide_eq_true_2, Hrep by done. simpl.
    eapply laid_fields_rep, laid_fields_agree; [|exact Hrest].
    eapply agree_weaken; [| |exact Hag]; lia.
  - intros Hget.
    destruct (IH _ _ _ Hrest Hget) as (b & pv & Hd & Hpv & Hab & Hbe & Hk).
    exists b, pv. split; [done|]. split; [done|].
    split; [lia|]. split; [lia|].
    intros h2 newj Hag1 Hag2 Hrep. simpl. unfold field_rep at 1. simpl.
    rewrite bool_decide_eq_true_2 by done. simpl.
    apply andb_true_iff. split.
    + eapply laid_out_represents, laid_out_agree; [|exact Hlaid].
      eapply agree_weaken; [| |exact Hag1]; lia.
    + apply Hk; [| |done].
      * eapply agree_weaken; [| |exact Hag1]; lia.
      * eapply agree_weaken; [| |exact Hag2]; lia.
Qed.

Lemma laid_items_stable (ds : list json) :
  ∀ h a vs, laid_items h a ds vs →
    a + sum_list (cells <$> ds) ≤ length h →
    Forall2 (stable h) ds vs.
Proof.
  induction ds as [|d ds IH]; intros h a [|v vs]; try done.
  all: try (intros _ _; constructor; fail).
  csimpl. intros [Hd Hds] Hlen. constructor.
  - intros e. eapply laid_out_represents, laid_out_agree; [|exact Hd].
    apply agree_app. lia.
  - eapply IH; [exact Hds|]. lia.
Qed.

Lemma laid_items_rep (ds : list json) :
  ∀ h h2 a vs, laid_items h a ds vs →
    agree a (a + sum_list (cells <$> ds)) h h2 →
    Forall2 (λ d v, represents h2 d v = true) ds vs.
Proof.
  induction ds as [|d ds IH]; intros h h2 a [|v vs]; try done.
  all: try (intros _ _; constructor; fail).
  csimpl. intros [Hd Hds] Hag. constructor.
  - eapply laid_out_represents, laid_out_agree; [|exact Hd].
    eapply agree_weaken; [| |exact Hag]; lia.
  - eapply IH; [exact Hds|]. eapply agree_weaken; [| |exact Hag]; lia.
Qed.

(** *** The merged document, in the words of the specification *)

(** The fields of the first document. *)
Definition first_fields (ds : list json) : list (pystr * json) :=
  match ds with JObj fields :: _ => fields | _ => [] end.

(** The fields of the first document's ["permissions"], none when it has
    no such mapping. *)
Definition first_permissions (ds : list json) : list (pystr * json) :=
  match dict_get k_permissions (first_fields ds) with
  | Some (JObj pf) => pf
  | _ => []
  end.

(** The deduplicator applied to the lists of the documents that define
    one. *)
Definition merged_list (k : pystr) (ds : list json) : list pystr :=
  merge_permission_lists (defined_lists k ds).

(** The first document with the two merged lists laid over its
    ["permissions"]. *)
Definition merged_document (ds : list json) : json :=
  JObj (dict_set k_permissions
          (JObj (dict_set k_deny (JArr (JStr <$> merged_list k_deny ds))
                   (dict_set k_allow
                      (JArr (JStr <$> merged_list k_allow ds))
                      (first_permissions ds))))
          (first_fields ds)).

(** The location of the ["permissions"] dict of a loaded document. *)
Definition permissions_of (h : heap) (v : value) : option loc :=
  match view_of h v with
  | IsDict _ d =>
      match dict_get k_permissions d with
      | Some (VRef p) => Some p
      | _ => None
      end
  | _ => None
  end.

(** *** The merge of loaded documents *)

Lemma merge_loaded_spec (d1 : json) (ds : list json) (v1 : value)
    (vs : list value) (h0 : heap) (a : nat) :
  laid_items h0 a (d1 :: ds) (v1 :: vs) →
  a + sum_list (cells <$> d1 :: ds) ≤ length h0 →
  Forall (λ d, permission_document d = true) (d1 :: ds) →
  ∃ h',
    merge_loaded (v1 :: vs) h0 = Ok (VRef (length h0), h')
    ∧ represents h' (merged_document (d1 :: ds)) (VRef (length h0)) = true
    ∧ length h0 ≤ length h'
    ∧ ∀ l, l < length h0 →
        h' !! l = h0 !! l
        ∨ (permissions_of h0 v1 = Some l ∧ a ≤ l < a + cells d1
           ∧ (∃ pd, h0 !! l = Some (ODict pd)) ∧ v1 ≠ VRef l).
Proof.
  intros Hlaid Hlen Hshape.
  pose proof (laid_items_stable _ _ _ _ Hlaid Hlen) as Hstable.
  change (laid_out h0 a d1 v1 ∧ laid_items h0 (a + cells d1) ds vs)
    in Hlaid.
  destruct Hlaid as [Hd1 Hrest].
  pose proof Hshape as [Hs1 _]%Forall_cons.
  destruct d1 as [| | | | |fields1]; try done.
  cbn [laid_out] in Hd1. destruct Hd1 as (dv1 & -> & Hl1 & Hf1).
  cbn [cells] in *.
  set (S1 := sum_list ((λ kj, cells kj.2) <$> fields1)) in *.
  assert (Hlen0 : a + (S S1 + sum_list (cells <$> ds)) ≤ length h0)
    by exact Hlen.
  clear Hlen.
  unfold merge_loaded.
  rewrite (M_bind_Ok _ _ _ _ _ (copy_method_dict _ _ _ Hl1)).
  set (h1 := h0 ++ [ODict dv1]).
  destruct (collect_all (JObj fields1 :: ds) (VRef (a + S1) :: vs) h1
              ([], [])) as (xas & xds & Hfold & Hxa & Hxd).
  { eapply Forall2_impl; [exact Hstable|]. intros ???. by apply stable_app. }
  { done. }
  cbn zeta in Hfold, Hxa, Hxd. cbn [fst snd app] in Hfold.
  set (h2 := h1 ++ replicate (length (VRef (a + S1) :: vs)) (ODict []))
    in *.
  rewrite (M_bind_Ok _ _ _ _ _ Hfold).
  assert (Hold : ∀ l, l < length h0 → h2 !! l = h0 !! l).
  { intros l Hl. unfold h2, h1. by rewrite <- app_assoc, lookup_app_l. }
  assert (Hm2 : h2 !! length h0 = Some (ODict dv1)).
  { unfold h2, h1. rewrite <- app_assoc.
    by rewrite lookup_app_r, Nat.sub_diag. }
  assert (Hlen2 : length h0 < length h2) by by eapply lookup_lt_Some.
  rewrite (M_bind_Ok _ _ _ _ _ (contains_dict _ _ _ k_permissions Hm2)).
  simpl in Hs1. apply andb_true_iff in Hs1 as [_ Hs1].
  unfold merged_document, first_permissions, first_fields.
  destruct (dict_get k_permissions fields1) as [pj|] eqn:Hpj.
  - (* the first document has a ["permissions"] mapping *)
    destruct (laid_fields_get h0 k_permissions fields1 a dv1 pj Hf1 Hpj)
      as (b & pv & Hdv & Hpv & Hab & Hbe & Hk).
    destruct pj as [| | | | |pf]; try done.
    cbn [laid_out] in Hpv. destruct Hpv as (pd & -> & Hp & Hpf).
    cbn [cells] in Hbe, Hk. fold S1 in Hbe, Hk.
    set (P1 := sum_list ((λ kj, cells kj.2) <$> pf)) in *.
    assert (Hp2 : h2 !! (b + P1) = Some (ODict pd)).
    { rewrite Hold; [done | lia]. }
    rewrite Hdv, bool_decide_eq_true_2 by eauto.
    rewrite (M_bind_Ok _ _ _ h2 ()) by done.
    destruct (assign_lists_spec h2 (length h0) (b + P1) dv1 pd
                _ _ xas xds Hm2 Hdv Hp2 ltac:(lia) Hxa Hxd)
      as (h' & Hrun & Hlen' & Hframe & Hp' & Ha' & Hd').
    assert (Hkeep : ∀ l, l < length h0 → l ≠ b + P1 → h' !! l = h0 !! l).
    { intros l Hl Hne. rewrite Hframe by lia. by apply Hold. }
    exists h'. split; [exact Hrun|]. split; [|split; [lia|]].
    + cbn [represents]. rewrite Hframe, Hm2 by lia.
      apply Hk.
      * intros l Hl. apply Hkeep; lia.
      * intros l Hl. apply Hkeep; lia.
      * cbn [represents]. rewrite Hp'.
        apply all2_dict_set; [apply all2_dict_set|].
        -- eapply laid_fields_rep, laid_fields_agree; [|exact Hpf].
           intros l Hl. apply Hkeep; lia.
        -- by apply represents_strings.
        -- by apply represents_strings.
    + intros l Hl. destruct (decide (l = b + P1)) as [->|Hne].
      * right. split; [|split; [lia|split; [by exists pd|]]].
        -- unfold permissions_of, view_of. by rewrite Hl1, Hdv.
        -- intros [= Heq]. lia.
      * left. by apply Hkeep.
  - (* no ["permissions"]: a new mapping is put in the copy *)
    pose proof (all2_fields_get h0 k_permissions fields1 dv1
                  (laid_fields_rep _ _ _ _ Hf1)) as Hdv.
    rewrite Hpj in Hdv. rewrite Hdv.
    rewrite bool_decide_eq_false_2 by (by intros [? [=]]).
    set (h3 := h2 ++ [ODict []]).
    set (dvm := dict_set k_permissions (VRef (length h2)) dv1).
    assert (Hm3 : h3 !! length h0 = Some (ODict dv1))
      by by apply lookup_app_l_Some.
    rewrite (M_bind_Ok _ _ _ (<[length h0 := ODict dvm]> h3) ());
      last first.
    { unfold alloc. rewrite (M_bind_Ok _ _ _ h3 (VRef (length h2))) by done.
      by rewrite (setitem_dict _ _ _ k_permissions _ Hm3). }
    set (h4 := <[length h0 := ODict dvm]> h3).
    assert (Hlen3 : length h3 = S (length h2)).
    { unfold h3. rewrite length_app. simpl. lia. }
    assert (Hm4 : h4 !! length h0 = Some (ODict dvm)).
    { apply list_lookup_insert_eq. lia. }
    assert (Hp4 : h4 !! length h2 = Some (ODict [])).
    { unfold h4. rewrite list_lookup_insert_ne by lia.
      unfold h3. by rewrite lookup_app_r, Nat.sub_diag. }
    assert (Hlist : ∀ l x, string_list_at h2 x l → string_list_at h4 x l).
    { intros l x Hx. eapply string_list_at_insert_dict; [exact Hm3|].
      by apply string_list_at_app. }
    destruct (assign_lists_spec h4 (length h0) (length h2) dvm []
                (defined_lists k_allow (JObj fields1 :: ds))
                (defined_lists k_deny (JObj fields1 :: ds))
                xas xds Hm4 (dict_get_set_eq _ _ _) Hp4 ltac:(lia))
      as (h' & Hrun & Hlen' & Hframe & Hp' & Ha' & Hd').
    { eapply Forall2_impl; [exact Hxa|]. apply Hlist. }
    { eapply Forall2_impl; [exact Hxd|]. apply Hlist. }
    assert (Hlen4 : length h4 = S (length h2)).
    { unfold h4. by rewrite length_insert. }
    assert (Hkeep : ∀ l, l < length h0 → h' !! l = h0 !! l).
    { intros l Hl. rewrite Hframe by lia.
      unfold h4. rewrite list_lookup_insert_ne by lia.
      unfold h3. rewrite lookup_app_l by lia. by apply Hold. }
    exists h'. split; [exact Hrun|]. split; [|split; [lia|]].
    + cbn [represents]. rewrite Hframe, Hm4 by lia.
      unfold dvm. rewrite !(dict_set_absent _ k_permissions) by done.
      apply all2_app.
      * eapply laid_fields_rep, laid_fields_agree; [|exact Hf1].
        intros l Hl. apply Hkeep. lia.
      * cbn [all2 fst snd].
        rewrite bool_decide_eq_true_2 by done.
        cbn [represents andb]. rewrite Hp', andb_true_r.
        apply all2_dict_set; [apply all2_dict_set; [done|]|];
          by apply represents_strings.
    + intros l Hl. left. by apply Hkeep.
Qed.

(** *** Loading the files *)

Lemma load_settings_laid (docs : gmap pystr file) (files : list pystr)
    (ds : list json) :
  Forall2 (λ f d, docs !! f = Some (Document d)) files ds →
  ∀ h, ∃ new vs,
    load_settings docs files h = Ok (vs, h ++ new)
    ∧ length new = sum_list (cells <$> ds)
    ∧ laid_items (h ++ new) (length h) ds vs.
Proof.
  unfold load_settings.
  induction 1 as [|f d files ds Hf _ IH]; intros h.
  - exists [], []. by rewrite app_nil_r.
  - destruct (load_value_laid d h) as (n1 & v & Hload & Hlen1 & Hlaid).
    destruct (IH (h ++ n1)) as (n2 & vs & Hrest & Hlen2 & Hlaids).
    exists (n1 ++ n2), (v :: vs). cbn [mapM_M].
    rewrite (M_bind_Ok _ _ _ (h ++ n1) v); last first.
    { unfold load_json_file. by rewrite Hf. }
    rewrite (M_bind_Ok _ _ _ _ _ Hrest).
    rewrite app_assoc. split; [done|].
    split; [rewrite length_app; csimpl; lia|].
    split.
    + eapply laid_out_agree; [|exact Hlaid].
      apply agree_app. rewrite length_app. lia.
    + rewrite length_app, Hlen1 in Hlaids. done.
Qed.

(** *** Reading the merged document *)

Lemma string_array_strings (l : list pystr) :
  string_array (JArr (JStr <$> l)) = true.
Proof. simpl. induction l; [done|]. by csimpl. Qed.

Lemma merged_document_other_field (d1 : json) (ds : list json) (k : pystr) :
  permission_document d1 = true → k ≠ k_permissions →
  json_get k (merged_document (d1 :: ds)) = json_get k d1.
Proof.
  intros Hshape Hk. destruct d1 as [| | | | |fields]; try done.
  unfold merged_document. cbn [json_get first_fields].
  by rewrite dict_get_set_ne.
Qed.

Lemma merged_document_permissions (ds : list json) :
  json_get k_permissions (merged_document ds)
  = Some (JObj (dict_set k_deny (JArr (JStr <$> merged_list k_deny ds))
                  (dict_set k_allow
                     (JArr (JStr <$> merged_list k_allow ds))
                     (first_permissions ds)))).
Proof. unfold merged_document. cbn [json_get]. apply dict_get_set_eq. Qed.

Lemma merged_document_other_permission (d1 : json) (ds : list json)
    (k : pystr) :
  permission_document d1 = true → k ≠ k_allow → k ≠ k_deny →
  (json_get k_permissions (merged_document (d1 :: ds)) ≫= json_get k)
  = (json_get k_permissions d1 ≫= json_get k).
Proof.
  intros Hshape Ha Hd. rewrite merged_document_permissions.
  cbn [mbind option_bind json_get].
  rewrite !dict_get_set_ne by done.
  destruct d1 as [| | | | |fields]; try done.
  unfold first_permissions. cbn [first_fields json_get].
  simpl in Hshape. apply andb_true_iff in Hshape as [_ Hshape].
  destruct (dict_get k_permissions fields) as [[| | | | |pf]|]; done.
Qed.

Lemma merged_document_allow (ds : list json) :
  permission_list k_allow (merged_document ds)
  = Some (merge_permission_lists (defined_lists k_allow ds)).
Proof.
  unfold permission_list. rewrite merged_document_permissions.
  cbn [mbind option_bind json_get].
  rewrite dict_get_set_ne by done. rewrite dict_get_set_eq.
  cbn [mbind option_bind]. apply json_strings_JStr.
Qed.

Lemma merged_document_deny (ds : list json) :
  permission_list k_deny (merged_document ds)
  = Some (merge_permission_lists (defined_lists k_deny ds)).
Proof.
  unfold permission_list. rewrite merged_document_permissions.
  cbn [mbind option_bind json_get]. rewrite dict_get_set_eq.
  cbn [mbind option_bind]. apply json_strings_JStr.
Qed.

(** *** No [ValueError] after the guard *)

(** A computation that never raises [ValueError]. *)
Definition quiet {A} (m : M A) : Prop :=
  ∀ h msg, m h ≠ Raise (ValueError msg).

Lemma quiet_ret {A} (a : A) : quiet (mret a).
Proof. by intros h msg. Qed.

Lemma quiet_bind {A B} (m : M A) (f : A → M B) :
  quiet m → (∀ a, quiet (f a)) → quiet (m ≫= f).
Proof.
  intros Hm Hf h msg. unfold mbind, M_bind.
  destruct (m h) as [[a h']|e] eqn:Hmh; [apply Hf|].
  intros [= ->]. by eapply Hm.
Qed.

Lemma quiet_mapM {A B} (f : A → M B) (l : list A) :
  (∀ x, quiet (f x)) → quiet (mapM_M f l).
Proof.
  intros Hf. induction l as [|x l IH]; [apply quiet_ret|].
  cbn [mapM_M]. apply quiet_bind; [apply Hf|]. intros y.
  apply quiet_bind; [apply IH|]. intros ys. apply quiet_ret.
Qed.

Lemma quiet_foldM {A B} (f : B → A → M B) (l : list A) (b : B) :
  (∀ b x, quiet (f b x)) → quiet (foldM_M f b l).
Proof.
  intros Hf. revert b. induction l as [|x l IH]; intros b;
    [apply quiet_ret|].
  cbn [foldM_M]. apply quiet_bind; [apply Hf | intros b'; apply IH].
Qed.

Ltac quiet_view :=
  apply quiet_bind; [by intros ?? | intros []; try by intros ??].

Lemma quiet_load_value (j : json) : quiet (load_value j).
Proof.
  induction j as [| | | | items IH | fields IH] using json_induction;
    try by intros ??.
  - cbn [load_value]. apply quiet_bind; [|by intros ???].
    induction IH as [|j items Hj _ IHl]; [apply quiet_ret|].
    cbn [mapM_M]. apply quiet_bind; [apply Hj|]. intros y.
    apply quiet_bind; [apply IHl|]. intros ys. apply quiet_ret.
  - cbn [load_value]. apply quiet_bind; [|by intros ???].
    induction IH as [|kj fields Hj _ IHl]; [apply quiet_ret|].
    cbn [mapM_M]. apply quiet_bind.
    { apply quiet_bind; [apply Hj | intros ?; apply quiet_ret]. }
    intros y. apply quiet_bind; [apply IHl|]. intros ys. apply quiet_ret.
Qed.

Lemma quiet_load_json_file docs f : quiet (load_json_file docs f).
Proof.
  unfold load_json_file.
  destruct (docs !! f) as [[| |j]|]; try by intros ??.
  apply quiet_load_value.
Qed.

Lemma quiet_copy_method v : quiet (copy_method v).
Proof. unfold copy_method. quiet_view. Qed.

Lemma quiet_get_method v k : quiet (get_method v k).
Proof. unfold get_method. quiet_view. Qed.

Lemma quiet_contains k v : quiet (contains k v).
Proof. unfold contains. quiet_view. Qed.

Lemma quiet_getitem v k : quiet (getitem v k).
Proof.
  unfold getitem. quiet_view. by destruct (dict_get k d); intros ??.
Qed.

Lemma quiet_setitem v k x : quiet (setitem v k x).
Proof. unfold setitem. quiet_view. Qed.

Lemma quiet_py_iter v : quiet (py_iter v).
Proof. unfold py_iter. quiet_view. Qed.

Lemma quiet_hashed v : quiet (hashed v).
Proof. unfold hashed. by destruct (py_hash v); intros ??. Qed.

Lemma quiet_merge_permission_lists_dyn lists :
  quiet (merge_permission_lists_dyn lists).
Proof.
  unfold merge_permission_lists_dyn. apply quiet_bind; [|by intros ???].
  apply quiet_mapM. intros x. apply quiet_bind; [apply quiet_py_iter|].
  intros items. apply quiet_mapM, quiet_hashed.
Qed.

Lemma quiet_collect acc v : quiet (collect acc v).
Proof.
  unfold collect. apply quiet_bind; [apply quiet_get_method|]. intros p.
  apply quiet_bind; [apply quiet_contains|]. intros ba.
  apply quiet_bind.
  { destruct ba; [|apply quiet_ret].
    apply quiet_bind; [apply quiet_getitem | intros; apply quiet_ret]. }
  intros al. apply quiet_bind; [apply quiet_contains|]. intros bd.
  apply quiet_bind.
  { destruct bd; [|apply quiet_ret].
    apply quiet_bind; [apply quiet_getitem | intros; apply quiet_ret]. }
  intros dl. apply quiet_ret.
Qed.

Lemma quiet_assign_lists merged lists : quiet (assign_lists merged lists).
Proof.
  unfold assign_lists.
  repeat (apply quiet_bind;
          [first [apply quiet_merge_permission_lists_dyn
                 | apply quiet_getitem | apply quiet_setitem]
          | intros ?]).
  apply quiet_ret.
Qed.

Lemma quiet_merge_loaded settings_list : quiet (merge_loaded settings_list).
Proof.
  unfold merge_loaded. destruct settings_list as [|first rest];
    [by intros ??|].
  apply quiet_bind; [apply quiet_copy_method|]. intros merged.
  apply quiet_bind; [apply quiet_foldM, quiet_collect|]. intros lists.
  apply quiet_bind; [apply quiet_contains|]. intros b.
  apply quiet_bind; [|intros; apply quiet_assign_lists].
  destruct b; [apply quiet_ret|].
  apply quiet_bind; [by intros ?? | intros; apply quiet_setitem].
Qed.

(** ** Decimal numerals *)

Fixpoint digits (d : Decimal.uint) : pystr :=
  match d with
  | Decimal.Nil => []
  | Decimal.D0 d => 48%N :: digits d
  | Decimal.D1 d => 49%N :: digits d
  | Decimal.D2 d => 50%N :: digits d
  | Decimal.D3 d => 51%N :: digits d
  | Decimal.D4 d => 52%N :: digits d
  | Decimal.D5 d => 53%N :: digits d
  | Decimal.D6 d => 54%N :: digits d
  | Decimal.D7 d => 55%N :: digits d
  | Decimal.D8 d => 56%N :: digits d
  | Decimal.D9 d => 57%N :: digits d
  end.

(** [str(n)] for a natural number. *)
Definition str_of_nat (n : nat) : pystr := digits (Nat.to_uint n).

(** [repr(z)] for an integer. *)
Definition str_of_Z (z : Z) : pystr :=
  match z with
  | Z0 => [48%N]
  | Zpos p => digits (Pos.to_uint p)
  | Zneg p => 45%N :: digits (Pos.to_uint p)
  end.

Lemma digits_inj (d d' : Decimal.uint) : digits d = digits d' → d = d'.
Proof.
  revert d'. induction d; intros []; simpl; intros [=]; f_equal; auto.
Qed.

Lemma str_of_nat_inj (n n' : nat) : str_of_nat n = str_of_nat n' → n = n'.
Proof.
  intros Hd%digits_inj. by apply DecimalNat.Unsigned.to_uint_inj.
Qed.

(** ** Serialization ([json.dumps]) *)

Definition hex_digit (n : N) : N :=
  (if n <? 10 then 48 + n else 87 + n)%N.

(** ['\\u{0:04x}'.format(n)] *)
Definition u_escape (n : N) : pystr :=
  [92; 117; hex_digit (n / 4096 mod 16); hex_digit (n / 256 mod 16);
   hex_digit (n / 16 mod 16); hex_digit (n mod 16)]%N.

(** The replacement of one character under [ensure_ascii=True]. *)
Definition escape_char (c : N) : pystr :=
  (if c =? 92 then [92; 92]
   else if c =? 34 then [92; 34]
   else if c =? 8 then [92; 98]
   else if c =? 12 then [92; 102]
   else if c =? 10 then [92; 110]
   else if c =? 13 then [92; 114]
   else if c =? 9 then [92; 116]
   else if (32 <=? c) && (c <=? 126) then [c]
   else if c <? 65536 then u_escape c
   else
     let n := c - 65536 in
     u_escape (N.lor 55296 (N.land (N.shiftr n 10) 1023))
     ++ u_escape (N.lor 56320 (N.land n 1023)))%N.

Definition encode_string (s : pystr) : pystr :=
  [34%N] ++ concat (escape_char <$> s) ++ [34%N].

(** The settings of an encoder; [enc_indent] is the text of one level. *)
Record encoder : Type := Encoder {
  item_separator : pystr;
  key_separator : pystr;
  enc_indent : option pystr
}.

Definition newline_indent (e : encoder) (level : nat) : pystr :=
  match enc_indent e with
  | Some unit => c_lf :: concat (replicate level unit)
  | None => []
  end.

Definition join_with {A} (enc : A → pystr) (sep : pystr)
  : list A → pystr :=
  fix go (l : list A) : pystr :=
    match l with
    | [] => []
    | [x] => enc x
    | x :: l' => enc x ++ sep ++ go l'
    end.

Fixpoint encode (e : encoder) (level : nat) (j : json) : pystr :=
  match j with
  | JNull => py "null"
  | JBool true => py "true"
  | JBool false => py "false"
  | JInt z => str_of_Z z
  | JStr s => encode_string s
  | JArr [] => py "[]"
  | JArr items =>
      py "[" ++ newline_indent e (S level)
      ++ join_with (encode e (S level))
           (item_separator e ++ newline_indent e (S level)) items
      ++ newline_indent e level ++ py "]"
  | JObj [] => py "{}"
  | JObj fields =>
      py "{" ++ newline_indent e (S level)
      ++ join_with
           (λ kj, encode_string kj.1 ++ key_separator e
                  ++ encode e (S level) kj.2)
           (item_separator e ++ newline_indent e (S level)) fields
      ++ newline_indent e level ++ py "}"
  end.

(** [json.dumps(obj, indent=n)] for [n >= 0] *)
Definition json_dumps_indent (n : nat) (j : json) : pystr :=
  encode (Encoder (py ",") (py ": ") (Some (replicate n 32%N))) 0 j.

(** [json.dumps(obj, separators=(',', ':'))] *)
Definition json_dumps_compact (j : json) : pystr :=
  encode (Encoder (py ",") (py ":") None) 0 j.

(** ** Writing the result *)

(** *** Paths ([pathlib]) *)

(** A path with a final component: [str(p)] is [dir p ++ name p], where
    [dir p] is empty or ends with the separator; the name of ["."] and of
    the root is empty. *)
Record path : Type := Path { dir : pystr; name : pystr }.

#[global] Instance path_eq_dec : EqDecision path.
Proof. solve_decision. Defined.

#[global] Instance path_countable : Countable path.
Proof.
  refine (inj_countable' (λ p, (dir p, name p)) (λ dn, Path dn.1 dn.2) _).
  by intros [].
Defined.

Definition str_of_path (p : path) : pystr := dir p ++ name p.

Definition c_dot : N := 46.
Definition c_slash : N := 47.

(** [s.rfind(c)], [None] standing for [-1]. *)
Fixpoint rfind (c : N) (s : pystr) : option nat :=
  match s with
  | [] => None
  | x :: s' =>
      match rfind c s' with
      | Some i => Some (S i)
      | None => if decide (x = c) then Some 0 else None
      end
  end.

(** [PurePath.suffix]: the last dot and what follows it, unless that dot
    is the first or the last character of the name. *)
Definition suffix (p : path) : pystr :=
  match rfind c_dot (name p) with
  | Some i =>
      if bool_decide (0 < i) && bool_decide (i < length (name p) - 1)
      then drop i (name p) else []
  | None => []
  end.

(** [PurePath.with_suffix(suffix)] *)
Definition with_suffix (p : path) (new_suffix : pystr) : result path :=
  if bool_decide (c_slash ∈ new_suffix) then
    Raise (ValueError "Invalid suffix")
  else if bool_decide (new_suffix ≠ [] ∧ head new_suffix ≠ Some c_dot)
          || bool_decide (new_suffix = [c_dot]) then
    Raise (ValueError "Invalid suffix")
  else if bool_decide (name p = []) then
    Raise (ValueError "has an empty name")
  else
    let old_suffix := suffix p in
    Ok (Path (dir p)
          (match old_suffix with
           | [] => name p ++ new_suffix
           | _ => take (length (name p) - length old_suffix) (name p)
                  ++ new_suffix
           end)).

(** *** The output block of [main] *)

Record arguments : Type := Arguments {
  arg_output : option path;   (* -o/--output *)
  arg_indent : Z;             (* --indent, 2 by default *)
  arg_compact : bool;         (* --compact *)
  arg_no_backup : bool;       (* --no-backup *)
  arg_force : bool            (* -f/--force *)
}.

(** The files with their content, and the two streams. Only regular
    files are represented. *)
Record world : Type := World {
  files : gmap path pystr;
  stdout : list pystr;
  stderr : list pystr
}.

(** [p.exists()] *)
Definition path_exists (w : world) (p : path) : bool :=
  bool_decide (is_Some (files w !! p)).

(** [print(msg, file=sys.stderr)] *)
Definition print_err (msg : pystr) (w : world) : world :=
  World (files w) (stdout w) (stderr w ++ [msg ++ [c_lf]]).

(** [print(msg)] *)
Definition print_out (msg : pystr) (w : world) : world :=
  World (files w) (stdout w ++ [msg ++ [c_lf]]) (stderr w).

(** [shutil.copy2(src, dst)] *)
Definition copy2 (src dst : path) (w : world) : result world :=
  match files w !! src with
  | Some content =>
      Ok (World (<[dst := content]> (files w)) (stdout w) (stderr w))
  | None => Raise FileNotFoundError
  end.

(** [with open(p, 'w') as f: f.write(a); f.write(b)] *)
Definition write_file (p : path) (a b : pystr) (w : world) : world :=
  World (<[p := a ++ b]> (files w)) (stdout w) (stderr w).

(** The [n]-th candidate of the numbered sequence,
    [out.with_suffix(out.suffix + f'.bak.{idx}')]. *)
Definition candidate (out : path) (idx : nat) : result path :=
  with_suffix out (suffix out ++ py ".bak." ++ str_of_nat idx).

(** The [while True] loop that looks for a free numbered name; [None]
    when it is still running after [fuel] turns. *)
Fixpoint find_backup (fuel : nat) (w : world) (out : path) (idx : nat)
  : result (option path) :=
  match fuel with
  | 0 => Ok None
  | S fuel' =>
      c ← candidate out idx;
      if negb (path_exists w c) then Ok (Some c)
      else find_backup fuel' w out (S idx)
  end.

(** The backup taken before an existing destination is overwritten. *)
Definition make_backup (fuel : nat) (out : path) (w : world)
  : result (option world) :=
  first_choice ← with_suffix out (suffix out ++ py ".bak");
  backup_path ←
    (if path_exists w first_choice then find_backup fuel w out 1
     else Ok (Some first_choice));
  match backup_path with
  | None => Ok None
  | Some backup_path =>
      w' ← copy2 out backup_path w;
      Ok (Some (print_err (py "Created backup '" ++ str_of_path backup_path
                           ++ py "'") w'))
  end.

(** [main], from [# Write output] to the end; [output] is the serialized
    document. *)
Definition write_output (fuel : nat) (args : arguments) (output : pystr)
    (w : world) : result (option world) :=
  match arg_output args with
  | Some out =>
      saved ←
        (if path_exists w out && negb (arg_no_backup args || arg_force args)
         then make_backup fuel out w
         else Ok (Some w));
      match saved with
      | None => Ok None
      | Some w1 =>
          let w2 := write_file out output [c_lf] w1 in
          Ok (Some (print_err
                      (py "Successfully wrote merged settings to '"
                       ++ str_of_path out ++ py "'") w2))
      end
  | None => Ok (Some (print_out output w))
  end.

(** [# Prepare output]: the text of the merged document. A negative
    indent gives an empty indentation unit, as [' ' * indent] does. *)
Definition prepare_output (args : arguments) (merged : json) : pystr :=
  if arg_compact args then json_dumps_compact merged
  else json_dumps_indent (Z.to_nat (arg_indent args)) merged.

(** [main] from [# Prepare output] on, for a merged document that reads
    as [merged]. *)
Definition main_output (fuel : nat) (args : arguments) (merged : json)
    (w : world) : result (option world) :=
  write_output fuel args (prepare_output args merged) w.

(** *** Backup names *)

Definition bak : pystr := Eval vm_compute in py ".bak".
Definition bak_dot : pystr := Eval vm_compute in py ".bak.".

(** The sequence [<path>.bak], [<path>.bak.1], [<path>.bak.2], ... *)
Definition nth_backup (out : path) (n : nat) : path :=
  Path (dir out)
    (name out ++ match n with 0 => bak | _ => bak_dot ++ str_of_nat n end).

(** A path that can name a file: it has a final component, without
    separator in it. *)
Definition names_a_file (p : path) : Prop :=
  name p ≠ [] ∧ c_slash ∉ name p.

Lemma rfind_Some (c : N) (s : pystr) (i : nat) :
  rfind c s = Some i → s !! i = Some c.
Proof.
  revert i. induction s as [|x s IH]; intros i; simpl; [done|].
  destruct (rfind c s) as [j|].
  - intros [= <-]. by apply IH.
  - destruct (decide (x = c)) as [->|]; [|done]. by intros [= <-].
Qed.

Lemma suffix_cases (p : path) :
  suffix p = []
  ∨ ∃ i, suffix p = drop i (name p) ∧ name p !! i = Some c_dot.
Proof.
  unfold suffix. destruct (rfind c_dot (name p)) as [i|] eqn:Hi; [|by left].
  destruct (_ && _); [|by left]. right. exists i. split; [done|].
  by apply rfind_Some.
Qed.

(** Appending to the suffix appends to the name. *)
Lemma with_suffix_append (p : path) (ext : pystr) :
  names_a_file p → c_slash ∉ ext → head ext = Some c_dot →
  1 < length ext →
  with_suffix p (suffix p ++ ext) = Ok (Path (dir p) (name p ++ ext)).
Proof.
  intros [Hname Hslash] Hext Hhead Hlen. unfold with_suffix.
  assert (Hsub : ∀ c, c ∈ suffix p → c ∈ name p).
  { intros c. destruct (suffix_cases p) as [->|(i & -> & _)].
    - by intros ?%elem_of_nil.
    - intros (j & Hj)%list_elem_of_lookup. rewrite lookup_drop in Hj.
      by eapply list_elem_of_lookup_2. }
  rewrite bool_decide_eq_false_2; last first.
  { intros [?|?]%elem_of_app; [apply Hslash; auto | done]. }
  assert (Hhd : head (suffix p ++ ext) = Some c_dot).
  { destruct (suffix_cases p) as [->|(i & Hs & Hi)]; [done|].
    rewrite Hs. rewrite (drop_S _ _ _ Hi). done. }
  rewrite bool_decide_eq_false_2 by (intros [_ ?]; done).
  rewrite bool_decide_eq_false_2; last first.
  { intros Heq. apply (f_equal length) in Heq.
    rewrite length_app in Heq. simpl in Heq. lia. }
  rewrite bool_decide_eq_false_2 by done. cbn [orb].
  do 2 f_equal.
  destruct (suffix_cases p) as [->|(i & Hs & Hi)]; [done|].
  rewrite Hs. rewrite (drop_S _ _ _ Hi) at 1.
  rewrite <- Hs. rewrite app_assoc. f_equal.
  rewrite Hs, length_drop.
  pose proof (lookup_lt_Some _ _ _ Hi).
  replace (length (name p) - (length (name p) - i)) with i by lia.
  apply take_drop.
Qed.

Lemma str_of_nat_digit (n : nat) (c : N) :
  c ∈ str_of_nat n → (48 ≤ c ≤ 57)%N.
Proof.
  unfold str_of_nat. generalize (Nat.to_uint n). intros d.
  induction d; simpl; rewrite ?elem_of_cons;
    try (intros [->|?]; [lia | auto]).
  by intros ?%elem_of_nil.
Qed.

Lemma bak_no_slash : c_slash ∉ bak.
Proof. refine (bool_decide_unpack _ _). by vm_compute. Qed.

Lemma bak_dot_no_slash : c_slash ∉ bak_dot.
Proof. refine (bool_decide_unpack _ _). by vm_compute. Qed.

Lemma with_suffix_bak (out : path) :
  names_a_file out →
  with_suffix out (suffix out ++ py ".bak") = Ok (nth_backup out 0).
Proof.
  intros Hout. change (py ".bak") with bak. unfold nth_backup.
  apply with_suffix_append; [done | apply bak_no_slash | done |].
  simpl. lia.
Qed.

Lemma candidate_nth (out : path) (idx : nat) :
  names_a_file out → 0 < idx →
  candidate out idx = Ok (nth_backup out idx).
Proof.
  intros Hout Hidx. unfold candidate, nth_backup.
  change (py ".bak.") with bak_dot.
  destruct idx as [|idx]; [lia|].
  apply with_suffix_append; [done| |done|].
  - intros [H|H%str_of_nat_digit]%elem_of_app; [|unfold c_slash in H; lia].
    by apply bak_dot_no_slash.
  - rewrite length_app. simpl. lia.
Qed.

Lemma nth_backup_inj (out : path) (i j : nat) :
  nth_backup out i = nth_backup out j → i = j.
Proof.
  unfold nth_backup. intros [= H%app_inv_head].
  destruct i as [|i], j as [|j]; try done.
  injection H as H. by apply str_of_nat_inj in H.
Qed.

Lemma nth_backup_ne (out : path) (n : nat) : nth_backup out n ≠ out.
Proof.
  destruct out as [d nm]. unfold nth_backup. simpl. intros [= H].
  apply (f_equal length) in H. rewrite length_app in H.
  destruct n; simpl in H; lia.
Qed.

(** *** The search for a free name ends *)

(** Within any run of indices, either every name exists or there is a
    first free one. *)
Lemma first_free (w : world) (out : path) (len idx : nat) :
  (∀ i, idx ≤ i < idx + len → path_exists w (nth_backup out i) = true)
  ∨ ∃ n, idx ≤ n < idx + len
         ∧ path_exists w (nth_backup out n) = false
         ∧ ∀ i, idx ≤ i < n → path_exists w (nth_backup out i) = true.
Proof.
  revert idx. induction len as [|len IH]; intros idx.
  - left. intros i Hi. lia.
  - destruct (path_exists w (nth_backup out idx)) eqn:Hidx.
    + destruct (IH (S idx)) as [Hall|(n & Hn & Hfree & Hbefore)].
      * left. intros i Hi. destruct (decide (i = idx)) as [->|]; [done|].
        apply Hall. lia.
      * right. exists n. split; [lia|]. split; [done|].
        intros i Hi. destruct (decide (i = idx)) as [->|]; [done|].
        apply Hbefore. lia.
    + right. exists idx. split; [lia|]. split; [done|]. intros i Hi. lia.
Qed.

(** Finitely many files cannot hold all the names of a long run. *)
Lemma not_all_exist (w : world) (out : path) (len idx : nat) :
  size (files w) < len →
  ¬ ∀ i, idx ≤ i < idx + len → path_exists w (nth_backup out i) = true.
Proof.
  intros Hsize Hall.
  set (l := nth_backup out <$> seq idx len).
  assert (Hnd : NoDup l).
  { apply NoDup_fmap_2_strong; [|apply NoDup_seq].
    intros i j _ _. apply nth_backup_inj. }
  assert (Hsub : (list_to_set l : gset path) ⊆ dom (files w)).
  { intros p (i & -> & Hi)%elem_of_list_to_set%list_elem_of_fmap.
    apply elem_of_seq in Hi. apply elem_of_dom.
    specialize (Hall i ltac:(lia)). by apply bool_decide_eq_true in Hall. }
  apply subseteq_size in Hsub.
  rewrite size_list_to_set, size_dom in Hsub by done.
  unfold l in Hsub. rewrite length_fmap, length_seq in Hsub. lia.
Qed.

Lemma find_backup_first_free (w : world) (out : path) :
  names_a_file out →
  ∀ fuel idx n,
    0 < idx → idx ≤ n < idx + fuel →
    path_exists w (nth_backup out n) = false →
    (∀ i, idx ≤ i < n → path_exists w (nth_backup out i) = true) →
    find_backup fuel w out idx = Ok (Some (nth_backup out n)).
Proof.
  intros Hout. induction fuel as [|fuel IH]; intros idx n Hpos Hn Hfree Hbefore.
  - lia.
  - cbn [find_backup]. rewrite candidate_nth by done. cbn [mbind result_bind].
    destruct (decide (n = idx)) as [->|Hne].
    + by rewrite Hfree.
    + rewrite Hbefore by lia. cbn [negb].
      apply IH; [lia | lia | done |]. intros i Hi. apply Hbefore. lia.
Qed.

(** ** The converter on files *)

(** [os.path.splitext(p)] *)
Definition splitext (p : pystr) : pystr * pystr :=
  match rfind c_dot p with
  | None => (p, [])
  | Some dot =>
      let start := match rfind c_slash p with Some s => S s | None => 0 end in
      if bool_decide (start ≤ dot)
         && existsb (λ c, negb (bool_decide (c = c_dot)))
              (take (dot - start) (drop start p))
      then (take dot p, drop dot p)
      else (p, [])
  end.

(** The text files and the output stream of the converter. *)
Record md_world : Type := MdWorld {
  md_files : gmap pystr pystr;
  md_stdout : list pystr
}.

(** [process_file(markdown_filepath)] *)
Definition process_file (markdown_filepath : pystr) (w : md_world)
  : result (pystr * md_world) :=
  patterns ← parse_markdown_file (md_files w) markdown_filepath;
  let permissions_data := create_permissions_json patterns in
  let json_filepath := (splitext markdown_filepath).1 ++ py ".json" in
  let written :=
    <[json_filepath := json_dumps_indent 2 permissions_data]> (md_files w) in
  let message :=
    py "Created " ++ json_filepath ++ py " with "
    ++ str_of_nat (length patterns) ++ py " patterns" in
  Ok (json_filepath, MdWorld written (md_stdout w ++ [message ++ [c_lf]])).

(** ** The whole merge *)

(** Loading the files and merging them, with everything that is known
    of the stores before and after. *)
Lemma merge_settings_files_run (docs : gmap pystr file)
    (files : list pystr) (ds : list json) (h : heap) :
  files ≠ [] →
  Forall2 (λ f d, docs !! f = Some (Document d)) files ds →
  Forall (λ d, permission_document d = true) ds →
  ∃ d1 ds' v1 vs' h0 h',
    ds = d1 :: ds'
    ∧ load_settings docs files h = Ok (v1 :: vs', h0)
    ∧ merge_loaded (v1 :: vs') h0 = Ok (VRef (length h0), h')
    ∧ merge_settings_files docs files h = Ok (VRef (length h0), h')
    ∧ laid_items h0 (length h) ds (v1 :: vs')
    ∧ length h0 = length h + sum_list (cells <$> ds)
    ∧ (∀ l, l < length h → h0 !! l = h !! l)
    ∧ represents h' (merged_document ds) (VRef (length h0)) = true
    ∧ length h0 ≤ length h'
    ∧ ∀ l, l < length h0 →
        h' !! l = h0 !! l
        ∨ (permissions_of h0 v1 = Some l
           ∧ length h ≤ l < length h + cells d1
           ∧ (∃ pd, h0 !! l = Some (ODict pd)) ∧ v1 ≠ VRef l).
Proof.
  intros Hne Hdocs Hshape.
  destruct (load_settings_laid docs files ds Hdocs h)
    as (new & vs & Hload & Hlen & Hlaid).
  destruct Hdocs as [|f d1 files' ds' Hf Hdocs']; [done|].
  destruct vs as [|v1 vs']; [done|].
  destruct (merge_loaded_spec d1 ds' v1 vs' (h ++ new) (length h)
              Hlaid ltac:(rewrite length_app; lia) Hshape)
    as (h' & Hrun & Hrep & Hlen' & Hframe).
  exists d1, ds', v1, vs', (h ++ new), h'.
  split; [done|]. split; [done|]. split; [done|].
  split.
  { unfold merge_settings_files.
    by rewrite (M_bind_Ok _ _ _ _ _ Hload). }
  split; [done|]. split; [rewrite length_app; lia|].
  split; [intros l Hl; by apply lookup_app_l|].
  done.
Qed.

(** ** The output block *)

(** The file that [write_output] finds at the destination and the name
    under which it is saved: the first free name of the sequence. *)
Definition first_free_backup (w : world) (out : path) (n : nat) : Prop :=
  path_exists w (nth_backup out n) = false
  ∧ ∀ i, i < n → path_exists w (nth_backup out i) = true.

Lemma first_free_backup_exists (w : world) (out : path) :
  ∃ n, n ≤ size (files w) ∧ first_free_backup w out n.
Proof.
  destruct (first_free w out (S (size (files w))) 0)
    as [Hall|(n & Hn & Hfree & Hbefore)].
  - by apply not_all_exist in Hall; [|lia].
  - exists n. split; [lia|]. split; [done|].
    intros i Hi. apply Hbefore. lia.
Qed.

Lemma make_backup_spec (fuel : nat) (out : path) (w : world)
    (content : pystr) (n : nat) :
  names_a_file out →
  files w !! out = Some content →
  first_free_backup w out n →
  n ≤ fuel →
  make_backup fuel out w
  = Ok (Some (print_err (py "Created backup '"
                         ++ str_of_path (nth_backup out n) ++ py "'")
                (World (<[nth_backup out n := content]> (files w))
                   (stdout w) (stderr w)))).
Proof.
  intros Hout Hcontent [Hfree Hbefore] Hfuel. unfold make_backup.
  rewrite with_suffix_bak by done. cbn [mbind result_bind].
  destruct n as [|n].
  - rewrite Hfree. cbn [mbind result_bind]. unfold copy2.
    by rewrite Hcontent.
  - rewrite (Hbefore 0) by lia.
    rewrite (find_backup_first_free w out Hout fuel 1 (S n));
      [|lia|lia|done|intros i Hi; apply Hbefore; lia].
    cbn [mbind result_bind]. unfold copy2. by rewrite Hcontent.
Qed.

(** * The properties *)

Lemma elem_of_concat {A} (lists : list (list A)) (x : A) :
  x ∈ concat lists ↔ ∃ l, l ∈ lists ∧ x ∈ l.
Proof.
  rewrite list_elem_of_In, in_concat. split.
  - intros (l & Hl & Hx). exists l. by rewrite !list_elem_of_In.
  - intros (l & Hl & Hx). exists l. by rewrite <- !list_elem_of_In.
Qed.

(** C1. For every sequence of lists of strings, [merge_permission_lists]
    returns the distinct strings that occur in the lists, each exactly
    once, in the order of their first occurrence across the lists taken
    in argument order: the result is the list of first occurrences of
    the concatenation, it has no duplicate, it has the same elements as
    the inputs, and an element that comes earlier in it occurs in the
    concatenation before every occurrence of one that comes later. On
    [[["a","b","a"],["b","c"]]] the result is [["a","b","c"]]. *)
Theorem merge_permission_lists_first_seen (lists : list (list pystr)) :
  let merged := merge_permission_lists lists in
  merged = first_occurrences (concat lists)
  ∧ NoDup merged
  ∧ (∀ x, x ∈ merged ↔ ∃ l, l ∈ lists ∧ x ∈ l)
  ∧ (∀ i j x y,
       merged !! i = Some x → merged !! j = Some y → i < j →
       ∃ p, concat lists !! p = Some x ∧ y ∉ take p (concat lists))
  ∧ merge_permission_lists
      [[py "a"; py "b"; py "a"]; [py "b"; py "c"]]
    = [py "a"; py "b"; py "c"].
Proof.
  cbn zeta. unfold merge_permission_lists.
  split; [apply merge_loop_first_occurrences|].
  split; [rewrite merge_loop_first_occurrences;
          apply first_occurrences_NoDup|].
  split.
  { intros x. rewrite merge_loop_first_occurrences.
    by rewrite first_occurrences_elem, elem_of_concat. }
  split; [|by vm_compute].
  intros i j x y Hi Hj Hlt. rewrite Dedup.merge_loop_fresh in Hi, Hj.
  destruct (Dedup.fresh_items_order id _ _ _ _ _ _ Hi Hj Hlt)
    as (p & Hp & Hy).
  exists p. split; [done|]. by rewrite list_fmap_id in Hy.
Qed.

(** C10. For every list of patterns, with or without duplicates,
    [create_permissions_json] returns the document whose only field is
    ["permissions"], whose ["allow"] is the list of first occurrences of
    the patterns (so it has no duplicate and the same elements) and whose
    ["deny"] is empty. *)
Theorem create_permissions_json_dedups (patterns : list pystr) :
  let doc := create_permissions_json patterns in
  doc = JObj [ (k_permissions,
                JObj [ (k_allow, JArr (JStr <$> first_occurrences patterns));
                       (k_deny, JArr []) ]) ]
  ∧ permission_list k_allow doc = Some (first_occurrences patterns)
  ∧ permission_list k_deny doc = Some []
  ∧ NoDup (first_occurrences patterns)
  ∧ (∀ x, x ∈ first_occurrences patterns ↔ x ∈ patterns).
Proof.
  cbn zeta. rewrite create_permissions_json_emitted.
  split; [done|]. split; [apply emitted_document_allow|].
  split; [apply emitted_document_deny|].
  split; [apply first_occurrences_NoDup|].
  apply first_occurrences_elem.
Qed.

(** C6. For every list of pairwise distinct patterns,
    [create_permissions_json] returns the document whose only top-level
    field is ["permissions"], with ["allow"] equal to the list, same
    elements in the same order, and ["deny"] empty. *)
Theorem create_permissions_json_verbatim (ps : list pystr) :
  NoDup ps →
  let doc := create_permissions_json ps in
  doc = JObj [ (k_permissions,
                JObj [ (k_allow, JArr (JStr <$> ps)); (k_deny, JArr []) ]) ]
  ∧ permission_list k_allow doc = Some ps
  ∧ permission_list k_deny doc = Some []
  ∧ (∀ k, k ≠ k_permissions → json_get k doc = None).
Proof.
  intros Hnd. cbn zeta. rewrite create_permissions_json_distinct by done.
  split; [done|]. split; [apply emitted_document_allow|].
  split; [apply emitted_document_deny|].
  apply emitted_document_other.
Qed.

Lemma create_permissions_json_verbatim_witness :
  NoDup [py "Bash(ls)"; py "Bash(pwd)"]
  ∧ permission_list k_allow
      (create_permissions_json [py "Bash(ls)"; py "Bash(pwd)"])
    = Some [py "Bash(ls)"; py "Bash(pwd)"].
Proof.
  assert (Hnd : NoDup [py "Bash(ls)"; py "Bash(pwd)"]).
  { apply (bool_decide_unpack _). by vm_compute. }
  split; [exact Hnd|].
  exact (proj1 (proj2 (create_permissions_json_verbatim _ Hnd))).
Defined.

(** *** The lines of a text and their trimming, as the claim words them *)

Lemma lstrip_cons (c : N) (s : pystr) :
  lstrip (c :: s) = if is_space c then lstrip s else c :: s.
Proof.
  unfold lstrip. simpl. destruct (is_space c); [|done].
  by destruct (span is_space s).
Qed.

Lemma lstrip_space_app (a s : pystr) :
  Forall (λ c, is_space c = true) a → lstrip (a ++ s) = lstrip s.
Proof.
  induction 1 as [|c a Hc _ IH]; [done|].
  simpl. by rewrite lstrip_cons, Hc.
Qed.

Lemma lstrip_app (s b : pystr) :
  lstrip (s ++ b)
  = match lstrip s with [] => lstrip b | _ => lstrip s ++ b end.
Proof.
  induction s as [|c s IH]; [done|].
  simpl. rewrite !lstrip_cons. by destruct (is_space c).
Qed.

Lemma lstrip_all_space (b : pystr) :
  Forall (λ c, is_space c = true) b → lstrip b = [].
Proof.
  intros Hb. by rewrite <- (app_nil_r b), lstrip_space_app.
Qed.

Lemma rstrip_app_space (s b : pystr) :
  Forall (λ c, is_space c = true) b → rstrip (s ++ b) = rstrip s.
Proof.
  intros Hb. unfold rstrip.
  by rewrite reverse_app, lstrip_space_app by by apply Forall_reverse.
Qed.

(** [strip] does not see the whitespace around a string. *)
Lemma strip_surrounded (a s b : pystr) :
  Forall (λ c, is_space c = true) a → Forall (λ c, is_space c = true) b →
  strip (a ++ s ++ b) = strip s.
Proof.
  intros Ha Hb. unfold strip.
  rewrite lstrip_space_app, lstrip_app by done.
  destruct (lstrip s) as [|c t] eqn:Hs.
  - by rewrite lstrip_all_space.
  - by rewrite rstrip_app_space.
Qed.

(** [t] is [line] without its leading and trailing whitespace. *)
Definition trimmed (line t : pystr) : Prop :=
  ∃ a b,
    line = a ++ t ++ b
    ∧ Forall (λ c, is_space c = true) a
    ∧ Forall (λ c, is_space c = true) b
    ∧ (∀ c, head t = Some c → is_space c = false)
    ∧ (∀ c, last t = Some c → is_space c = false).

Lemma strip_trimmed (line : pystr) : trimmed line (strip line).
Proof.
  destruct (strip_spec line) as (a & b & Heq & Ha & Hb & Hhd & Htl).
  exists a, b. split; [done|]. split; [done|]. split; [done|]. split.
  - intros c Hc. destruct (strip line); [done|]. by injection Hc as ->.
  - intros c Hc. rewrite <- head_reverse in Hc.
    destruct (reverse (strip line)); [done|]. by injection Hc as ->.
Qed.

Lemma lstrip_fixed (t : pystr) :
  (∀ c, head t = Some c → is_space c = false) → lstrip t = t.
Proof.
  intros Hhd. destruct t as [|c t]; [done|].
  by rewrite lstrip_cons, (Hhd c).
Qed.

(** The trimmed line is what [str.strip] returns, and nothing else. *)
Lemma trimmed_strip (line t : pystr) : trimmed line t ↔ t = strip line.
Proof.
  split; [|intros ->; apply strip_trimmed].
  intros (a & b & -> & Ha & Hb & Hhd & Htl).
  rewrite strip_surrounded by done. unfold strip, rstrip.
  rewrite (lstrip_fixed t) by done.
  rewrite lstrip_fixed; [by rewrite reverse_involutive|].
  intros c. rewrite head_reverse. apply Htl.
Qed.

(** What a line contributes: the capture of its trimmed form when that
    has the bullet shape, nothing otherwise. *)
Definition captured (line : pystr) (oc : option pystr) : Prop :=
  ∃ t, trimmed line t
       ∧ match oc with
         | Some cap => bullet_line t cap
         | None => ∀ cap, ¬ bullet_line t cap
         end.

Lemma line_capture_captured (line : pystr) (oc : option pystr) :
  line_capture line oc → captured line oc.
Proof. intros Hoc. exists (strip line). split; [apply strip_trimmed | done]. Qed.

(** [t] is [s] with every line ending, ["\r\n"], ["\r"] or ["\n"],
    written as a line feed. *)
Inductive translated : pystr → pystr → Prop :=
| translated_nil : translated [] []
| translated_crlf s t :
    translated s t → translated (c_cr :: c_lf :: s) (c_lf :: t)
| translated_cr s t :
    head s ≠ Some c_lf → translated s t →
    translated (c_cr :: s) (c_lf :: t)
| translated_char c s t :
    c ≠ c_cr → translated s t → translated (c :: s) (c :: t).

Lemma universal_newlines_translated (s : pystr) :
  translated s (universal_newlines s).
Proof.
  induction s as [|c s IH]; [constructor|]. simpl.
  destruct (decide (c = c_cr)) as [->|Hc]; [|by constructor].
  destruct s as [|c' s]; [by repeat constructor|].
  destruct (decide (c' = c_lf)) as [->|Hc'].
  - assert (Hlf : universal_newlines (c_lf :: s)
                  = c_lf :: universal_newlines s) by done.
    rewrite Hlf in IH |- *.
    inversion IH as [| | |c0 s0 t0 _ Hrest]; subst. by constructor.
  - constructor; [by intros [= ->] | done].
Qed.

(** [ls] are the lines of [t]: [t] cut after each line feed, the last
    piece kept when it is not empty. *)
Definition lines_of (t : pystr) (ls : list pystr) : Prop :=
  concat ls = t
  ∧ Forall (λ l, l ≠ []) ls
  ∧ ∀ i l, ls !! i = Some l →
      ∃ body, (c_lf ∉ body)
              ∧ (l = body ++ [c_lf] ∨ (l = body ∧ S i = length ls)).

Lemma split_lines_spec (s : pystr) :
  ∀ cur, c_lf ∉ cur →
    concat (split_lines cur s) = cur ++ s
    ∧ Forall (λ l, l ≠ []) (split_lines cur s)
    ∧ ∀ i l, split_lines cur s !! i = Some l →
        ∃ body, (c_lf ∉ body)
                ∧ (l = body ++ [c_lf]
                   ∨ (l = body ∧ S i = length (split_lines cur s))).
Proof.
  induction s as [|c s IH]; intros cur Hcur.
  - destruct cur as [|x cur]; simpl.
    + split; [done|]. split; [constructor|]. by intros i l.
    + rewrite !app_nil_r. split; [done|]. split; [by repeat constructor|].
      intros [|i] l; [|done]. intros [= <-]. exists (x :: cur).
      split; [done | by right].
  - cbn [split_lines]. destruct (decide (c = c_lf)) as [->|Hc].
    + destruct (IH [] ltac:(by intros ?%elem_of_nil))
        as (Hcat & Hne & Hshape).
      split; [|split].
      * cbn [concat]. rewrite Hcat. by rewrite <- app_assoc.
      * constructor; [by destruct cur | done].
      * intros [|i] l Hl.
        -- injection Hl as <-. exists cur. split; [done | by left].
        -- destruct (Hshape i l Hl) as (body & Hbody & [->|[-> Hlast]]).
           ++ exists body. split; [done | by left].
           ++ exists body. split; [done|]. right. split; [done|].
              simpl. by rewrite Hlast.
    + destruct (IH (cur ++ [c])) as (Hcat & Hne & Hshape).
      { rewrite elem_of_app, list_elem_of_singleton. intros [?|?]; congruence. }
      split; [by rewrite Hcat, <- app_assoc | done].
Qed.

Lemma file_lines_spec (text : pystr) :
  ∃ t, translated text t ∧ lines_of t (file_lines text).
Proof.
  exists (universal_newlines text).
  split; [apply universal_newlines_translated|].
  apply (split_lines_spec (universal_newlines text) []).
  by intros ?%elem_of_nil.
Qed.

(** The three lines of the example. *)
Definition example_text : pystr :=
  py "* `Bash(npm run test:*)`" ++ [c_lf]
  ++ py "not a bullet" ++ [c_lf]
  ++ py "- `Bash(npm run lint)`" ++ [c_lf].

(** An indented sub-bullet, a marker without whitespace after it, and
    line endings of the three kinds. *)
Definition example_nested : pystr :=
  py "  - `gh pr view:*` shows one" ++ [c_cr; c_lf]
  ++ py "*`gh pr list`" ++ [c_cr]
  ++ [9%N] ++ py "*   `gh pr diff`  " ++ [c_lf]
  ++ py "- `gh pr view:*`".

(** C5. For every text file, [parse_markdown_file] followed by the
    deduplication of [create_permissions_json] returns, in line order and
    keeping first occurrences, exactly the captures of the lines that,
    with their leading and trailing whitespace removed, have the shape
    marker, whitespace, backtick, non-empty capture without backtick,
    backtick, anything; every other line contributes nothing and no
    error is raised. The lines are the pieces of the text cut after each
    line ending. On the three lines of [example_text] the result is the
    two captures, the test pattern and the lint pattern, in this order;
    on [example_nested] the indented bullet and the one after a tab are
    captured, the marker without whitespace is not, and the repeated
    pattern is listed once. *)
Theorem extractor_captures_bullets (fs : gmap pystr pystr)
    (filepath text : pystr) :
  fs !! filepath = Some text →
  (∃ t ls ocs,
     translated text t
     ∧ lines_of t ls
     ∧ Forall2 captured ls ocs
     ∧ parse_markdown_file fs filepath = Ok (omap id ocs)
     ∧ permission_list k_allow (create_permissions_json (omap id ocs))
       = Some (first_occurrences (omap id ocs)))
  ∧ (text = example_text →
     parse_markdown_file fs filepath
     = Ok [py "Bash(npm run test:*)"; py "Bash(npm run lint)"]
     ∧ permission_list k_allow
         (create_permissions_json
            [py "Bash(npm run test:*)"; py "Bash(npm run lint)"])
       = Some [py "Bash(npm run test:*)"; py "Bash(npm run lint)"])
  ∧ (text = example_nested →
     ∃ patterns,
       parse_markdown_file fs filepath = Ok patterns
       ∧ patterns = [py "gh pr view:*"; py "gh pr diff"; py "gh pr view:*"]
       ∧ permission_list k_allow (create_permissions_json patterns)
         = Some [py "gh pr view:*"; py "gh pr diff"]).
Proof.
  intros Hfile. unfold parse_markdown_file. rewrite Hfile.
  split; [|split].
  - destruct (file_lines_spec text) as (t & Htr & Hlines).
    destruct (parse_lines_captures (file_lines text) [])
      as (ocs & Hocs & Hparse).
    exists t, (file_lines text), ocs. split; [done|]. split; [done|].
    split.
    { eapply Forall2_impl; [exact Hocs|]. apply line_capture_captured. }
    split; [done|].
    rewrite create_permissions_json_emitted. apply emitted_document_allow.
  - intros ->. split; by vm_compute.
  - intros ->. eexists. split; [by vm_compute|]. split; by vm_compute.
Qed.

Lemma extractor_captures_bullets_witness :
  parse_markdown_file {[ py "gh-pr.md" := example_text ]} (py "gh-pr.md")
  = Ok [py "Bash(npm run test:*)"; py "Bash(npm run lint)"].
Proof.
  refine (proj1 (proj1 (proj2 (extractor_captures_bullets
                                 {[ py "gh-pr.md" := example_text ]}
                                 (py "gh-pr.md") example_text _)) eq_refl)).
  by vm_compute.
Defined.

Lemma json_strings_string_array (j : json) :
  string_array j = true → is_Some (json_strings j).
Proof.
  destruct j as [| | | |items|]; try done. simpl. intros Hall.
  induction items as [|j items IH]; [by exists []|].
  simpl in Hall. apply andb_true_iff in Hall as [Hj Hall].
  destruct j as [| | |s| |]; try done.
  destruct (IH Hall) as [l Hl]. exists (s :: l).
  change (mapM json_string (JStr s :: items))
    with (x ← json_string (JStr s); k ← mapM json_string items;
          mret (x :: k)).
  simpl. by rewrite Hl.
Qed.

(** A document of the right shape defines a list exactly when its
    ["permissions"] mapping has the field. *)
Lemma permission_list_defined (d : json) (k : pystr) :
  permission_document d = true → k = k_allow ∨ k = k_deny →
  permission_list k d = None
  ↔ (json_get k_permissions d ≫= json_get k) = None.
Proof.
  intros Hshape Hk. unfold permission_list.
  destruct d as [| | | | |fields]; try done.
  simpl in Hshape. apply andb_true_iff in Hshape as [_ Hshape].
  cbn [json_get]. destruct (dict_get k_permissions fields) as [pj|]; [|done].
  cbn [mbind option_bind]. destruct pj as [| | | | |pf]; try done.
  simpl in Hshape.
  apply andb_true_iff in Hshape as [[_ Ha]%andb_true_iff Hd].
  cbn [json_get]. unfold optional_string_array in Ha, Hd.
  destruct Hk as [-> | ->].
  - destruct (dict_get k_allow pf) as [x|]; [|done].
    cbn [mbind option_bind].
    destruct (json_strings_string_array x Ha) as [l ->]. done.
  - destruct (dict_get k_deny pf) as [x|]; [|done].
    cbn [mbind option_bind].
    destruct (json_strings_string_array x Hd) as [l ->]. done.
Qed.

(** C2. For every non-empty sequence of files that load to permission
    documents, [merge_settings_files] returns a document that is not one
    of the loaded ones and that reads as follows: every field other than
    ["permissions"] is that of the first document; every field of
    ["permissions"] other than ["allow"] and ["deny"] is that of the
    first document's ["permissions"]; ["allow"] is the deduplicator
    applied, in input order, to the ["allow"] lists of exactly the
    documents that define one, and likewise ["deny"]. A document without
    the field, or without ["permissions"], defines no list. *)
Theorem merge_settings_files_combines (docs : gmap pystr file)
    (files : list pystr) (ds : list json) (h : heap) :
  files ≠ [] →
  Forall2 (λ f d, docs !! f = Some (Document d)) files ds →
  Forall (λ d, permission_document d = true) ds →
  ∃ first settings_list h0 m h',
    ds !! 0 = Some first
    ∧ load_settings docs files h = Ok (settings_list, h0)
    ∧ merge_settings_files docs files h = Ok (VRef m, h')
    ∧ h0 !! m = None
    ∧ represents h' (merged_document ds) (VRef m) = true
    ∧ (∀ k, k ≠ k_permissions →
         json_get k (merged_document ds) = json_get k first)
    ∧ (∀ k, k ≠ k_allow → k ≠ k_deny →
         (json_get k_permissions (merged_document ds) ≫= json_get k)
         = (json_get k_permissions first ≫= json_get k))
    ∧ permission_list k_allow (merged_document ds)
      = Some (merge_permission_lists (omap (permission_list k_allow) ds))
    ∧ permission_list k_deny (merged_document ds)
      = Some (merge_permission_lists (omap (permission_list k_deny) ds))
    ∧ (∀ d k, d ∈ ds → k = k_allow ∨ k = k_deny →
         permission_list k d = None
         ↔ (json_get k_permissions d ≫= json_get k) = None).
Proof.
  intros Hne Hdocs Hshape.
  destruct (merge_settings_files_run docs files ds h Hne Hdocs Hshape)
    as (d1 & ds' & v1 & vs' & h0 & h' & -> & Hload & _ & Hrun & _ & _ & _
        & Hrep & _ & _).
  pose proof Hshape as [Hs1 _]%Forall_cons.
  exists d1, (v1 :: vs'), h0, (length h0), h'.
  split; [done|]. split; [done|]. split; [done|].
  split; [by apply lookup_ge_None|]. split; [done|].
  split; [intros k Hk; by apply merged_document_other_field|].
  split; [intros k Ha Hd; by apply merged_document_other_permission|].
  split; [apply merged_document_allow|].
  split; [apply merged_document_deny|].
  intros d k Hd Hk. apply permission_list_defined; [|done].
  by eapply Forall_forall in Hshape.
Qed.

(** Two settings files for the examples. *)
Definition example_base : json :=
  JObj [ (py "model", JStr (py "opus"));
         (k_permissions,
          JObj [ (k_allow, JArr [JStr (py "Bash(ls)"); JStr (py "Bash(ls)")]);
                 (py "defaultMode", JStr (py "plan")) ]) ].

Definition example_extra : json :=
  JObj [ (py "model", JStr (py "sonnet"));
         (k_permissions,
          JObj [ (k_deny, JArr [JStr (py "Bash(rm)")]);
                 (k_allow, JArr [JStr (py "Bash(pwd)");
                                 JStr (py "Bash(ls)")]) ]) ].

Definition example_docs : gmap pystr file :=
  {[ py "base.json" := Document example_base;
     py "extra.json" := Document example_extra ]}.

Lemma example_docs_load :
  Forall2 (λ f d, example_docs !! f = Some (Document d))
    [py "base.json"; py "extra.json"] [example_base; example_extra].
Proof. repeat constructor; by vm_compute. Qed.

Lemma example_docs_shape :
  Forall (λ d, permission_document d = true) [example_base; example_extra].
Proof. repeat constructor; by vm_compute. Qed.

Lemma merge_settings_files_combines_witness :
  ∃ m h',
    merge_settings_files example_docs [py "base.json"; py "extra.json"] []
    = Ok (VRef m, h')
    ∧ represents h' (merged_document [example_base; example_extra]) (VRef m)
      = true.
Proof.
  destruct (merge_settings_files_combines example_docs
              [py "base.json"; py "extra.json"]
              [example_base; example_extra] []
              ltac:(done) example_docs_load example_docs_shape)
    as (first & sl & h0 & m & h' & _ & _ & Hrun & _ & Hrep & _).
  by exists m, h'.
Defined.

(** Inside the call, for files that load to permission documents: every
    loaded document other than the first reads at the end as it was
    loaded; of the objects allocated for the loaded documents only the
    ["permissions"] dict of the first one can have changed, because the
    copy of the first document is shallow and shares it; and no object
    that existed before the call has changed. The loaded documents are
    objects of the call itself: they are reachable afterwards through the
    returned document only. *)
Lemma merge_settings_files_inside (docs : gmap pystr file)
    (files : list pystr) (ds : list json) (h : heap) :
  files ≠ [] →
  Forall2 (λ f d, docs !! f = Some (Document d)) files ds →
  Forall (λ d, permission_document d = true) ds →
  ∃ settings_list h0 m h',
    load_settings docs files h = Ok (settings_list, h0)
    ∧ merge_loaded settings_list h0 = Ok (m, h')
    ∧ merge_settings_files docs files h = Ok (m, h')
    ∧ Forall2 (λ d v, represents h0 d v = true) ds settings_list
    ∧ (∀ i d v, 0 < i → ds !! i = Some d → settings_list !! i = Some v →
         represents h' d v = true)
    ∧ (∀ l, l < length h0 →
         h' !! l = h0 !! l
         ∨ ∃ v1, settings_list !! 0 = Some v1
                 ∧ permissions_of h0 v1 = Some l)
    ∧ (∀ l, settings_list !! 0 = Some (VRef l) → h' !! l = h0 !! l)
    ∧ (∀ l items, h0 !! l = Some (OList items) →
         h' !! l = Some (OList items))
    ∧ (∀ d1 v1, ds !! 0 = Some d1 → settings_list !! 0 = Some v1 →
         json_get k_permissions d1 = None → represents h' d1 v1 = true)
    ∧ (∀ l, l < length h → h' !! l = h !! l).
Proof.
  intros Hne Hdocs Hshape.
  destruct (merge_settings_files_run docs files ds h Hne Hdocs Hshape)
    as (d1 & ds' & v1 & vs' & h0 & h' & -> & Hload & Hmerge & Hrun & Hlaid
        & Hlen0 & Hold & _ & Hlen' & Hframe).
  exists (v1 :: vs'), h0, (VRef (length h0)), h'.
  split; [done|]. split; [done|]. split; [done|].
  assert (Hrep0 : Forall2 (λ d v, represents h0 d v = true)
                    (d1 :: ds') (v1 :: vs')).
  { eapply laid_items_rep; [exact Hlaid|]. by intros l _. }
  split; [done|].
  pose proof Hlaid as Hlaid'.
  change (laid_out h0 (length h) d1 v1
          ∧ laid_items h0 (length h + cells d1) ds' vs') in Hlaid'.
  destruct Hlaid' as [Hd1 Hrest].
  rewrite fmap_cons in Hlen0.
  change (sum_list (cells d1 :: (cells <$> ds')))
    with (cells d1 + sum_list (cells <$> ds')) in Hlen0.
  split.
  { intros [|i] d v Hi Hd Hv; [lia|]. simpl in Hd, Hv.
    assert (Hall : Forall2 (λ d v, represents h' d v = true) ds' vs').
    { eapply laid_items_rep; [exact Hrest|]. intros l Hl.
      destruct (Hframe l ltac:(lia)) as [Heq|[_ ?]]; [done | lia]. }
    rewrite Forall2_lookup in Hall. specialize (Hall i).
    rewrite Hd, Hv in Hall. by inversion Hall. }
  split.
  { intros l Hl. destruct (Hframe l Hl) as [Heq|[Hp _]]; [by left|].
    right. by exists v1. }
  split.
  { intros l [= ->].
    assert (Hl : l < length h0).
    { apply Forall2_cons_1 in Hrep0 as [Hr1 _].
      apply Forall_cons in Hshape as [Hs1 _].
      destruct d1 as [| | | | |fields]; try done.
      apply represents_obj in Hr1 as (l1 & dv & [= <-] & Hl1 & _).
      by eapply lookup_lt_Some. }
    by destruct (Hframe l Hl) as [Heq|(_ & _ & _ & ?)]. }
  split.
  { intros l items Hl.
    destruct (Hframe l (lookup_lt_Some _ _ _ Hl))
      as [Heq|(_ & _ & [pd Hpd] & _)]; congruence. }
  split.
  { intros d v [= <-] [= <-] Hnone.
    eapply laid_out_represents, laid_out_agree; [|exact Hd1].
    intros l Hl. destruct (Hframe l ltac:(lia)) as [Heq|[Hp _]]; [done|].
    exfalso. apply Forall2_cons_1 in Hrep0 as [Hr1 _].
    apply Forall_cons in Hshape as [Hs1 _].
    destruct d1 as [| | | | |fields]; try done.
    apply represents_obj in Hr1 as (l1 & dv & -> & Hl1 & Hall).
    pose proof (all2_fields_get h0 k_permissions fields dv Hall) as Hget.
    cbn [json_get] in Hnone. rewrite Hnone in Hget.
    unfold permissions_of, view_of in Hp. by rewrite Hl1, Hget in Hp. }
  intros l Hl. destruct (Hframe l ltac:(lia)) as [Heq|[_ ?]]; [|lia].
  rewrite Heq. by apply Hold.
Qed.

(** A value keeps reading as the same document when the objects that
    existed are left as they are. *)
Lemma represents_frame (d : json) :
  ∀ (h h' : heap) (v : value),
    (∀ l, l < length h → h' !! l = h !! l) →
    represents h d v = true → represents h' d v = true.
Proof.
  induction d as [| b | z | s | items IH | fields IH] using json_induction;
    intros h h' v Hframe Hrep.
  - by destruct v.
  - by destruct v.
  - by destruct v.
  - by destruct v.
  - destruct v as [| | | |l]; try done. cbn [represents] in Hrep |- *.
    destruct (h !! l) as [[dv|vs]|] eqn:Hl; try done.
    rewrite (Hframe l (lookup_lt_Some _ _ _ Hl)), Hl.
    clear Hl. revert vs Hrep.
    induction IH as [|j items Hj _ IHl]; intros [|v vs]; try done.
    cbn [all2]. intros [Hv Hvs]%andb_true_iff.
    apply andb_true_iff. split; [by eapply Hj | by apply IHl].
  - destruct v as [| | | |l]; try done. cbn [represents] in Hrep |- *.
    destruct (h !! l) as [[dv|vs]|] eqn:Hl; try done.
    rewrite (Hframe l (lookup_lt_Some _ _ _ Hl)), Hl.
    clear Hl. revert dv Hrep.
    induction IH as [|[k j] fields Hj _ IHl]; intros [|[k' v] dv]; try done.
    cbn [all2 fst snd]. intros [[Hk Hv]%andb_true_iff Hd]%andb_true_iff.
    apply andb_true_iff. split; [|by apply IHl].
    apply andb_true_iff. split; [done | by eapply Hj].
Qed.

(** A store in which a caller holds the document of [base.json], loaded
    beforehand, as the value [VRef 2]. *)
Definition example_store : heap :=
  [ OList [VStr (py "Bash(ls)"); VStr (py "Bash(ls)")];
    ODict [ (k_allow, VRef 0); (py "defaultMode", VStr (py "plan")) ];
    ODict [ (py "model", VStr (py "opus")); (k_permissions, VRef 1) ] ].

(** C3. [merge_settings_files] has no side effect on what it is given.
    Its arguments are file names, and the input documents are the
    contents of the files, which it only reads. For every non-empty
    sequence of files that load to permission documents, and every
    store of objects at the time of the call, the call returns a document
    that is a new object, and after it every object that existed is
    unchanged: every value that read as a document before the call, the
    first input document and its ["permissions"] mapping and the
    ["allow"] and ["deny"] lists inside it included, reads as the same
    document. *)
Theorem merge_settings_files_no_side_effects (docs : gmap pystr file)
    (files : list pystr) (ds : list json) (h : heap) :
  files ≠ [] →
  Forall2 (λ f d, docs !! f = Some (Document d)) files ds →
  Forall (λ d, permission_document d = true) ds →
  ∃ m h',
    merge_settings_files docs files h = Ok (VRef m, h')
    ∧ length h ≤ m
    ∧ (∀ l, l < length h → h' !! l = h !! l)
    ∧ (∀ d v, represents h d v = true → represents h' d v = true).
Proof.
  intros Hne Hdocs Hshape.
  destruct (merge_settings_files_run docs files ds h Hne Hdocs Hshape)
    as (d1 & ds' & v1 & vs' & h0 & h' & _ & _ & _ & Hrun & _ & Hlen0
        & Hold & _ & _ & Hframe).
  assert (Hkept : ∀ l, l < length h → h' !! l = h !! l).
  { intros l Hl. destruct (Hframe l ltac:(lia)) as [Heq|(_ & ? & _)]; [|lia].
    rewrite Heq. by apply Hold. }
  exists (length h0), h'. split; [done|]. split; [lia|].
  split; [done|]. intros d v. by apply represents_frame.
Qed.

Lemma merge_settings_files_no_side_effects_witness :
  represents example_store example_base (VRef 2) = true
  ∧ ∃ m h',
      merge_settings_files example_docs [py "base.json"; py "extra.json"]
        example_store
      = Ok (VRef m, h')
      ∧ 3 ≤ m
      ∧ h' !! 1 = example_store !! 1
      ∧ represents h' example_base (VRef 2) = true.
Proof.
  split; [by vm_compute|].
  destruct (merge_settings_files_no_side_effects example_docs
              [py "base.json"; py "extra.json"]
              [example_base; example_extra] example_store
              ltac:(done) example_docs_load example_docs_shape)
    as (m & h' & Hrun & Hnew & Hkept & Hrep).
  exists m, h'. split; [done|]. split; [done|].
  split; [apply Hkept; simpl; lia|].
  apply Hrep. by vm_compute.
Defined.


(** C4. On an empty sequence of files [merge_settings_files] raises
    [ValueError] with the message of the guard instead of returning a
    document, and on a non-empty sequence it never raises [ValueError],
    whatever the files contain. *)
Theorem merge_settings_files_no_input (docs : gmap pystr file) (h : heap) :
  merge_settings_files docs [] h
  = Raise (ValueError "No files provided to merge")
  ∧ ∀ files, files ≠ [] →
      ∀ msg, merge_settings_files docs files h ≠ Raise (ValueError msg).
Proof.
  split; [done|]. intros [|f files] Hne msg; [done|].
  unfold merge_settings_files.
  apply quiet_bind.
  - apply quiet_mapM, quiet_load_json_file.
  - apply quiet_merge_loaded.
Qed.

Lemma merge_settings_files_no_input_witness :
  merge_settings_files example_docs [py "missing.json"] []
  ≠ Raise (ValueError "No files provided to merge").
Proof.
  apply (proj2 (merge_settings_files_no_input example_docs [])
           [py "missing.json"]).
  done.
Defined.

Lemma emitted_document_shape (l : list pystr) :
  permission_document (emitted_document l) = true.
Proof.
  unfold emitted_document, permission_document. cbn [dict_get].
  rewrite decide_True by done.
  unfold permissions_mapping, optional_string_array. cbn [dict_get].
  rewrite decide_True by done. rewrite decide_False by done.
  rewrite decide_True by done.
  rewrite string_array_strings. by vm_compute.
Qed.

Lemma merged_document_emitted (ps : list pystr) :
  NoDup ps → merged_document [emitted_document ps] = emitted_document ps.
Proof.
  intros Hnd. unfold merged_document, merged_list, defined_lists.
  cbn [omap list_omap].
  rewrite emitted_document_allow, emitted_document_deny.
  unfold merge_permission_lists.
  rewrite !merge_loop_first_occurrences. cbn [concat].
  rewrite !app_nil_r, (first_occurrences_NoDup_id ps) by done.
  unfold first_permissions, first_fields, emitted_document.
  by vm_compute.
Qed.

(** ** The characters of the serialized text *)

(** The printable ASCII characters, from the space to the tilde. *)
Definition printable (c : N) : Prop := (32 ≤ c ≤ 126)%N.

Lemma py_printable_digit (d : Decimal.uint) : Forall printable (digits d).
Proof.
  induction d; simpl; constructor; try done; unfold printable; lia.
Qed.

Lemma str_of_Z_printable (z : Z) : Forall printable (str_of_Z z).
Proof.
  destruct z; simpl.
  - constructor; [unfold printable; lia | constructor].
  - apply py_printable_digit.
  - constructor; [unfold printable; lia | apply py_printable_digit].
Qed.

Lemma hex_digit_printable (n : N) : (n < 16)%N → printable (hex_digit n).
Proof.
  intros Hn. unfold hex_digit, printable.
  destruct (N.ltb_spec n 10); lia.
Qed.

Lemma u_escape_printable (n : N) : Forall printable (u_escape n).
Proof.
  unfold u_escape.
  repeat (constructor; [first [apply hex_digit_printable; apply N.mod_lt; lia
                              | unfold printable; lia]|]).
  constructor.
Qed.

Lemma escape_char_printable (c : N) : Forall printable (escape_char c).
Proof.
  unfold escape_char.
  repeat (match goal with
          | |- context [(?a =? ?b)%N] => destruct (N.eqb_spec a b)
          end;
          [repeat (constructor; [unfold printable; lia|]); constructor|]).
  destruct (N.leb_spec 32 c), (N.leb_spec c 126); cbn [andb];
    try (constructor; [unfold printable; lia | constructor]).
  all: destruct (N.ltb_spec c 65536);
    [apply u_escape_printable
    | apply Forall_app; split; apply u_escape_printable].
Qed.

Lemma encode_string_printable (s : pystr) :
  Forall printable (encode_string s).
Proof.
  unfold encode_string. apply Forall_app. split.
  { constructor; [unfold printable; lia | constructor]. }
  apply Forall_app. split.
  - apply Forall_concat, Forall_fmap, Forall_forall.
    intros c _. apply escape_char_printable.
  - constructor; [unfold printable; lia | constructor].
Qed.

Lemma join_with_Forall {A} (P : N → Prop) (enc : A → pystr) (sep : pystr)
    (l : list A) :
  Forall P sep → Forall (λ x, Forall P (enc x)) l →
  Forall P (join_with enc sep l).
Proof.
  intros Hsep. induction 1 as [|x l Hx Hl IH]; [constructor|].
  destruct l as [|y l]; [done|].
  change (Forall P (enc x ++ sep ++ join_with enc sep (y :: l))).
  apply Forall_app. split; [done|]. apply Forall_app. by split.
Qed.

(** Every character the encoder emits is printable ASCII or comes from
    its separators and indentation. *)
Lemma encode_Forall (P : N → Prop) (e : encoder) :
  (∀ c, printable c → P c) →
  Forall P (item_separator e) → Forall P (key_separator e) →
  (∀ level, Forall P (newline_indent e level)) →
  ∀ j level, Forall P (encode e level j).
Proof.
  intros Hp Hitem Hkey Hnl.
  assert (Hpr : ∀ s, Forall printable s → Forall P s).
  { intros s Hs. eapply Forall_impl; [exact Hs | exact Hp]. }
  assert (Hlit : ∀ s, Forall printable (py s) → Forall P (py s)) by auto.
  induction j as [| b | z | s | items IH | fields IH] using json_induction;
    intros level.
  - apply Hpr. by vm_compute; repeat constructor.
  - apply Hpr. destruct b; by vm_compute; repeat constructor.
  - apply Hpr, str_of_Z_printable.
  - apply Hpr, encode_string_printable.
  - destruct items as [|j items].
    { apply Hpr. by vm_compute; repeat constructor. }
    change (Forall P
      (py "[" ++ newline_indent e (S level)
       ++ join_with (encode e (S level))
            (item_separator e ++ newline_indent e (S level)) (j :: items)
       ++ newline_indent e level ++ py "]")).
    apply Forall_app. split.
    { apply Hpr. by vm_compute; repeat constructor. }
    apply Forall_app. split; [apply Hnl|].
    apply Forall_app. split.
    { apply join_with_Forall; [apply Forall_app; by split|].
      eapply Forall_impl; [exact IH|]. intros j' Hj'. apply Hj'. }
    apply Forall_app. split; [apply Hnl|].
    apply Hpr. by vm_compute; repeat constructor.
  - destruct fields as [|kj fields].
    { apply Hpr. by vm_compute; repeat constructor. }
    change (Forall P
      (py "{" ++ newline_indent e (S level)
       ++ join_with
            (λ kj, encode_string kj.1 ++ key_separator e
                   ++ encode e (S level) kj.2)
            (item_separator e ++ newline_indent e (S level)) (kj :: fields)
       ++ newline_indent e level ++ py "}")).
    apply Forall_app. split.
    { apply Hpr. by vm_compute; repeat constructor. }
    apply Forall_app. split; [apply Hnl|].
    apply Forall_app. split.
    { apply join_with_Forall; [apply Forall_app; by split|].
      eapply Forall_impl; [exact IH|]. intros kj' Hkj'. cbv beta.
      apply Forall_app. split; [apply Hpr, encode_string_printable|].
      apply Forall_app. split; [done | apply Hkj']. }
    apply Forall_app. split; [apply Hnl|].
    apply Hpr. by vm_compute; repeat constructor.
Qed.

(** ** Parsing ([json.load]) *)

(** The outcome of the decoder. *)
Inductive decoded (A : Type) : Type :=
| Decoded (a : A)
| DecodeError             (* json.JSONDecodeError *)
| NotModelled.            (* the text holds a number that is not an
                             integer of the model: a fraction, an
                             exponent, NaN, Infinity, too many digits *)
Arguments Decoded {A} a.
Arguments DecodeError {A}.
Arguments NotModelled {A}.

#[global] Instance decoded_ret : MRet decoded := λ A a, Decoded a.
#[global] Instance decoded_bind : MBind decoded := λ A B f m,
  match m with
  | Decoded a => f a
  | DecodeError => DecodeError
  | NotModelled => NotModelled
  end.

(** [WHITESPACE]: space, tab, line feed, carriage return. *)
Definition is_json_ws (c : N) : bool :=
  ((c =? 32) || (c =? 9) || (c =? 10) || (c =? 13))%N.

Fixpoint skip_ws (s : pystr) : pystr :=
  match s with
  | c :: s' => if is_json_ws c then skip_ws s' else s
  | [] => []
  end.

(** The value of a hexadecimal digit. *)
Definition hex_value (c : N) : option N :=
  (if (48 <=? c) && (c <=? 57) then Some (c - 48)
   else if (97 <=? c) && (c <=? 102) then Some (c - 87)
   else if (65 <=? c) && (c <=? 70) then Some (c - 55)
   else None)%N.

(** The four digits of a [\uXXXX] escape. *)
Definition hex4 (h1 h2 h3 h4 : N) : option N :=
  d1 ← hex_value h1; d2 ← hex_value h2;
  d3 ← hex_value h3; d4 ← hex_value h4;
  Some (((d1 * 16 + d2) * 16 + d3) * 16 + d4)%N.

Definition is_high_surrogate (c : N) : bool :=
  ((55296 <=? c) && (c <=? 56319))%N.
Definition is_low_surrogate (c : N) : bool :=
  ((56320 <=? c) && (c <=? 57343))%N.

(** [BACKSLASH]: the character a one-letter escape stands for. *)
Definition unescape (esc : N) : option N :=
  (if esc =? 34 then Some 34
   else if esc =? 92 then Some 92
   else if esc =? 47 then Some 47
   else if esc =? 98 then Some 8
   else if esc =? 102 then Some 12
   else if esc =? 110 then Some 10
   else if esc =? 114 then Some 13
   else if esc =? 116 then Some 9
   else None)%N.

(** [scanstring(s, end, strict=True)]: [s] follows the opening quote and
    [chunks] is what has been read of the string. The result is the
    string and the text after the closing quote. A [\uXXXX] escape of a
    high surrogate followed by one of a low surrogate is read as the one
    character they encode. *)
Fixpoint scanstring (s : pystr) (chunks : pystr)
  : decoded (pystr * pystr) :=
  match s with
  | [] => DecodeError
  | c :: s1 =>
      if (c =? 34)%N then Decoded (chunks, s1)
      else if (c =? 92)%N then
        match s1 with
        | [] => DecodeError
        | esc :: s2 =>
            if (esc =? 117)%N then
              match s2 with
              | h1 :: h2 :: h3 :: h4 :: s3 =>
                  match hex4 h1 h2 h3 h4 with
                  | None => DecodeError
                  | Some uni =>
                      if is_high_surrogate uni then
                        match s3 with
                        | b :: u :: s4 =>
                            if ((b =? 92) && (u =? 117))%N then
                              match s4 with
                              | l1 :: l2 :: l3 :: l4 :: s5 =>
                                  match hex4 l1 l2 l3 l4 with
                                  | None => DecodeError
                                  | Some uni2 =>
                                      if is_low_surrogate uni2 then
                                        scanstring s5
                                          (chunks
                                           ++ [65536
                                               + N.lor
                                                   (N.shiftl (uni - 55296) 10)
                                                   (uni2 - 56320)]%N)
                                      else scanstring s3 (chunks ++ [uni])
                                  end
                              | _ => DecodeError
                              end
                            else scanstring s3 (chunks ++ [uni])
                        | _ => scanstring s3 (chunks ++ [uni])
                        end
                      else scanstring s3 (chunks ++ [uni])
                  end
              | _ => DecodeError
              end
            else
              match unescape esc with
              | Some ch => scanstring s2 (chunks ++ [ch])
              | None => DecodeError
              end
        end
      else if (c <? 32)%N then DecodeError
      else scanstring s1 (chunks ++ [c])
  end.

Definition is_digit (c : N) : bool := ((48 <=? c) && (c <=? 57))%N.

(** [int(digits)] *)
Definition int_of_digits (ds : pystr) : Z :=
  foldl (λ acc d, 10 * acc + (Z.of_N d - 48))%Z 0%Z ds.

(** Whether a fraction [\.[0-9]+] or an exponent [[eE][-+]?[0-9]+]
    follows the integer part. *)
Definition float_follows (s : pystr) : bool :=
  match s with
  | 46%N :: d :: _ => is_digit d
  | e :: s' =>
      ((e =? 101) || (e =? 69))%N
      && match s' with
         | d :: s'' =>
             is_digit d
             || ((d =? 43) || (d =? 45))%N
                && match s'' with d' :: _ => is_digit d' | [] => false end
         | [] => false
         end
  | [] => false
  end.

(** [NUMBER_RE.match]: [None] when the text does not start with a
    number. An integer of more than 4300 digits, which [int] refuses to
    convert by default, is left out of the model. *)
Definition match_number (s : pystr) : option (decoded (json * pystr)) :=
  let '(negative, s1) :=
    match s with 45%N :: s' => (true, s') | _ => (false, s) end in
  match s1 with
  | d :: s2 =>
      if is_digit d then
        let '(ds, rest) :=
          if (d =? 48)%N then ([], s2) else span is_digit s2 in
        if float_follows rest then Some NotModelled
        else if bool_decide (4300 < length (d :: ds)) then Some NotModelled
        else
          let n := int_of_digits (d :: ds) in
          Some (Decoded (JInt (if negative then - n else n)%Z, rest))
      else None
  | [] => None
  end.

(** [JSONArray], after the first value is known to be there: the values
    and the commas up to the closing bracket. [n] bounds the number of
    turns and is never used up when it is the length of the text. *)
Fixpoint array_items (scan : pystr → decoded (json * pystr)) (n : nat)
    (values : list json) (s : pystr) : decoded (json * pystr) :=
  match n with
  | 0 => DecodeError
  | S n' =>
      '(value, s1) ← scan s;
      match skip_ws s1 with
      | 93%N :: rest => Decoded (JArr (values ++ [value]), rest)
      | 44%N :: s2 => array_items scan n' (values ++ [value]) (skip_ws s2)
      | _ => DecodeError
      end
  end.

(** [JSONArray]: [s] follows the opening bracket. *)
Definition parse_array (scan : pystr → decoded (json * pystr)) (s : pystr)
  : decoded (json * pystr) :=
  match skip_ws s with
  | 93%N :: rest => Decoded (JArr [], rest)
  | s0 => array_items scan (length s0) [] s0
  end.

(** [JSONObject], from the first character of a key on: the members up
    to the closing brace; [dict(pairs)] keeps the last value of a key at
    the place of its first occurrence. *)
Fixpoint object_members (scan : pystr → decoded (json * pystr)) (n : nat)
    (pairs : list (pystr * json)) (s : pystr) : decoded (json * pystr) :=
  match n with
  | 0 => DecodeError
  | S n' =>
      '(key, s1) ← scanstring s [];
      match skip_ws s1 with
      | 58%N :: s2 =>
          '(value, s3) ← scan (skip_ws s2);
          match skip_ws s3 with
          | 125%N :: rest => Decoded (JObj (dict_set key value pairs), rest)
          | 44%N :: s4 =>
              match skip_ws s4 with
              | 34%N :: s5 =>
                  object_members scan n' (dict_set key value pairs) s5
              | _ => DecodeError
              end
          | _ => DecodeError
          end
      | _ => DecodeError
      end
  end.

(** [JSONObject]: [s] follows the opening brace. *)
Definition parse_object (scan : pystr → decoded (json * pystr)) (s : pystr)
  : decoded (json * pystr) :=
  match skip_ws s with
  | 125%N :: rest => Decoded (JObj [], rest)
  | 34%N :: s1 => object_members scan (length s1) [] s1
  | _ => DecodeError
  end.

(** [scan_once]: one value at the start of [s]. [fuel] bounds the
    nesting and is never used up when it exceeds the length of the
    text. *)
Fixpoint scan_once (fuel : nat) (s : pystr) : decoded (json * pystr) :=
  match fuel with
  | 0 => DecodeError
  | S fuel' =>
      match s with
      | [] => DecodeError
      | c :: s' =>
          if (c =? 34)%N then
            '(str, rest) ← scanstring s' []; Decoded (JStr str, rest)
          else if (c =? 123)%N then parse_object (scan_once fuel') s'
          else if (c =? 91)%N then parse_array (scan_once fuel') s'
          else if is_prefix (py "null") s then Decoded (JNull, drop 4 s)
          else if is_prefix (py "true") s then Decoded (JBool true, drop 4 s)
          else if is_prefix (py "false") s
          then Decoded (JBool false, drop 5 s)
          else
            match match_number s with
            | Some r => r
            | None =>
                if is_prefix (py "NaN") s || is_prefix (py "Infinity") s
                   || is_prefix (py "-Infinity") s
                then NotModelled
                else DecodeError
            end
      end
  end.

(** [json.loads(s)] for a [str]. *)
Definition json_loads (s : pystr) : decoded json :=
  match s with
  | 65279%N :: _ => DecodeError      (* a byte order mark *)
  | _ =>
      '(obj, rest) ← scan_once (S (length s)) (skip_ws s);
      match skip_ws rest with
      | [] => Decoded obj
      | _ :: _ => DecodeError        (* extra data *)
      end
  end.

(** [json.load(f)] for a file opened in text mode. *)
Definition json_load (text : pystr) : decoded json :=
  json_loads (universal_newlines text).

(** Linear arithmetic with division by constants. *)
Ltac div_lia := zify; Z.to_euclidean_division_equations; lia.

Lemma hex_value_hex_digit (d : N) :
  (d < 16)%N → hex_value (hex_digit d) = Some d.
Proof.
  intros Hd. unfold hex_digit, hex_value.
  destruct (N.ltb_spec d 10).
  - rewrite (proj2 (N.leb_le 48 (48 + d))) by lia.
    rewrite (proj2 (N.leb_le (48 + d) 57)) by lia.
    cbn [andb]. f_equal. lia.
  - rewrite (proj2 (N.leb_le 48 (87 + d))) by lia.
    rewrite (proj2 (N.leb_gt (87 + d) 57)) by lia.
    cbn [andb].
    rewrite (proj2 (N.leb_le 97 (87 + d))) by lia.
    rewrite (proj2 (N.leb_le (87 + d) 102)) by lia.
    cbn [andb]. f_equal. lia.
Qed.

Lemma hex4_u_escape (n : N) :
  (n < 65536)%N →
  hex4 (hex_digit (n / 4096 mod 16)) (hex_digit (n / 256 mod 16))
       (hex_digit (n / 16 mod 16)) (hex_digit (n mod 16)) = Some n.
Proof.
  intros Hn. unfold hex4.
  rewrite !hex_value_hex_digit by (apply N.mod_lt; lia).
  cbn [mbind option_bind]. f_equal.
  div_lia.
Qed.

Lemma lor_shifted (a b : N) (k : N) :
  (b < 2 ^ k)%N → N.lor (a * 2 ^ k) b = (a * 2 ^ k + b)%N.
Proof.
  intros Hb. rewrite N.add_nocarry_lxor; [rewrite N.lxor_lor; [done|]|].
  all: apply N.bits_inj_0; intros i; rewrite N.land_spec.
  all: destruct (N.lt_ge_cases i k) as [Hlt|Hge].
  all: try (rewrite N.mul_pow2_bits_low by done; done).
  all: assert (N.testbit b i = false) as ->;
    [|by rewrite andb_false_r].
  all: destruct (decide (b = 0%N)) as [->|Hb0]; [apply N.bits_0|].
  all: apply N.bits_above_log2; apply N.log2_lt_pow2; [lia|].
  all: eapply N.lt_le_trans; [exact Hb|]; apply N.pow_le_mono_r; lia.
Qed.

(** *** Strings that come back *)

(** A Unicode code point. *)
Definition code_point (c : N) : Prop := (c ≤ 1114111)%N.

(** No high surrogate is followed by a low surrogate. *)
Fixpoint pair_free (s : pystr) : bool :=
  match s with
  | c :: s' =>
      negb (is_high_surrogate c
            && match s' with c' :: _ => is_low_surrogate c' | [] => false end)
      && pair_free s'
  | [] => true
  end.

(** The two halves [escape_char] writes for a character beyond the basic
    plane. *)
Lemma surrogate_halves (c : N) :
  (65536 ≤ c)%N → code_point c →
  let n := (c - 65536)%N in
  N.lor 55296 (N.land (N.shiftr n 10) 1023) = (55296 + n / 1024)%N
  ∧ N.lor 56320 (N.land n 1023) = (56320 + n mod 1024)%N
  ∧ (n / 1024 < 1024)%N.
Proof.
  intros Hc Hcp. unfold code_point in Hcp. cbn zeta.
  set (n := (c - 65536)%N).
  assert (Hn : (n < 1048576)%N) by (unfold n; lia).
  assert (Hq : (n / 1024 < 1024)%N).
  { apply N.Div0.div_lt_upper_bound. lia. }
  change 1023%N with (N.ones 10). rewrite !N.land_ones.
  rewrite N.shiftr_div_pow2. change (2 ^ 10)%N with 1024%N.
  rewrite (N.mod_small (n / 1024) 1024) by done.
  change 55296%N with (54 * 2 ^ 10)%N. change 56320%N with (55 * 2 ^ 10)%N.
  rewrite !lor_shifted; [done | |].
  - change (2 ^ 10)%N with 1024%N. apply N.mod_lt. lia.
  - by change (2 ^ 10)%N with 1024%N.
Qed.

(** After a high surrogate, the text does not go on with the escape of a
    low surrogate. *)
Definition no_low_ahead (r : pystr) : Prop :=
  match r with
  | b :: u :: s4 =>
      ((b =? 92) && (u =? 117))%N = true →
      ∃ l1 l2 l3 l4 s5 uni2,
        s4 = l1 :: l2 :: l3 :: l4 :: s5
        ∧ hex4 l1 l2 l3 l4 = Some uni2
        ∧ is_low_surrogate uni2 = false
  | _ => True
  end.

Lemma scanstring_u_escape (c : N) (r chunks : pystr) :
  (c < 65536)%N →
  (is_high_surrogate c = true → no_low_ahead r) →
  scanstring (u_escape c ++ r) chunks = scanstring r (chunks ++ [c]).
Proof.
  intros Hc Hahead. unfold u_escape. cbn [app scanstring N.eqb Pos.eqb].
  rewrite hex4_u_escape by done.
  destruct (is_high_surrogate c); [|done].
  specialize (Hahead eq_refl).
  destruct r as [|b [|u s4]]; try done. cbn [no_low_ahead] in Hahead.
  destruct ((b =? 92) && (u =? 117))%N; [|done].
  destruct (Hahead eq_refl) as (l1 & l2 & l3 & l4 & s5 & uni2 & -> & -> & ->).
  done.
Qed.

Lemma scanstring_pair (c : N) (r chunks : pystr) :
  (65536 ≤ c)%N → code_point c →
  scanstring (escape_char c ++ r) chunks = scanstring r (chunks ++ [c]).
Proof.
  intros Hc Hcp. destruct (surrogate_halves c Hc Hcp) as (Hhi & Hlo & Hq).
  unfold escape_char.
  repeat (match goal with
          | |- context [(c =? ?k)%N] =>
              rewrite (proj2 (N.eqb_neq c k)) by lia
          end).
  rewrite (proj2 (N.leb_le 32 c)) by lia.
  rewrite (proj2 (N.leb_gt c 126)) by lia. cbn [andb].
  rewrite (proj2 (N.ltb_ge c 65536)) by lia. cbn zeta.
  rewrite Hhi, Hlo.
  assert (Hn : (c = 65536 + (c - 65536))%N) by lia.
  revert Hn Hq. generalize (c - 65536)%N. intros n Hn Hq.
  set (hi := (55296 + n / 1024)%N). set (lo := (56320 + n mod 1024)%N).
  assert (Hm : (n mod 1024 < 1024)%N) by (apply N.mod_lt; lia).
  rewrite <- app_assoc.
  unfold u_escape at 1. cbn [app scanstring N.eqb Pos.eqb].
  rewrite hex4_u_escape by (unfold hi; clear -Hq; div_lia).
  assert (is_high_surrogate hi = true) as ->.
  { unfold is_high_surrogate, hi. apply andb_true_iff.
    clear -Hq. split; apply N.leb_le; div_lia. }
  unfold u_escape. cbn [app N.eqb Pos.eqb andb].
  rewrite hex4_u_escape by (unfold lo; clear -Hm; div_lia).
  assert (is_low_surrogate lo = true) as ->.
  { unfold is_low_surrogate, lo. apply andb_true_iff.
    clear -Hm. split; apply N.leb_le; div_lia. }
  do 3 f_equal.
  rewrite N.shiftl_mul_pow2, lor_shifted.
  - change (2 ^ 10)%N with 1024%N. unfold hi, lo. rewrite Hn.
    div_lia.
  - change (2 ^ 10)%N with 1024%N. unfold lo. clear -Hm. div_lia.
Qed.

Lemma scanstring_step (c : N) (r chunks : pystr) :
  code_point c →
  (is_high_surrogate c = true → no_low_ahead r) →
  scanstring (escape_char c ++ r) chunks = scanstring r (chunks ++ [c]).
Proof.
  intros Hcp Hahead.
  destruct (N.lt_ge_cases c 65536) as [Hlt|Hge];
    [|by apply scanstring_pair].
  unfold escape_char.
  repeat (match goal with
          | |- context [(c =? ?k)%N] =>
              destruct (N.eqb_spec c k) as [->|?]; [done|]
          end).
  destruct ((32 <=? c) && (c <=? 126))%N eqn:Hprint.
  - apply andb_true_iff in Hprint as [H1%N.leb_le H2%N.leb_le].
    cbn [app scanstring].
    rewrite (proj2 (N.eqb_neq c 34)), (proj2 (N.eqb_neq c 92)) by done.
    by rewrite (proj2 (N.ltb_ge c 32)) by done.
  - rewrite (proj2 (N.ltb_lt c 65536)) by done.
    by apply scanstring_u_escape.
Qed.

Lemma no_low_ahead_escape (c : N) (r : pystr) :
  code_point c → is_low_surrogate c = false →
  no_low_ahead (escape_char c ++ r).
Proof.
  intros Hcp Hlow.
  destruct (N.lt_ge_cases c 65536) as [Hlt|Hge].
  - unfold escape_char.
    repeat (match goal with
            | |- context [(c =? ?k)%N] =>
                destruct (N.eqb_spec c k) as [->|?]; [done|]
            end).
    destruct ((32 <=? c) && (c <=? 126))%N eqn:Hprint.
    + cbn [app]. destruct r as [|u s4]; [done|]. cbn [no_low_ahead].
      by rewrite (proj2 (N.eqb_neq c 92)) by done.
    + rewrite (proj2 (N.ltb_lt c 65536)) by done.
      unfold u_escape. cbn [app no_low_ahead]. intros _.
      eexists _, _, _, _, _, c. split; [done|].
      split; [by apply hex4_u_escape | done].
  - destruct (surrogate_halves c Hge Hcp) as (Hhi & _ & Hq).
    unfold escape_char.
    repeat (match goal with
            | |- context [(c =? ?k)%N] =>
                rewrite (proj2 (N.eqb_neq c k)) by lia
            end).
    rewrite (proj2 (N.leb_le 32 c)) by lia.
    rewrite (proj2 (N.leb_gt c 126)) by lia. cbn [andb].
    rewrite (proj2 (N.ltb_ge c 65536)) by lia. cbn zeta.
    rewrite Hhi. rewrite <- app_assoc.
    unfold u_escape at 1. cbn [app no_low_ahead]. intros _.
    eexists _, _, _, _, _, _. split; [done|].
    split; [apply hex4_u_escape; clear -Hq; div_lia|].
    unfold is_low_surrogate. apply andb_false_iff. left.
    apply N.leb_gt. clear -Hq. div_lia.
Qed.

Lemma no_low_ahead_quote (rest : pystr) : no_low_ahead (34%N :: rest).
Proof. by destruct rest. Qed.

(** The scanner reads back what [encode_string] wrote. *)
Lemma scanstring_escaped (s : pystr) :
  ∀ chunks rest,
    Forall code_point s → pair_free s = true →
    scanstring (concat (escape_char <$> s) ++ 34%N :: rest) chunks
    = Decoded (chunks ++ s, rest).
Proof.
  induction s as [|c s IH]; intros chunks rest Hcp Hfree.
  - cbn. by rewrite app_nil_r.
  - apply Forall_cons in Hcp as [Hc Hcp].
    cbn [pair_free] in Hfree. apply andb_true_iff in Hfree as [Hpair Hfree].
    csimpl. rewrite <- app_assoc. rewrite scanstring_step; [|done|].
    + rewrite IH by done. by rewrite <- app_assoc.
    + intros Hhigh. rewrite Hhigh in Hpair. cbn [andb] in Hpair.
      destruct s as [|c' s]; [apply no_low_ahead_quote|].
      csimpl. rewrite <- app_assoc. apply Forall_cons in Hcp as [Hc' _].
      apply no_low_ahead_escape; [done|]. by apply negb_true_iff.
Qed.

Lemma scan_once_string (fuel : nat) (s rest : pystr) :
  Forall code_point s → pair_free s = true →
  scan_once (S fuel) (encode_string s ++ rest) = Decoded (JStr s, rest).
Proof.
  intros Hcp Hfree. unfold encode_string.
  cbn [app scan_once N.eqb Pos.eqb].
  rewrite <- app_assoc. cbn [app].
  by rewrite scanstring_escaped.
Qed.

(** *** The text of an emitted document *)

(** The encoder of [json.dump(..., indent=2)]. *)
Definition indent2 : encoder :=
  Encoder (py ",") (py ": ") (Some (replicate 2 32%N)).

(** A string as the decoder returns it unchanged. *)
Definition plain_string (s : pystr) : Prop :=
  Forall code_point s ∧ pair_free s = true.

Lemma skip_ws_spaces (k : nat) (c : N) (r : pystr) :
  is_json_ws c = false →
  skip_ws (concat (replicate k (replicate 2 32%N)) ++ c :: r) = c :: r.
Proof.
  intros Hc. induction k as [|k IH]; [by cbn; rewrite Hc|].
  cbn [replicate concat app skip_ws is_json_ws N.eqb Pos.eqb orb].
  exact IH.
Qed.

Lemma skip_ws_indent (k : nat) (c : N) (r : pystr) :
  is_json_ws c = false →
  skip_ws (newline_indent indent2 k ++ c :: r) = c :: r.
Proof.
  intros Hc. unfold newline_indent, indent2. cbn [enc_indent app skip_ws].
  change (is_json_ws c_lf) with true. cbn iota.
  by apply skip_ws_spaces.
Qed.

(** The elements of a non-empty array of strings, with their
    separators. *)
Definition items_text (ps : list pystr) : pystr :=
  join_with (encode indent2 3)
    (item_separator indent2 ++ newline_indent indent2 3) (JStr <$> ps).

Lemma items_text_cons (p : pystr) (ps : list pystr) :
  items_text (p :: ps)
  = encode_string p
    ++ match ps with
       | [] => []
       | _ => (44%N :: newline_indent indent2 3) ++ items_text ps
       end.
Proof.
  destruct ps as [|p' ps]; [by unfold items_text; cbn; rewrite app_nil_r|].
  done.
Qed.

Lemma items_text_head (p : pystr) (ps : list pystr) :
  ∃ tail, items_text (p :: ps) = 34%N :: tail.
Proof. rewrite items_text_cons. unfold encode_string. by eexists. Qed.

Lemma length_items_text (ps : list pystr) :
  length ps ≤ length (items_text ps).
Proof.
  induction ps as [|p ps IH]; [simpl; lia|].
  rewrite items_text_cons, length_app. unfold encode_string.
  rewrite !length_app. cbn [length].
  destruct ps as [|p' ps]; [simpl; lia|].
  rewrite length_app. simpl in *. lia.
Qed.

Lemma array_items_strings (f : nat) (ps : list pystr) :
  ∀ n values post rest,
    ps ≠ [] → Forall plain_string ps → length ps ≤ n →
    skip_ws post = 93%N :: rest →
    array_items (scan_once (S f)) n values (items_text ps ++ post)
    = Decoded (JArr (values ++ (JStr <$> ps)), rest).
Proof.
  induction ps as [|p ps IH]; intros n values post rest Hne Hall Hn Hpost;
    [done|].
  apply Forall_cons in Hall as [[Hcp Hfree] Hall].
  destruct n as [|n]; [simpl in Hn; lia|].
  rewrite items_text_cons, <- app_assoc. cbn [array_items].
  rewrite scan_once_string by done. cbn [mbind decoded_bind].
  destruct ps as [|p' ps].
  - cbn [app]. rewrite Hpost. done.
  - rewrite <- app_assoc. cbn [app skip_ws is_json_ws N.eqb Pos.eqb orb].
    destruct (items_text_head p' ps) as [tail Htail].
    rewrite Htail. cbn [app]. rewrite skip_ws_indent by done.
    change (34%N :: tail ++ post) with ((34%N :: tail) ++ post).
    rewrite <- Htail. rewrite (IH n _ post rest); [|done|done| |done].
    + by rewrite <- app_assoc.
    + simpl in Hn. simpl. lia.
Qed.

Lemma universal_newlines_id (s : pystr) :
  c_cr ∉ s → universal_newlines s = s.
Proof.
  induction s as [|c s IH]; [done|].
  rewrite not_elem_of_cons. intros [Hc Hs]. simpl.
  rewrite decide_False by done. by rewrite IH.
Qed.

(** What comes before and after the elements in the text of an
    emitted document with at least one pattern. *)
Definition emitted_prefix : pystr :=
  Eval vm_compute in
    py "{" ++ newline_indent indent2 1
    ++ encode_string k_permissions ++ py ": {" ++ newline_indent indent2 2
    ++ encode_string k_allow ++ py ": [" ++ newline_indent indent2 3.

Definition emitted_suffix : pystr :=
  Eval vm_compute in
    newline_indent indent2 2 ++ py "],"
    ++ newline_indent indent2 2
    ++ encode_string k_deny ++ py ": []"
    ++ newline_indent indent2 1 ++ py "}" ++ newline_indent indent2 0
    ++ py "}".

Lemma emitted_text (p : pystr) (ps : list pystr) :
  json_dumps_indent 2 (emitted_document (p :: ps))
  = emitted_prefix ++ items_text (p :: ps) ++ emitted_suffix.
Proof.
  unfold json_dumps_indent, emitted_document, items_text. fold indent2.
  cbn [encode join_with fst snd fmap list_fmap].
  match goal with
  | |- context [?m ++ newline_indent indent2 2 ++ py "]"] => generalize m
  end.
  intros items. rewrite <- !app_assoc. by vm_compute.
Qed.

Lemma emitted_text_no_cr (ps : list pystr) :
  c_cr ∉ json_dumps_indent 2 (emitted_document ps).
Proof.
  intros Hin.
  assert (Hall : Forall (λ c, c ≠ c_cr)
                   (json_dumps_indent 2 (emitted_document ps))).
  { apply encode_Forall; cbn [item_separator key_separator].
    - unfold printable. intros c Hc ->. by vm_compute in Hc; destruct Hc.
    - by repeat constructor.
    - by repeat constructor.
    - intros level. unfold newline_indent. cbn [enc_indent].
      constructor; [done|].
      by apply Forall_concat, Forall_replicate, Forall_replicate. }
  rewrite Forall_forall in Hall. by apply (Hall c_cr).
Qed.

(** The steps of the decoder on an object and an array. *)
Lemma scan_once_object (f : nat) (s : pystr) :
  scan_once (S f) (123%N :: s) = parse_object (scan_once f) s.
Proof. done. Qed.

Lemma scan_once_array (f : nat) (s : pystr) :
  scan_once (S f) (91%N :: s) = parse_array (scan_once f) s.
Proof. done. Qed.

Lemma parse_object_members (scan : pystr → decoded (json * pystr))
    (s s1 : pystr) :
  skip_ws s = 34%N :: s1 →
  parse_object scan s = object_members scan (length s1) [] s1.
Proof. intros Hs. unfold parse_object. by rewrite Hs. Qed.

Lemma parse_array_strings (scan : pystr → decoded (json * pystr))
    (s r : pystr) :
  skip_ws s = 34%N :: r →
  parse_array scan s
  = array_items scan (length (34%N :: r)) [] (34%N :: r).
Proof. intros Hs. unfold parse_array. by rewrite Hs. Qed.

Lemma object_members_last (scan : pystr → decoded (json * pystr))
    (n : nat) (pairs : list (pystr * json))
    (s key s1 s2 s3 rest : pystr) (value : json) :
  scanstring s [] = Decoded (key, s1) →
  skip_ws s1 = 58%N :: s2 →
  scan (skip_ws s2) = Decoded (value, s3) →
  skip_ws s3 = 125%N :: rest →
  object_members scan (S n) pairs s
  = Decoded (JObj (dict_set key value pairs), rest).
Proof.
  intros Hkey Hcolon Hvalue Hclose. cbn [object_members].
  rewrite Hkey. cbn [mbind decoded_bind]. rewrite Hcolon, Hvalue.
  cbn [mbind decoded_bind]. by rewrite Hclose.
Qed.

Lemma object_members_more (scan : pystr → decoded (json * pystr))
    (n : nat) (pairs : list (pystr * json))
    (s key s1 s2 s3 s4 s5 : pystr) (value : json) :
  scanstring s [] = Decoded (key, s1) →
  skip_ws s1 = 58%N :: s2 →
  scan (skip_ws s2) = Decoded (value, s3) →
  skip_ws s3 = 44%N :: s4 →
  skip_ws s4 = 34%N :: s5 →
  object_members scan (S n) pairs s
  = object_members scan n (dict_set key value pairs) s5.
Proof.
  intros Hkey Hcolon Hvalue Hcomma Hquote. cbn [object_members].
  rewrite Hkey. cbn [mbind decoded_bind]. rewrite Hcolon, Hvalue.
  cbn [mbind decoded_bind]. by rewrite Hcomma, Hquote.
Qed.

(** What follows the closing bracket of the ["allow"] array. *)
Definition emitted_rest : pystr :=
  Eval vm_compute in
    py "," ++ newline_indent indent2 2
    ++ encode_string k_deny ++ py ": []"
    ++ newline_indent indent2 1 ++ py "}" ++ newline_indent indent2 0
    ++ py "}".

Ltac decode_step :=
  cbn [skip_ws is_json_ws scanstring unescape app length
       N.eqb Pos.eqb N.ltb N.compare Pos.compare Pos.compare_cont orb andb
       mbind decoded_bind];
  reflexivity.

Lemma scan_once_emitted (f : nat) (p : pystr) (ps : list pystr) :
  Forall plain_string (p :: ps) →
  scan_once (S (S (S (S f))))
    (emitted_prefix ++ items_text (p :: ps) ++ emitted_suffix)
  = Decoded (emitted_document (p :: ps), []).
Proof.
  intros Hall.
  assert (Harr : ∀ n, length (p :: ps) ≤ n →
            array_items (scan_once (S f)) n []
              (items_text (p :: ps) ++ emitted_suffix)
            = Decoded (JArr (JStr <$> p :: ps), emitted_rest)).
  { intros n Hn.
    by rewrite (array_items_strings f (p :: ps) n [] emitted_suffix
                  emitted_rest). }
  assert (Hlen : length (p :: ps)
                 ≤ length (items_text (p :: ps) ++ emitted_suffix)).
  { rewrite length_app. pose proof (length_items_text (p :: ps)). lia. }
  destruct (items_text_head p ps) as [tail Htail].
  assert (Hhead : items_text (p :: ps) ++ emitted_suffix
                  = 34%N :: tail ++ emitted_suffix) by by rewrite Htail.
  revert Harr Hlen Hhead.
  generalize (items_text (p :: ps) ++ emitted_suffix).
  generalize (tail ++ emitted_suffix). clear tail Htail.
  intros btail body Harr Hlen Hhead.
  unfold emitted_prefix. cbn [app].
  rewrite scan_once_object.
  erewrite parse_object_members; [|decode_step].
  cbn [length].
  erewrite object_members_last; cycle 1.
  - decode_step.
  - decode_step.
  - cbn [skip_ws is_json_ws N.eqb Pos.eqb orb].
    rewrite scan_once_object.
    erewrite parse_object_members; [|decode_step].
    cbn [length].
    erewrite object_members_more; cycle 1.
    + decode_step.
    + decode_step.
    + cbn [skip_ws is_json_ws N.eqb Pos.eqb orb].
      rewrite scan_once_array.
      erewrite parse_array_strings; last first.
      { cbn [skip_ws is_json_ws N.eqb Pos.eqb orb].
        rewrite Hhead. decode_step. }
      rewrite <- Hhead. apply Harr. done.
    + unfold emitted_rest. decode_step.
    + decode_step.
    + erewrite object_members_last; cycle 1.
      * decode_step.
      * decode_step.
      * cbn [skip_ws is_json_ws N.eqb Pos.eqb orb].
        rewrite scan_once_array. unfold parse_array.
        cbn [skip_ws is_json_ws N.eqb Pos.eqb orb]. reflexivity.
      * decode_step.
      * cbn [dict_set]. rewrite decide_False by done. reflexivity.
  - decode_step.
  - reflexivity.
Qed.

(** [json.load] returns the emitted document from the text
    [json.dump(..., indent=2)] writes for it, when no pattern holds a
    surrogate pair. *)
Lemma json_load_emitted (ps : list pystr) :
  Forall plain_string ps →
  json_load (json_dumps_indent 2 (emitted_document ps))
  = Decoded (emitted_document ps).
Proof.
  intros Hall. unfold json_load.
  rewrite universal_newlines_id by apply emitted_text_no_cr.
  destruct ps as [|p ps]; [by vm_compute|].
  rewrite emitted_text.
  set (body := items_text (p :: ps) ++ emitted_suffix).
  assert (Hrun : ∀ f, scan_once (S (S (S (S f)))) (emitted_prefix ++ body)
                      = Decoded (emitted_document (p :: ps), []))
    by (intros f; by apply scan_once_emitted).
  clearbody body. unfold json_loads.
  unfold emitted_prefix in *. cbn [app length skip_ws is_json_ws
    N.eqb Pos.eqb orb] in *.
  by rewrite Hrun.
Qed.

Lemma plain_string_check (s : pystr) :
  forallb (λ c, c <=? 1114111)%N s && pair_free s = true → plain_string s.
Proof.
  intros [Hcp Hfree]%andb_true_iff. split; [|done].
  apply Forall_forall. intros c Hc.
  rewrite forallb_forall in Hcp. apply N.leb_le, Hcp.
  by apply list_elem_of_In.
Qed.

(** *** From the emitter to the merger *)

(** What [load_json_file] finds in a file that holds [text]. *)
Inductive loaded (text : pystr) : file → Prop :=
| loaded_document j :
    json_load text = Decoded j → loaded text (Document j)
| loaded_malformed :
    json_load text = DecodeError → loaded text Malformed
| loaded_not_modelled fl :
    json_load text = NotModelled → loaded text fl.

(** C7 as it is stated, for Python strings: the document of any pairwise
    distinct patterns, written to a file the way [process_file] writes
    it and given to the merger as its only input, comes back with the
    same ["allow"] list and an empty ["deny"] list. *)
Definition round_trip_for_all : Prop :=
  ∀ (ps : list pystr) (docs : gmap pystr file) (filepath : pystr)
    (fl : file) (h : heap),
    NoDup ps → Forall (Forall code_point) ps →
    docs !! filepath = Some fl →
    loaded (json_dumps_indent 2 (create_permissions_json ps)) fl →
    ∃ m h' merged,
      merge_settings_files docs [filepath] h = Ok (VRef m, h')
      ∧ represents h' merged (VRef m) = true
      ∧ permission_list k_allow merged = Some ps
      ∧ permission_list k_deny merged = Some [].

(** A pattern made of the two surrogates of U+1F600, and the pattern
    made of that one character. *)
Definition example_surrogates : pystr := [55357%N; 56832%N].
Definition example_astral : pystr := [128512%N].

(** C7, counterexample. The two patterns are different strings, and
    [json.dump] writes both as the same text, the escape of the high
    surrogate followed by the escape of the low one; [json.load] reads
    that text as the single character, so the pattern of two surrogates
    does not come back. *)
Lemma surrogate_pair_does_not_round_trip :
  example_surrogates ≠ example_astral
  ∧ json_dumps_indent 2 (create_permissions_json [example_surrogates])
    = json_dumps_indent 2 (create_permissions_json [example_astral])
  ∧ json_load
      (json_dumps_indent 2 (create_permissions_json [example_surrogates]))
    = Decoded (create_permissions_json [example_astral])
  ∧ ¬ round_trip_for_all.
Proof.
  split; [done|]. split; [by vm_compute|]. split; [by vm_compute|].
  intros Hclaim.
  set (doc := create_permissions_json [example_astral]).
  destruct (Hclaim [example_surrogates] {[ py "gh.json" := Document doc ]}
              (py "gh.json") (Document doc) [])
    as (m & h' & merged & Hrun & Hrep & Hallow & _).
  - apply NoDup_singleton.
  - constructor; [|constructor].
    constructor; [by vm_compute|]. constructor; [by vm_compute|].
    constructor.
  - apply lookup_singleton_eq.
  - apply loaded_document. by vm_compute.
  - destruct (merge_settings_files_run {[ py "gh.json" := Document doc ]}
                [py "gh.json"] [doc] [])
      as (d1 & ds' & v1 & vs' & h0 & h2 & _ & _ & _ & Hrun' & _ & _ & _
          & Hrep' & _); [done | | |].
    { constructor; [apply lookup_singleton_eq | constructor]. }
    { constructor; [by vm_compute | constructor]. }
    rewrite Hrun in Hrun'. injection Hrun' as -> ->.
    pose proof (represents_functional _ _ _ _ Hrep Hrep') as ->.
    by vm_compute in Hallow.
Qed.

(** C7, amended. For every list of pairwise distinct Python strings in
    which no high surrogate is followed by a low surrogate, as in every
    string read from a text file, the document that
    [create_permissions_json] makes of the list, written to a file the
    way [process_file] writes it and read by [load_json_file], comes back
    from [merge_settings_files], given that file as its only input, as
    an equal document: the result reads as [create_permissions_json ps],
    whose ["allow"] is the list and whose ["deny"] is empty. *)
Theorem emit_then_merge_round_trip (ps : list pystr)
    (docs : gmap pystr file) (filepath : pystr) (fl : file) (h : heap) :
  NoDup ps → Forall plain_string ps →
  docs !! filepath = Some fl →
  loaded (json_dumps_indent 2 (create_permissions_json ps)) fl →
  let doc := create_permissions_json ps in
  ∃ m h',
    merge_settings_files docs [filepath] h = Ok (VRef m, h')
    ∧ represents h' doc (VRef m) = true
    ∧ permission_list k_allow doc = Some ps
    ∧ permission_list k_deny doc = Some [].
Proof.
  intros Hnd Hplain Hfile Hloaded. cbn zeta.
  rewrite create_permissions_json_distinct in * by done.
  assert (fl = Document (emitted_document ps)) as ->.
  { destruct Hloaded as [j Hj| Hj | fl Hj];
      rewrite json_load_emitted in Hj by done; congruence. }
  destruct (merge_settings_files_run docs [filepath] [emitted_document ps] h)
    as (d1 & ds' & v1 & vs' & h0 & h' & [= <- <-] & _ & _ & Hrun & _ & _ & _
        & Hrep & _ & _).
  { done. }
  { constructor; [exact Hfile | constructor]. }
  { constructor; [apply emitted_document_shape | constructor]. }
  exists (length h0), h'. split; [done|].
  rewrite merged_document_emitted in Hrep by done.
  split; [done|]. split; [apply emitted_document_allow|].
  apply emitted_document_deny.
Qed.

Lemma emit_then_merge_round_trip_witness :
  ∃ m h',
    merge_settings_files
      {[ py "gh.json" :=
           Document (create_permissions_json
                       [py "Bash(ls)"; [233%N; 128512%N; 55357%N]]) ]}
      [py "gh.json"] []
    = Ok (VRef m, h')
    ∧ represents h'
        (create_permissions_json [py "Bash(ls)"; [233%N; 128512%N; 55357%N]])
        (VRef m) = true.
Proof.
  destruct (emit_then_merge_round_trip
              [py "Bash(ls)"; [233%N; 128512%N; 55357%N]]
              {[ py "gh.json" :=
                   Document (create_permissions_json
                               [py "Bash(ls)"; [233%N; 128512%N; 55357%N]]) ]}
              (py "gh.json")
              (Document (create_permissions_json
                           [py "Bash(ls)"; [233%N; 128512%N; 55357%N]]))
              [])
    as (m & h' & Hrun & Hrep & _).
  - apply (bool_decide_unpack _). by vm_compute.
  - constructor; [by apply plain_string_check; vm_compute|].
    constructor; [by apply plain_string_check; vm_compute|]. constructor.
  - apply lookup_singleton_eq.
  - apply loaded_document. by vm_compute.
  - by exists m, h'.
Defined.

(** The output block, when the backup is taken. *)
Lemma write_output_backup (fuel : nat) (args : arguments) (output : pystr)
    (w : world) (out : path) (content : pystr) (n : nat) :
  arg_output args = Some out →
  arg_no_backup args = false → arg_force args = false →
  names_a_file out →
  files w !! out = Some content →
  first_free_backup w out n → n ≤ fuel →
  ∃ w',
    write_output fuel args output w = Ok (Some w')
    ∧ files w'
      = <[out := output ++ [c_lf]]>
          (<[nth_backup out n := content]> (files w)).
Proof.
  intros Hout Hnb Hf Hname Hcontent Hfree Hfuel.
  unfold write_output. rewrite Hout, Hnb, Hf.
  unfold path_exists at 1. rewrite Hcontent.
  rewrite bool_decide_eq_true_2 by eauto. cbn [andb orb negb].
  rewrite (make_backup_spec fuel out w content n) by done.
  cbn [mbind result_bind]. eexists. split; [done|]. done.
Qed.

(** C8. When the destination already exists and neither [--no-backup]
    nor [--force] is given, the output block (given as many turns of its
    search loop as there are files) first copies the destination to the
    first name of the sequence [<path>.bak], [<path>.bak.1],
    [<path>.bak.2], ... that does not exist, and then writes the
    destination: the names before it in the sequence exist and are left
    as they are, and no file other than the destination is
    overwritten. *)
Theorem backup_goes_to_first_free_name (fuel : nat) (args : arguments)
    (output : pystr) (w : world) (out : path) (content : pystr) :
  arg_output args = Some out →
  arg_no_backup args = false → arg_force args = false →
  names_a_file out →
  files w !! out = Some content →
  size (files w) ≤ fuel →
  ∃ n w',
    write_output fuel args output w = Ok (Some w')
    ∧ files w !! nth_backup out n = None
    ∧ (∀ i, i < n → is_Some (files w !! nth_backup out i))
    ∧ files w' !! nth_backup out n = Some content
    ∧ files w' !! out = Some (output ++ [c_lf])
    ∧ (∀ q, q ≠ out → q ≠ nth_backup out n →
         files w' !! q = files w !! q)
    ∧ (∀ q, q ≠ out → is_Some (files w !! q) →
         files w' !! q = files w !! q).
Proof.
  intros Hout Hnb Hf Hname Hcontent Hfuel.
  destruct (first_free_backup_exists w out) as (n & Hn & Hfree).
  destruct (write_output_backup fuel args output w out content n)
    as (w' & Hrun & Hfiles); try done; [lia|].
  destruct Hfree as [Hfree Hbefore].
  assert (Hnone : files w !! nth_backup out n = None).
  { unfold path_exists in Hfree. apply bool_decide_eq_false in Hfree.
    by apply eq_None_not_Some. }
  exists n, w'. split; [done|]. split; [done|].
  split.
  { intros i Hi. specialize (Hbefore i Hi).
    by apply bool_decide_eq_true in Hbefore. }
  rewrite Hfiles.
  split.
  { rewrite lookup_insert_ne by (apply not_eq_sym, nth_backup_ne).
    apply lookup_insert_eq. }
  split; [apply lookup_insert_eq|].
  split.
  { intros q Hq1 Hq2. by rewrite !lookup_insert_ne. }
  intros q Hq [c Hc]. rewrite lookup_insert_ne by done.
  rewrite lookup_insert_ne; [done|]. intros <-. congruence.
Qed.

(** A destination with two backups already there. *)
Definition example_out : path := Path (py "out/") (py "merged.json").

Definition example_world : world :=
  World {[ example_out := py "old";
           nth_backup example_out 0 := py "older";
           nth_backup example_out 1 := py "oldest" ]} [] [].

Lemma example_out_names_a_file : names_a_file example_out.
Proof.
  split; [done|]. refine (bool_decide_unpack _ _). by vm_compute.
Qed.

Lemma backup_goes_to_first_free_name_witness :
  ∃ n w',
    write_output 3 (Arguments (Some example_out) 2 false false false) (py "{}")
      example_world
    = Ok (Some w')
    ∧ files w' !! nth_backup example_out n = Some (py "old").
Proof.
  destruct (backup_goes_to_first_free_name 3
              (Arguments (Some example_out) 2 false false false) (py "{}")
              example_world example_out (py "old"))
    as (n & w' & Hrun & _ & _ & Hcopy & _);
    [done | done | done | apply example_out_names_a_file
    | by vm_compute | by vm_compute |].
  by exists n, w'.
Defined.

(** C9 as it is stated: each utility leaves in the file it writes the
    serialized document followed by a newline. *)
Definition trailing_newline_in_both : Prop :=
  (∀ fuel args output w out w',
     arg_output args = Some out →
     write_output fuel args output w = Ok (Some w') →
     files w' !! out = Some (output ++ [c_lf]))
  ∧ (∀ markdown_filepath w json_filepath w' patterns,
       parse_markdown_file (md_files w) markdown_filepath = Ok patterns →
       process_file markdown_filepath w = Ok (json_filepath, w') →
       md_files w' !! json_filepath
       = Some (json_dumps_indent 2 (create_permissions_json patterns)
               ++ [c_lf])).

Definition example_md_world : md_world :=
  MdWorld {[ py "gh-pr.md" := py "* `Bash(gh pr list)`" ]} [].

Definition quoted (s : string) : pystr := [34%N] ++ py s ++ [34%N].

(** The text of the document with the one pattern of the example,
    indented by two. *)
Definition example_md_json : pystr :=
  py "{" ++ [c_lf]
  ++ py "  " ++ quoted "permissions" ++ py ": {" ++ [c_lf]
  ++ py "    " ++ quoted "allow" ++ py ": [" ++ [c_lf]
  ++ py "      " ++ quoted "Bash(gh pr list)" ++ [c_lf]
  ++ py "    ]," ++ [c_lf]
  ++ py "    " ++ quoted "deny" ++ py ": []" ++ [c_lf]
  ++ py "  }" ++ [c_lf]
  ++ py "}".

(** C9, counterexample. On a file with one bullet, [process_file] writes
    the serialized document and nothing after it: the file ends with the
    closing brace, not with a newline. *)
Lemma process_file_writes_no_newline :
  ∃ w',
    process_file (py "gh-pr.md") example_md_world = Ok (py "gh-pr.json", w')
    ∧ parse_markdown_file (md_files example_md_world) (py "gh-pr.md")
      = Ok [py "Bash(gh pr list)"]
    ∧ json_dumps_indent 2 (create_permissions_json [py "Bash(gh pr list)"])
      = example_md_json
    ∧ md_files w' !! py "gh-pr.json" = Some example_md_json
    ∧ md_files w' !! py "gh-pr.json" ≠ Some (example_md_json ++ [c_lf])
    ∧ ¬ trailing_newline_in_both.
Proof.
  destruct (process_file (py "gh-pr.md") example_md_world) as [[p w']|e]
    eqn:Hrun; [|by vm_compute in Hrun].
  assert (Hp : p = py "gh-pr.json").
  { vm_compute in Hrun. injection Hrun as <- _. by vm_compute. }
  subst p.
  assert (Hparse : parse_markdown_file (md_files example_md_world)
                     (py "gh-pr.md") = Ok [py "Bash(gh pr list)"])
    by by vm_compute.
  assert (Hdump : json_dumps_indent 2
                    (create_permissions_json [py "Bash(gh pr list)"])
                  = example_md_json) by by vm_compute.
  assert (Hfile : md_files w' !! py "gh-pr.json" = Some example_md_json).
  { vm_compute in Hrun. injection Hrun as <-. by vm_compute. }
  assert (Hne : md_files w' !! py "gh-pr.json"
                ≠ Some (example_md_json ++ [c_lf])).
  { rewrite Hfile. intros Heq.
    assert (Hlen : length example_md_json
                   = length (example_md_json ++ [c_lf])) by congruence.
    rewrite length_app in Hlen. simpl in Hlen. lia. }
  exists w'. repeat (split; [done|]).
  intros [_ Hclaim].
  specialize (Hclaim _ _ _ _ _ Hparse Hrun). rewrite Hdump in Hclaim.
  done.
Qed.

(** The text that [json.dumps] makes of a non-empty object ends with the
    closing brace. *)
Lemma encode_object_last (e : encoder) (level : nat) kj fields :
  last (encode e level (JObj (kj :: fields))) = Some 125%N.
Proof.
  cbn [encode]. rewrite !app_assoc. apply last_snoc.
Qed.

(** The output block runs to its end and leaves the text and a newline
    in the destination. *)
Lemma write_output_file (fuel : nat) (args : arguments) (output : pystr)
    (w : world) (out : path) :
  arg_output args = Some out → names_a_file out →
  size (files w) ≤ fuel →
  ∃ w', write_output fuel args output w = Ok (Some w')
        ∧ files w' !! out = Some (output ++ [c_lf]).
Proof.
  intros Hout Hname Hfuel.
  destruct (files w !! out) as [content|] eqn:Hcontent;
    [destruct (arg_no_backup args || arg_force args) eqn:Hflags|].
  - unfold write_output. rewrite Hout, Hflags.
    rewrite andb_false_r. cbn [mbind result_bind].
    eexists. split; [done|]. apply lookup_insert_eq.
  - apply orb_false_iff in Hflags as [Hnb Hf].
    destruct (first_free_backup_exists w out) as (n & Hn & Hfree).
    destruct (write_output_backup fuel args output w out content n)
      as (w' & Hrun & Hfiles); try done; [lia|].
    exists w'. split; [done|]. rewrite Hfiles. apply lookup_insert_eq.
  - unfold write_output. rewrite Hout. unfold path_exists.
    rewrite Hcontent. rewrite bool_decide_eq_false_2 by (by intros [? [=]]).
    cbn [andb mbind result_bind].
    eexists. split; [done|]. apply lookup_insert_eq.
Qed.

(** C9, amended. The merger, writing to the file given by [--output],
    leaves in it the serialized document ([json.dumps] with the chosen
    indentation, or compact) followed by a newline. The converter leaves in the [.json] file next to the markdown file
    exactly the serialized document, indented by two, which ends with
    its closing brace; it appends nothing. *)
Theorem written_file_content :
  (∀ fuel args merged w out,
     arg_output args = Some out → names_a_file out →
     size (files w) ≤ fuel →
     ∃ w', main_output fuel args merged w = Ok (Some w')
           ∧ files w' !! out = Some (prepare_output args merged ++ [c_lf]))
  ∧ (∀ markdown_filepath text w,
       md_files w !! markdown_filepath = Some text →
       ∃ patterns w',
         let json_filepath :=
           (splitext markdown_filepath).1 ++ py ".json" in
         let text' :=
           json_dumps_indent 2 (create_permissions_json patterns) in
         parse_markdown_file (md_files w) markdown_filepath = Ok patterns
         ∧ process_file markdown_filepath w = Ok (json_filepath, w')
         ∧ md_files w' !! json_filepath = Some text'
         ∧ last text' = Some 125%N).
Proof.
  split; [intros fuel args merged w out; apply write_output_file|].
  intros md text w Hfile.
  destruct (parse_lines_captures (file_lines text) [])
    as (ocs & _ & Hparse).
  assert (Hp : parse_markdown_file (md_files w) md = Ok (omap id ocs)).
  { unfold parse_markdown_file. by rewrite Hfile. }
  eexists (omap id ocs), _. cbn zeta.
  split; [done|]. unfold process_file. rewrite Hp. cbn [mbind result_bind].
  split; [done|]. cbn [md_files].
  split; [apply lookup_insert_eq|].
  unfold json_dumps_indent, create_permissions_json.
  apply encode_object_last.
Qed.

Lemma written_file_content_witness :
  ∃ w',
    main_output 3 (Arguments (Some example_out) 2 false false false)
      example_base example_world
    = Ok (Some w')
    ∧ files w' !! example_out
      = Some (json_dumps_indent 2 example_base ++ [c_lf]).
Proof.
  apply (proj1 written_file_content 3
           (Arguments (Some example_out) 2 false false false)
           example_base example_world example_out);
    [done | apply example_out_names_a_file | by vm_compute].
Defined.

(** * Further properties of the code *)

(** ** The deduplicator as an operation on lists *)

Section dedup_algebra.
Context {A : Type} `{Countable A}.
Implicit Types (l a b : list A) (seen : gset A).

Lemma fresh_items_app seen a b :
  Dedup.fresh_items id seen (a ++ b)
  = Dedup.fresh_items id seen a
    ++ Dedup.fresh_items id (seen ∪ list_to_set a) b.
Proof.
  revert seen. induction a as [|x a IH]; intros seen; simpl.
  - f_equal. set_solver.
  - destruct (decide (x ∈ seen)) as [Hin|Hout].
    + rewrite IH. do 2 f_equal. set_solver.
    + simpl. rewrite IH. do 3 f_equal. set_solver.
Qed.

Lemma fresh_items_fresh seen seen' l :
  Dedup.fresh_items id seen (Dedup.fresh_items id seen' l)
  = Dedup.fresh_items id (seen ∪ seen') l.
Proof.
  revert seen seen'. induction l as [|x l IH]; intros seen seen'; simpl.
  - done.
  - destruct (decide (x ∈ seen')) as [Hin'|Hout'].
    + rewrite decide_True by set_solver. apply IH.
    + simpl. destruct (decide (x ∈ seen)) as [Hin|Hout].
      * rewrite decide_True by set_solver. rewrite IH. f_equal. set_solver.
      * rewrite decide_False by set_solver. f_equal. rewrite IH.
        f_equal. set_solver.
Qed.

Lemma fresh_items_set seen l :
  (list_to_set (Dedup.fresh_items id seen l) : gset A)
  = list_to_set l ∖ seen.
Proof.
  apply set_eq. intros x.
  rewrite elem_of_difference, !elem_of_list_to_set. split.
  - by intros ?%Dedup.fresh_items_elem.
  - intros [Hx Hs].
    pose proof (Dedup.fresh_items_complete id l seen x Hx Hs) as Hc.
    by rewrite list_fmap_id in Hc.
Qed.

Lemma fresh_items_sublist seen l : Dedup.fresh_items id seen l `sublist_of` l.
Proof.
  revert seen. induction l as [|x l IH]; intros seen; simpl; [done|].
  destruct (decide (x ∈ seen)); [apply sublist_cons | apply sublist_skip];
    apply IH.
Qed.
End dedup_algebra.

Lemma merge_permission_lists_fresh (lists : list (list pystr)) :
  merge_permission_lists lists = Dedup.fresh_items id ∅ (concat lists).
Proof. apply Dedup.merge_loop_fresh. Qed.

Lemma merge_permission_lists_NoDup (lists : list (list pystr)) :
  NoDup (merge_permission_lists lists).
Proof.
  rewrite merge_permission_lists_fresh, first_occurrences_fresh.
  apply first_occurrences_NoDup.
Qed.

Lemma merge_permission_lists_single (l : list pystr) :
  NoDup l → merge_permission_lists [l] = l.
Proof.
  intros Hnd. rewrite merge_permission_lists_fresh. cbn [concat].
  rewrite app_nil_r, first_occurrences_fresh.
  by apply first_occurrences_NoDup_id.
Qed.

Lemma merge_permission_lists_again (lists : list (list pystr)) :
  merge_permission_lists [merge_permission_lists lists]
  = merge_permission_lists lists.
Proof. apply merge_permission_lists_single, merge_permission_lists_NoDup. Qed.

(** X1. Deduplicating is idempotent: [merge_permission_lists] applied to
    its own result returns it as it is, and a single list comes back
    unchanged exactly when it has no duplicate. *)
Theorem merge_permission_lists_idempotent (lists : list (list pystr))
    (l : list pystr) :
  merge_permission_lists [merge_permission_lists lists]
  = merge_permission_lists lists
  ∧ (merge_permission_lists [l] = l ↔ NoDup l).
Proof.
  split; [apply merge_permission_lists_again|]. split.
  - intros <-. apply merge_permission_lists_NoDup.
  - apply merge_permission_lists_single.
Qed.

(** X2. Merging in stages gives the same list as merging at once: the
    lists may be split in two groups, each group merged, and the two
    results merged; and only the concatenation of the lists matters. *)
Theorem merge_permission_lists_staged (lists1 lists2 : list (list pystr)) :
  merge_permission_lists (lists1 ++ lists2)
  = merge_permission_lists
      [merge_permission_lists lists1; merge_permission_lists lists2]
  ∧ merge_permission_lists (lists1 ++ lists2)
    = merge_permission_lists [concat lists1 ++ concat lists2].
Proof.
  rewrite !merge_permission_lists_fresh. cbn [concat].
  rewrite concat_app, !app_nil_r. split; [|done].
  rewrite !fresh_items_app, !fresh_items_fresh, fresh_items_set.
  f_equal; f_equal; set_solver.
Qed.

(** X3. The merged list is a subsequence of the concatenated inputs, so
    it keeps their relative order and is never longer; and it starts
    with the deduplicated first list, whatever the other lists hold. *)
Theorem merge_permission_lists_stable (l : list pystr)
    (lists : list (list pystr)) :
  merge_permission_lists (l :: lists) `sublist_of` concat (l :: lists)
  ∧ length (merge_permission_lists (l :: lists))
    ≤ length (concat (l :: lists))
  ∧ merge_permission_lists [l] `prefix_of` merge_permission_lists (l :: lists).
Proof.
  rewrite !merge_permission_lists_fresh.
  split; [apply fresh_items_sublist|].
  split; [apply sublist_length, fresh_items_sublist|].
  cbn [concat]. rewrite app_nil_r, fresh_items_app.
  by eexists.
Qed.

(** X4. The order of the input lists decides the order of the result
    but not its content: permuting the lists permutes the result. *)
Theorem merge_permission_lists_permutation
    (lists lists' : list (list pystr)) :
  lists ≡ₚ lists' →
  merge_permission_lists lists ≡ₚ merge_permission_lists lists'.
Proof.
  intros Hperm.
  apply NoDup_Permutation; try apply merge_permission_lists_NoDup.
  intros x. rewrite !merge_permission_lists_fresh, !first_occurrences_fresh.
  rewrite !first_occurrences_elem, !elem_of_concat.
  by setoid_rewrite Hperm.
Qed.

Lemma merge_permission_lists_permutation_witness :
  merge_permission_lists [[py "b"; py "a"]; [py "a"; py "c"]]
  ≡ₚ merge_permission_lists [[py "a"; py "c"]; [py "b"; py "a"]].
Proof.
  apply merge_permission_lists_permutation. apply Permutation_swap.
Defined.

(** ** Failures of the merge *)

Lemma load_value_total (j : json) (h : heap) :
  ∃ v h', load_value j h = Ok (v, h').
Proof. destruct (load_value_laid j h) as (new & v & Hload & _). eauto. Qed.

Lemma load_json_file_outcome (docs : gmap pystr file) (f : pystr) (h : heap) :
  match docs !! f with
  | Some (Document j) => ∃ v h', load_json_file docs f h = Ok (v, h')
  | _ => load_json_file docs f h = Raise (SystemExit 1)
  end.
Proof.
  unfold load_json_file. destruct (docs !! f) as [[| |j]|]; try done.
  apply load_value_total.
Qed.

Lemma load_settings_failure (docs : gmap pystr file) (files : list pystr)
    (f : pystr) :
  f ∈ files → (∀ j, docs !! f ≠ Some (Document j)) →
  ∀ h, load_settings docs files h = Raise (SystemExit 1).
Proof.
  intros Hf Hbad. unfold load_settings.
  induction files as [|g files IH]; intros h; [by apply elem_of_nil in Hf|].
  cbn [mapM_M]. pose proof (load_json_file_outcome docs g h) as Hg.
  destruct (docs !! g) as [[| |j]|] eqn:Hdg;
    try (by apply M_bind_Raise).
  destruct Hg as (v & h' & Hload).
  rewrite (M_bind_Ok _ _ _ _ _ Hload).
  apply elem_of_cons in Hf as [->|Hf]; [by destruct (Hbad j)|].
  apply M_bind_Raise. by apply IH.
Qed.

(** X5. If any of the files is missing, unreadable or not JSON, the
    merge ends the program with exit status 1, whatever the other files
    hold and wherever the file stands in the list: no merged document is
    returned. *)
Theorem merge_settings_files_load_failure (docs : gmap pystr file)
    (files : list pystr) (f : pystr) (h : heap) :
  f ∈ files → (∀ j, docs !! f ≠ Some (Document j)) →
  merge_settings_files docs files h = Raise (SystemExit 1).
Proof.
  intros Hf Hbad. unfold merge_settings_files.
  destruct files as [|g files]; [by apply elem_of_nil in Hf|].
  apply M_bind_Raise. by apply load_settings_failure with f.
Qed.

Lemma merge_settings_files_load_failure_witness :
  merge_settings_files example_docs
    [py "base.json"; py "missing.json"; py "extra.json"] []
  = Raise (SystemExit 1).
Proof.
  apply (merge_settings_files_load_failure example_docs _
           (py "missing.json")).
  - apply (bool_decide_unpack _). by vm_compute.
  - intros j. by vm_compute.
Defined.

Lemma copy_method_list (h : heap) (l : loc) items :
  h !! l = Some (OList items) →
  copy_method (VRef l) h = Ok (VRef (length h), h ++ [OList items]).
Proof.
  intros Hl. unfold copy_method, inspect, mbind, M_bind, view_of.
  by rewrite Hl.
Qed.

Lemma copy_method_scalar (h : heap) (v : value) :
  (∀ l, v ≠ VRef l) → copy_method v h = Raise AttributeError.
Proof.
  intros Hv. destruct v as [| | | |l]; try done. by destruct (Hv l).
Qed.

Lemma get_method_list (h : heap) (l : loc) items k :
  h !! l = Some (OList items) →
  get_method (VRef l) k h = Raise AttributeError.
Proof.
  intros Hl. unfold get_method, inspect, mbind, M_bind, view_of.
  by rewrite Hl.
Qed.

(** X6. If every file loads but the first document is not a JSON object
    (an array, a string, a number, a boolean or null), the merge raises
    [AttributeError]: scalars have no [copy], and the copy of an array
    has no [get]. *)
Theorem merge_settings_files_not_an_object (docs : gmap pystr file)
    (files : list pystr) (d1 : json) (ds : list json) (h : heap) :
  Forall2 (λ f d, docs !! f = Some (Document d)) files (d1 :: ds) →
  (∀ fields, d1 ≠ JObj fields) →
  merge_settings_files docs files h = Raise AttributeError.
Proof.
  intros Hdocs Hd1.
  destruct (load_settings_laid docs files (d1 :: ds) Hdocs h)
    as (new & vs & Hload & _ & Hlaid).
  destruct files as [|f files]; [by apply Forall2_nil_cons_inv in Hdocs|].
  unfold merge_settings_files. rewrite (M_bind_Ok _ _ _ _ _ Hload).
  destruct vs as [|v1 vs]; [done|].
  change (laid_out (h ++ new) (length h) d1 v1
          ∧ laid_items (h ++ new) (length h + cells d1) ds vs) in Hlaid.
  destruct Hlaid as [Hd _]. unfold merge_loaded.
  destruct d1 as [| b | z | s | items | fields];
    try (cbn [laid_out] in Hd; subst v1;
         by apply M_bind_Raise, copy_method_scalar).
  - cbn [laid_out] in Hd. destruct Hd as (ws & -> & Hl & _).
    rewrite (M_bind_Ok _ _ _ _ _ (copy_method_list _ _ _ Hl)).
    apply M_bind_Raise. cbn [foldM_M]. apply M_bind_Raise.
    unfold collect. apply M_bind_Raise.
    apply (get_method_list _ _ ws). by apply lookup_app_l_Some.
  - by destruct (Hd1 fields).
Qed.

Lemma merge_settings_files_not_an_object_witness :
  merge_settings_files {[ py "list.json" := Document (JArr [JStr (py "x")]) ]}
    [py "list.json"] []
  = Raise AttributeError.
Proof.
  apply (merge_settings_files_not_an_object _ _ (JArr [JStr (py "x")]) []).
  - repeat constructor; by vm_compute.
  - done.
Defined.

(** A value that is neither a dict nor a dangling reference. *)
Definition not_a_dict (h : heap) (v : value) : Prop :=
  match view_of h v with
  | IsDict _ _ | Dangling => False
  | _ => True
  end.

Lemma getitem_not_dict (h : heap) (v : value) (k : pystr) :
  not_a_dict h v → getitem v k h = Raise TypeError.
Proof.
  unfold not_a_dict, getitem, inspect, mbind, M_bind.
  by destruct (view_of h v).
Qed.

Lemma setitem_not_dict (h : heap) (v x : value) (k : pystr) :
  not_a_dict h v → setitem v k x h = Raise TypeError.
Proof.
  unfold not_a_dict, setitem, inspect, mbind, M_bind.
  by destruct (view_of h v).
Qed.

Lemma contains_not_dict (h : heap) (v : value) (k : pystr) :
  not_a_dict h v →
  contains k v h = Raise TypeError ∨ ∃ b, contains k v h = Ok (b, h).
Proof.
  unfold not_a_dict, contains, inspect, mbind, M_bind.
  destruct (view_of h v); try done; eauto.
Qed.

Lemma laid_out_not_dict (h e : heap) (a : nat) (j : json) (v : value) :
  laid_out h a j v → (∀ fields, j ≠ JObj fields) → not_a_dict (h ++ e) v.
Proof.
  intros Hlaid Hj. unfold not_a_dict.
  destruct j as [| | | |items|fields]; cbn [laid_out] in Hlaid;
    try (by subst v).
  - destruct Hlaid as (vs & -> & Hl & _). unfold view_of.
    by rewrite (lookup_app_l_Some _ _ _ _ Hl).
  - by destruct (Hj fields).
Qed.

(** One turn of the loop on a document whose ["permissions"] is not a
    mapping: it raises [TypeError] or adds nothing. *)
Lemma collect_not_dict (h : heap) (l : loc) dv (pv : value)
    (acc : list value * list value) :
  h !! l = Some (ODict dv) →
  dict_get k_permissions dv = Some pv →
  not_a_dict (h ++ [ODict []]) pv →
  collect acc (VRef l) h = Raise TypeError
  ∨ collect acc (VRef l) h = Ok (acc, h ++ [ODict []]).
Proof.
  intros Hl Hdv Hpv. destruct acc as [al dl]. unfold collect.
  rewrite (M_bind_Ok _ _ _ _ _ (get_method_dict _ _ _ _ Hl)).
  rewrite Hdv. cbn [default fst snd].
  destruct (contains_not_dict _ pv k_allow Hpv) as [Hca|[ba Hca]];
    [left; by apply M_bind_Raise|].
  rewrite (M_bind_Ok _ _ _ _ _ Hca).
  destruct ba.
  { left. apply M_bind_Raise, M_bind_Raise. by apply getitem_not_dict. }
  rewrite (M_bind_Ok _ _ _ (h ++ [ODict []]) al) by done.
  destruct (contains_not_dict _ pv k_deny Hpv) as [Hcd|[bd Hcd]];
    [left; by apply M_bind_Raise|].
  rewrite (M_bind_Ok _ _ _ _ _ Hcd).
  destruct bd.
  { left. apply M_bind_Raise, M_bind_Raise. by apply getitem_not_dict. }
  right. by rewrite (M_bind_Ok _ _ _ (h ++ [ODict []]) dl).
Qed.

(** X7. A settings file that is an object whose ["permissions"] is not
    an object (null, a number, a string, an array, ...), merged alone,
    makes the merge raise [TypeError]: either when the field is tested
    for ["allow"] or ["deny"], or at the latest when the merged list is
    assigned into it. *)
Theorem merge_settings_files_permissions_not_an_object
    (docs : gmap pystr file) (f : pystr) (fields : list (pystr * json))
    (pj : json) (h : heap) :
  docs !! f = Some (Document (JObj fields)) →
  dict_get k_permissions fields = Some pj →
  (∀ pf, pj ≠ JObj pf) →
  merge_settings_files docs [f] h = Raise TypeError.
Proof.
  intros Hdoc Hpj Hnot.
  destruct (load_value_laid (JObj fields) h) as (new & v & Hload & _ & Hlaid).
  set (h0 := h ++ new) in *.
  assert (Hsettings : load_settings docs [f] h = Ok ([v], h0)).
  { unfold load_settings. cbn [mapM_M].
    rewrite (M_bind_Ok _ _ _ h0 v);
      [done | unfold load_json_file; by rewrite Hdoc]. }
  unfold merge_settings_files. rewrite (M_bind_Ok _ _ _ _ _ Hsettings).
  cbn [laid_out] in Hlaid. destruct Hlaid as (dv & -> & Hl & Hf).
  set (l := length h + _) in *.
  destruct (laid_fields_get h0 k_permissions fields _ dv pj Hf Hpj)
    as (b & pv & Hdv & Hpv & _).
  assert (Hnd : ∀ e, not_a_dict (h0 ++ e) pv)
    by (intros e; by eapply laid_out_not_dict).
  unfold merge_loaded.
  rewrite (M_bind_Ok _ _ _ _ _ (copy_method_dict _ _ _ Hl)).
  set (h1 := h0 ++ [ODict dv]).
  assert (Hl1 : h1 !! l = Some (ODict dv)) by by apply lookup_app_l_Some.
  cbn [foldM_M].
  destruct (collect_not_dict h1 l dv pv ([], []) Hl1 Hdv) as [Hc|Hc].
  { unfold h1. rewrite <- app_assoc. apply Hnd. }
  { by apply M_bind_Raise, M_bind_Raise. }
  rewrite (M_bind_Ok _ _ _ (h1 ++ [ODict []]) ([], []));
    [|by rewrite (M_bind_Ok _ _ _ _ _ Hc)].
  set (h2 := h1 ++ [ODict []]).
  assert (Hm2 : h2 !! length h0 = Some (ODict dv)).
  { unfold h2, h1. rewrite <- app_assoc.
    by rewrite lookup_app_r, Nat.sub_diag. }
  rewrite (M_bind_Ok _ _ _ _ _ (contains_dict _ _ _ k_permissions Hm2)).
  rewrite Hdv, bool_decide_eq_true_2 by eauto.
  rewrite (M_bind_Ok _ _ _ h2 ()) by done.
  unfold assign_lists. cbn [fst snd].
  rewrite (M_bind_Ok _ _ _ (h2 ++ [OList []]) (VRef (length h2))) by done.
  rewrite (M_bind_Ok _ _ _ (h2 ++ [OList []]) pv); last first.
  { eapply getitem_dict; [by apply lookup_app_l_Some | done]. }
  apply M_bind_Raise, setitem_not_dict.
  unfold h2, h1. rewrite <- !app_assoc. apply Hnd.
Qed.

Lemma merge_settings_files_permissions_not_an_object_witness :
  merge_settings_files
    {[ py "bad.json" :=
         Document (JObj [(k_permissions, JArr [JStr (py "Bash(ls)")])]) ]}
    [py "bad.json"] []
  = Raise TypeError.
Proof.
  apply (merge_settings_files_permissions_not_an_object _ _
           [(k_permissions, JArr [JStr (py "Bash(ls)")])]
           (JArr [JStr (py "Bash(ls)")])).
  - by vm_compute.
  - by vm_compute.
  - done.
Defined.

(** ** Merging the result again *)

Lemma dict_set_same {V} (d : list (pystr * V)) (k : pystr) (v : V) :
  dict_get k d = Some v → dict_set k v d = d.
Proof.
  induction d as [|[k' v'] d IH]; simpl; [done|].
  destruct (decide (k' = k)); [by intros [= ->] | intros ?; f_equal; auto].
Qed.

Lemma dict_get_None {V} (d : list (pystr * V)) (k : pystr) :
  dict_get k d = None ↔ k ∉ d.*1.
Proof.
  induction d as [|[k' v'] d IH]; simpl.
  - split; [intros _; apply not_elem_of_nil | done].
  - rewrite not_elem_of_cons. destruct (decide (k' = k)) as [->|Hne].
    + split; [done | by intros [? _]].
    + rewrite IH. split; [by intros ?; split | by intros [_ ?]].
Qed.

Lemma dict_set_NoDup {V} (d : list (pystr * V)) (k : pystr) (v : V) :
  NoDup d.*1 → NoDup (dict_set k v d).*1.
Proof.
  intros Hnd. destruct (dict_get k d) as [x|] eqn:Hk.
  - by rewrite dict_set_keys_present by eauto.
  - rewrite dict_set_absent by done. rewrite fmap_app.
    apply NoDup_app. split; [done|]. split; [|apply NoDup_singleton].
    intros y Hy [->|[]%elem_of_nil]%elem_of_cons.
    by apply dict_get_None in Hk.
Qed.

Lemma first_permissions_NoDup (d1 : json) (ds : list json) :
  permission_document d1 = true → NoDup (first_permissions (d1 :: ds)).*1.
Proof.
  intros Hshape. unfold first_permissions.
  destruct d1 as [| | | | |fields]; try done. cbn [first_fields].
  simpl in Hshape. apply andb_true_iff in Hshape as [_ Hshape].
  destruct (dict_get k_permissions fields) as [[| | | | |pf]|];
    try apply NoDup_nil_2.
  simpl in Hshape.
  apply andb_true_iff in Hshape as [[Hnd _]%andb_true_iff _].
  by apply bool_decide_eq_true in Hnd.
Qed.

Lemma merged_document_shape (d1 : json) (ds : list json) :
  permission_document d1 = true →
  permission_document (merged_document (d1 :: ds)) = true.
Proof.
  intros Hshape. unfold merged_document, permission_document.
  rewrite dict_get_set_eq. unfold permissions_mapping.
  apply andb_true_iff. split.
  - apply bool_decide_eq_true, dict_set_NoDup.
    destruct d1 as [| | | | |fields]; try done. cbn [first_fields].
    simpl in Hshape. apply andb_true_iff in Hshape as [Hnd _].
    by apply bool_decide_eq_true in Hnd.
  - rewrite !andb_true_iff. split; [split|].
    + apply bool_decide_eq_true. do 2 apply dict_set_NoDup.
      by apply first_permissions_NoDup.
    + unfold optional_string_array.
      rewrite dict_get_set_ne by done. rewrite dict_get_set_eq.
      apply string_array_strings.
    + unfold optional_string_array. rewrite dict_get_set_eq.
      apply string_array_strings.
Qed.

Lemma merged_document_again (ds : list json) :
  merged_document [merged_document ds] = merged_document ds.
Proof.
  set (r := merged_document ds).
  unfold merged_document at 1.
  assert (Ha : merged_list k_allow [r] = merged_list k_allow ds).
  { unfold merged_list at 1, defined_lists. cbn [omap list_omap].
    unfold r. rewrite merged_document_allow. cbn [option_list app].
    apply merge_permission_lists_again. }
  assert (Hd : merged_list k_deny [r] = merged_list k_deny ds).
  { unfold merged_list at 1, defined_lists. cbn [omap list_omap].
    unfold r. rewrite merged_document_deny. cbn [option_list app].
    apply merge_permission_lists_again. }
  rewrite Ha, Hd. unfold first_permissions.
  replace (first_fields [r])
    with (dict_set k_permissions
            (JObj (dict_set k_deny (JArr (JStr <$> merged_list k_deny ds))
                     (dict_set k_allow
                        (JArr (JStr <$> merged_list k_allow ds))
                        (first_permissions ds))))
            (first_fields ds)) by done.
  rewrite dict_get_set_eq.
  rewrite (dict_set_same _ k_allow);
    [|by rewrite dict_get_set_ne, dict_get_set_eq].
  rewrite (dict_set_same _ k_deny) by apply dict_get_set_eq.
  rewrite (dict_set_same _ k_permissions) by apply dict_get_set_eq.
  done.
Qed.

(** X8. What the merge returns is again a permission document, with
    duplicate-free ["allow"] and ["deny"] lists; and merging that
    document alone gives back an equal document. *)
Theorem merge_settings_files_idempotent (docs : gmap pystr file)
    (out : pystr) (d1 : json) (ds : list json) (h : heap) :
  Forall (λ d, permission_document d = true) (d1 :: ds) →
  docs !! out = Some (Document (merged_document (d1 :: ds))) →
  let merged := merged_document (d1 :: ds) in
  permission_document merged = true
  ∧ (∃ allow deny,
       permission_list k_allow merged = Some allow ∧ NoDup allow
       ∧ permission_list k_deny merged = Some deny ∧ NoDup deny)
  ∧ ∃ m h',
      merge_settings_files docs [out] h = Ok (VRef m, h')
      ∧ represents h' merged (VRef m) = true.
Proof.
  intros Hshape Hout. cbn zeta.
  pose proof Hshape as [Hs1 _]%Forall_cons.
  pose proof (merged_document_shape d1 ds Hs1) as Hms.
  split; [done|]. split.
  { eexists _, _. rewrite merged_document_allow, merged_document_deny.
    split; [done|]. split; [apply merge_permission_lists_NoDup|].
    split; [done | apply merge_permission_lists_NoDup]. }
  destruct (merge_settings_files_run docs [out]
              [merged_document (d1 :: ds)] h)
    as (r & ds' & v1 & vs' & h0 & h' & [= <- <-] & _ & _ & Hrun & _ & _ & _
        & Hrep & _ & _).
  { done. }
  { by repeat constructor. }
  { by repeat constructor. }
  rewrite merged_document_again in Hrep. by exists (length h0), h'.
Qed.

Lemma merge_settings_files_idempotent_witness :
  ∃ m h',
    merge_settings_files
      {[ py "merged.json" :=
           Document (merged_document [example_base; example_extra]) ]}
      [py "merged.json"] []
    = Ok (VRef m, h').
Proof.
  destruct (merge_settings_files_idempotent
              {[ py "merged.json" :=
                   Document (merged_document [example_base; example_extra]) ]}
              (py "merged.json") example_base [example_extra] []
              example_docs_shape)
    as (_ & _ & m & h' & Hrun & _).
  - apply lookup_singleton_eq.
  - by exists m, h'.
Defined.

(** ** Successive writes *)

(** X9. Writing twice to the same existing destination, with backups
    enabled, keeps everything: the first backup holds the original
    content, the second one, under a later name of the sequence, holds
    what the first run wrote, and the destination holds what the second
    run wrote. *)
Theorem write_output_twice (fuel : nat) (args : arguments)
    (output1 output2 content : pystr) (w : world) (out : path) :
  arg_output args = Some out →
  arg_no_backup args = false → arg_force args = false →
  names_a_file out →
  files w !! out = Some content →
  size (files w) < fuel →
  ∃ n1 n2 w1 w2,
    write_output fuel args output1 w = Ok (Some w1)
    ∧ write_output fuel args output2 w1 = Ok (Some w2)
    ∧ n1 < n2
    ∧ files w !! nth_backup out n1 = None
    ∧ files w2 !! nth_backup out n1 = Some content
    ∧ files w2 !! nth_backup out n2 = Some (output1 ++ [c_lf])
    ∧ files w2 !! out = Some (output2 ++ [c_lf])
    ∧ (∀ q, q ≠ out → is_Some (files w !! q) →
         files w2 !! q = files w !! q).
Proof.
  intros Hout Hnb Hf Hname Hcontent Hfuel.
  destruct (first_free_backup_exists w out) as (n1 & Hn1 & Hfree1).
  destruct (write_output_backup fuel args output1 w out content n1)
    as (w1 & Hrun1 & Hfiles1); try done; [lia|].
  pose proof Hfree1 as [Hnone1 Hbefore1].
  apply bool_decide_eq_false in Hnone1.
  apply eq_None_not_Some in Hnone1.
  assert (Hout1 : files w1 !! out = Some (output1 ++ [c_lf])).
  { rewrite Hfiles1. apply lookup_insert_eq. }
  assert (Hsize1 : size (files w1) = S (size (files w))).
  { rewrite Hfiles1. rewrite map_size_insert_Some; last first.
    { rewrite lookup_insert_ne by apply nth_backup_ne. eauto. }
    by apply map_size_insert_None. }
  destruct (first_free_backup_exists w1 out) as (n2 & Hn2 & Hfree2).
  destruct (write_output_backup fuel args output2 w1 out
              (output1 ++ [c_lf]) n2)
    as (w2 & Hrun2 & Hfiles2); try done; [lia|].
  pose proof Hfree2 as [Hnone2 _].
  apply bool_decide_eq_false in Hnone2.
  apply eq_None_not_Some in Hnone2.
  assert (Hkept : ∀ q, q ≠ out → is_Some (files w !! q) →
                       files w1 !! q = files w !! q).
  { intros q Hq [c Hc]. rewrite Hfiles1, lookup_insert_ne by done.
    rewrite lookup_insert_ne; [done|]. intros <-. congruence. }
  assert (Hb1 : files w1 !! nth_backup out n1 = Some content).
  { rewrite Hfiles1.
    rewrite lookup_insert_ne by (apply not_eq_sym, nth_backup_ne).
    apply lookup_insert_eq. }
  assert (Hlt : n1 < n2).
  { destruct (decide (n2 ≤ n1)) as [Hle|]; [exfalso|lia].
    destruct (decide (n2 = n1)) as [->|Hne]; [congruence|].
    specialize (Hbefore1 n2 ltac:(lia)).
    apply bool_decide_eq_true in Hbefore1.
    rewrite <- Hkept in Hbefore1 by (done || apply nth_backup_ne).
    rewrite Hnone2 in Hbefore1. by destruct Hbefore1. }
  exists n1, n2, w1, w2. split; [done|]. split; [done|].
  split; [done|]. split; [done|]. rewrite Hfiles2.
  split.
  { rewrite lookup_insert_ne by (apply not_eq_sym, nth_backup_ne).
    rewrite lookup_insert_ne; [done|].
    intros Heq%nth_backup_inj. lia. }
  split.
  { rewrite lookup_insert_ne by (apply not_eq_sym, nth_backup_ne).
    apply lookup_insert_eq. }
  split; [apply lookup_insert_eq|].
  intros q Hq Hsome. rewrite lookup_insert_ne by done.
  rewrite lookup_insert_ne; [by apply Hkept|].
  intros <-. rewrite Hkept in Hnone2 by done.
  rewrite Hnone2 in Hsome. by destruct Hsome.
Qed.

Lemma write_output_twice_witness :
  ∃ n1 n2 w1 w2,
    write_output 4 (Arguments (Some example_out) 2 false false false)
      (py "first") example_world = Ok (Some w1)
    ∧ write_output 4 (Arguments (Some example_out) 2 false false false)
        (py "second") w1 = Ok (Some w2)
    ∧ n1 < n2
    ∧ files w2 !! nth_backup example_out n1 = Some (py "old").
Proof.
  destruct (write_output_twice 4
              (Arguments (Some example_out) 2 false false false)
              (py "first") (py "second") (py "old")
              example_world example_out)
    as (n1 & n2 & w1 & w2 & H1 & H2 & Hlt & _ & Hb & _);
    [done | done | done | apply example_out_names_a_file
    | by vm_compute | by vm_compute |].
  by exists n1, n2, w1, w2.
Defined.





(** ** The characters the merger emits *)

(** X11. The text the merger emits is plain ASCII whatever the strings of
    the settings contain: every character of it is printable (space to
    tilde), or is a line feed, and a line feed occurs only without
    [--compact]. The compact output is a single line. *)
Theorem prepare_output_characters (args : arguments) (merged : json) :
  Forall (λ c, printable c ∨ (arg_compact args = false ∧ c = c_lf))
    (prepare_output args merged).
Proof.
  unfold prepare_output. destruct (arg_compact args).
  - apply encode_Forall; cbn [item_separator key_separator].
    + by left.
    + apply (Forall_impl printable); [by vm_compute; repeat constructor|].
      by left.
    + apply (Forall_impl printable); [by vm_compute; repeat constructor|].
      by left.
    + intros level. constructor.
  - apply encode_Forall; cbn [item_separator key_separator].
    + by left.
    + apply (Forall_impl printable); [by vm_compute; repeat constructor|].
      by left.
    + apply (Forall_impl printable); [by vm_compute; repeat constructor|].
      by left.
    + intros level. unfold newline_indent. cbn [enc_indent].
      constructor; [by right|].
      apply Forall_concat, Forall_replicate, Forall_replicate.
      left. unfold printable. lia.
Qed.

(** ** More on the extractor *)

(** X12. Indentation and trailing whitespace of a line do not matter to
    the extractor: a line surrounded by any whitespace, such as a nested
    bullet or a line with its line break, adds the same pattern (or
    none) as the line alone. *)
Theorem parse_line_surrounded (patterns : list pystr) (a line b : pystr) :
  Forall (λ c, is_space c = true) a → Forall (λ c, is_space c = true) b →
  parse_line patterns (a ++ line ++ b) = parse_line patterns line.
Proof.
  intros Ha Hb. unfold parse_line. by rewrite strip_surrounded.
Qed.

Lemma parse_line_surrounded_witness :
  parse_line [] (py "    " ++ py "- `gh pr view:*` shows one" ++ [c_cr; c_lf])
  = parse_line [] (py "- `gh pr view:*` shows one")
  ∧ parse_line [] (py "- `gh pr view:*` shows one") = Ok [py "gh pr view:*"].
Proof.
  split; [|by vm_compute].
  apply (parse_line_surrounded [] (py "    ")
           (py "- `gh pr view:*` shows one") [c_cr; c_lf]).
  - by vm_compute; repeat constructor.
  - by vm_compute; repeat constructor.
Defined.

(** *** What a pattern can contain *)

Lemma universal_newlines_no_cr (s : pystr) : c_cr ∉ universal_newlines s.
Proof.
  induction s as [|c s IH]; simpl; [by intros ?%elem_of_nil|].
  destruct (decide (c = c_cr)) as [->|Hc].
  - destruct s as [|c' s]; [by intros [?|?%elem_of_nil]%elem_of_cons|].
    destruct (decide (c' = c_lf)); [done|].
    by intros [?|?]%elem_of_cons.
  - intros [?|?]%elem_of_cons; [congruence | done].
Qed.

(** A line of a file has no line feed but possibly its last character,
    and consists of characters of the text. *)
Lemma split_lines_shape (s cur : pystr) :
  c_lf ∉ cur →
  Forall (λ line, (∃ body, (c_lf ∉ body)
                           ∧ (line = body ∨ line = body ++ [c_lf]))
                  ∧ ∀ c, c ∈ line → c ∈ cur ++ s)
    (split_lines cur s).
Proof.
  revert cur. induction s as [|c s IH]; intros cur Hcur; simpl.
  - destruct cur as [|x cur]; constructor; [|constructor].
    split; [exists (x :: cur); split; [done | by left]|].
    intros c. by rewrite app_nil_r.
  - destruct (decide (c = c_lf)) as [->|Hc].
    + constructor.
      * split; [exists cur; split; [done | by right]|].
        intros c. rewrite !elem_of_app, elem_of_cons. set_solver.
      * eapply Forall_impl; [apply IH; by intros ?%elem_of_nil|].
        intros line [Hshape Hsub]. split; [done|].
        intros x Hx. apply Hsub in Hx. set_solver.
    + eapply Forall_impl; [apply (IH (cur ++ [c]))|].
      * rewrite elem_of_app, list_elem_of_singleton. intros [?|?]; congruence.
      * intros line [Hshape Hsub]. split; [done|].
        intros x Hx. apply Hsub in Hx. set_solver.
Qed.

(** Trimming a line removes its line break. *)
Lemma strip_line_no_lf (line body : pystr) :
  c_lf ∉ body → line = body ∨ line = body ++ [c_lf] →
  c_lf ∉ strip line.
Proof.
  intros Hbody Hline Hin.
  destruct (strip_spec line) as (a & b & Heq & _ & _ & _ & Hlast).
  destruct Hline as [->| ->].
  { apply Hbody. rewrite Heq. set_solver. }
  destruct b as [|x b _] using rev_ind.
  - rewrite app_nil_r in Heq.
    destruct (strip (body ++ [c_lf])) as [|y t _] using rev_ind;
      [by apply elem_of_nil in Hin|].
    rewrite app_assoc in Heq. apply app_inj_tail in Heq as [_ <-].
    rewrite reverse_snoc in Hlast. by vm_compute in Hlast.
  - rewrite !app_assoc in Heq. apply app_inj_tail in Heq as [Hb _].
    apply Hbody. rewrite Hb. set_solver.
Qed.

Lemma strip_elem (line : pystr) (c : N) : c ∈ strip line → c ∈ line.
Proof.
  destruct (strip_spec line) as (a & b & Heq & _).
  intros Hc. rewrite Heq. set_solver.
Qed.

Lemma bullet_line_elem (t cap : pystr) (c : N) :
  bullet_line t cap → c ∈ cap → c ∈ t.
Proof.
  intros (m & ws & rest & -> & _) Hc. set_solver.
Qed.

Lemma length_omap_le {A B} (f : A → option B) (l : list A) :
  length (omap f l) ≤ length l.
Proof.
  induction l as [|x l IH]; [done|]. csimpl.
  destruct (f x); simpl; lia.
Qed.

(** X13. A file that can be opened and whose content decodes to a text
    ([fs] gives that text) is read without error; the result has at most
    one pattern per line, and every pattern is a non-empty string
    without backtick, line feed or carriage return. A file that cannot
    be opened or decoded is outside this statement. *)
Theorem parse_markdown_file_patterns (fs : gmap pystr pystr)
    (filepath text : pystr) :
  fs !! filepath = Some text →
  ∃ patterns,
    parse_markdown_file fs filepath = Ok patterns
    ∧ length patterns ≤ length (file_lines text)
    ∧ Forall (λ p, p ≠ [] ∧ (c_backtick ∉ p) ∧ (c_lf ∉ p) ∧ (c_cr ∉ p)) patterns.
Proof.
  intros Hfile. unfold parse_markdown_file. rewrite Hfile.
  destruct (parse_lines_captures (file_lines text) [])
    as (ocs & Hocs & Hrun).
  exists (omap id ocs). split; [done|]. split.
  { rewrite (Forall2_length _ _ _ Hocs). apply length_omap_le. }
  pose proof (split_lines_shape (universal_newlines text) []
                ltac:(by intros ?%elem_of_nil)) as Hshape.
  fold (file_lines text) in Hshape.
  apply Forall_forall. intros p Hp.
  apply list_elem_of_omap in Hp as (oc & Hoc & Hsome).
  destruct oc as [cap|]; [|done]. injection Hsome as ->.
  apply list_elem_of_lookup in Hoc as [i Hi].
  destruct (Forall2_lookup_r _ _ _ _ _ Hocs Hi) as (line & Hline & Hcap).
  rewrite Forall_lookup in Hshape.
  destruct (Hshape _ _ Hline) as [(body & Hbody & Hcase) Hsub].
  cbn [line_capture] in Hcap.
  pose proof Hcap as (_ & _ & _ & _ & _ & _ & _ & Hne & Htick).
  split; [done|]. split; [done|]. split.
  - intros Hin. eapply strip_line_no_lf; [done..|].
    by eapply bullet_line_elem.
  - intros Hin. apply (universal_newlines_no_cr text).
    apply (Hsub c_cr). eapply strip_elem, bullet_line_elem; done.
Qed.

Lemma parse_markdown_file_patterns_witness :
  ∃ patterns,
    parse_markdown_file (md_files example_md_world) (py "gh-pr.md")
    = Ok patterns
    ∧ Forall (λ p, p ≠ [] ∧ (c_backtick ∉ p) ∧ (c_lf ∉ p) ∧ (c_cr ∉ p)) patterns.
Proof.
  destruct (parse_markdown_file_patterns (md_files example_md_world)
              (py "gh-pr.md") (py "* `Bash(gh pr list)`"))
    as (patterns & Hrun & _ & Hall); [by vm_compute|].
  by exists patterns.
Defined.

(** ** The converter's [main] *)

(** *** [glob.glob] *)

(** A pattern of literal characters and stars. *)
Inductive glob_item : Type :=
| Lit (c : N)
| Star.

(** [fnmatch.fnmatchcase(name, pat)]: a star stands for any string, the
    empty one included. *)
Fixpoint fnmatchcase (pat : list glob_item) (name : pystr) : bool :=
  match pat with
  | [] => bool_decide (name = [])
  | Lit c :: pat' =>
      match name with
      | x :: name' => bool_decide (x = c) && fnmatchcase pat' name'
      | [] => false
      end
  | Star :: pat' =>
      (fix skip (name : pystr) : bool :=
         fnmatchcase pat' name
         || match name with [] => false | _ :: name' => skip name' end) name
  end.

(** ['gh-*.md'] *)
Definition gh_md_pattern : list glob_item :=
  (Lit <$> py "gh-") ++ [Star] ++ (Lit <$> py ".md").

(** [glob.glob('gh-*.md')]: the names of the current directory that match,
    in the order the system lists them ([entries]). No such name is
    hidden, since none starts with a dot. *)
Definition glob_gh_md (entries : list pystr) : list pystr :=
  filter (λ name, fnmatchcase gh_md_pattern name = true) entries.

(** *** [sorted] on strings *)

(** [a <= b] on [str]: by code points, a proper prefix coming first. *)
Fixpoint str_leb (a b : pystr) : bool :=
  match a, b with
  | [], _ => true
  | _ :: _, [] => false
  | x :: a', y :: b' => (x <? y)%N || ((x =? y)%N && str_leb a' b')
  end.

Definition str_le (a b : pystr) : Prop := str_leb a b = true.

#[global] Instance str_le_dec : RelDecision str_le :=
  λ a b, decide (str_leb a b = true).

(** [sorted(names)]. The order is total and antisymmetric, so the sorted
    arrangement of a list is unique ([sorted_unique] below) and any
    sorting algorithm gives it. *)
Definition sorted (names : list pystr) : list pystr :=
  merge_sort str_le names.

(** *** The loop and the messages *)

Definition md_print (msg : pystr) (w : md_world) : md_world :=
  MdWorld (md_files w) (md_stdout w ++ [msg ++ [c_lf]]).

Section converter_main.

(** [str(e)], the text of an exception. *)
Variable exn_message : exn → pystr.

(** [for md_file in ...: try: ... except Exception as e: ...];
    [SystemExit] is not an [Exception] and goes through. *)
Fixpoint main_loop (md_files_left : list pystr) (created_files : list pystr)
    (w : md_world) : result (list pystr * md_world) :=
  match md_files_left with
  | [] => Ok (created_files, w)
  | md_file :: rest =>
      match process_file md_file w with
      | Ok (json_file, w') =>
          main_loop rest (created_files ++ [json_file]) w'
      | Raise (SystemExit code) => Raise (SystemExit code)
      | Raise e =>
          main_loop rest created_files
            (md_print (py "Error processing " ++ md_file ++ py ": "
                       ++ exn_message e) w)
      end
  end.

(** [main()] of the converter; [entries] are the names of the current
    directory, whose files are [md_files w]. *)
Definition converter_main (entries : list pystr) (w : md_world)
  : result md_world :=
  let markdown_files := glob_gh_md entries in
  if bool_decide (markdown_files = []) then
    Ok (md_print (py "No gh-*.md files found in the current directory") w)
  else
    let w1 :=
      md_print (py "Found " ++ str_of_nat (length markdown_files)
                ++ py " markdown files to process") w in
    let w2 := md_print (replicate 50 c_hyphen) w1 in
    '(created_files, w3) ← main_loop (sorted markdown_files) [] w2;
    let w4 := md_print (replicate 50 c_hyphen) w3 in
    Ok (md_print (py "Successfully created "
                  ++ str_of_nat (length created_files)
                  ++ py " JSON files") w4).

End converter_main.

(** *** What the pattern matches *)

Lemma fnmatchcase_lits (s : pystr) (pat : list glob_item) (name : pystr) :
  fnmatchcase ((Lit <$> s) ++ pat) name = true
  ↔ ∃ rest, name = s ++ rest ∧ fnmatchcase pat rest = true.
Proof.
  revert name. induction s as [|c s IH]; intros name.
  - simpl. split; [by exists name | by intros (rest & -> & ?)].
  - csimpl. destruct name as [|x name].
    + split; [done | by intros (rest & ? & _)].
    + rewrite andb_true_iff, bool_decide_eq_true, IH. split.
      * intros [-> (rest & -> & Hrest)]. by exists rest.
      * intros (rest & [= -> ->] & Hrest). split; [done | by exists rest].
Qed.

Lemma fnmatchcase_star (pat : list glob_item) (name : pystr) :
  fnmatchcase (Star :: pat) name = true
  ↔ ∃ a b, name = a ++ b ∧ fnmatchcase pat b = true.
Proof.
  induction name as [|x name IH].
  - simpl. rewrite orb_false_r. split.
    + intros Hm. by exists [], [].
    + intros (a & b & Heq & Hm). symmetry in Heq.
      by apply app_eq_nil in Heq as [_ ->].
  - change (fnmatchcase (Star :: pat) (x :: name))
      with (fnmatchcase pat (x :: name) || fnmatchcase (Star :: pat) name).
    rewrite orb_true_iff, IH. split.
    + intros [Hm | (a & b & -> & Hm)].
      * by exists [], (x :: name).
      * by exists (x :: a), b.
    + intros ([|y a] & b & Heq & Hm).
      * left. by rewrite Heq.
      * injection Heq as -> ->. right. by exists a, b.
Qed.

(** The names [gh-<x>.md]. *)
Definition gh_md (name : pystr) : Prop :=
  ∃ x, name = py "gh-" ++ x ++ py ".md".

Lemma fnmatchcase_gh_md (name : pystr) :
  fnmatchcase gh_md_pattern name = true ↔ gh_md name.
Proof.
  unfold gh_md_pattern, gh_md. rewrite fnmatchcase_lits. split.
  - intros (rest & -> & (a & b & -> & Hb)%fnmatchcase_star).
    rewrite <- (app_nil_r (Lit <$> py ".md")) in Hb.
    apply fnmatchcase_lits in Hb as (e & -> & He).
    apply bool_decide_eq_true in He as ->.
    exists a. by rewrite app_nil_r.
  - intros (x & ->). exists (x ++ py ".md"). split; [done|].
    apply fnmatchcase_star. exists x, (py ".md"). split; [done|].
    by vm_compute.
Qed.

(** *** The order of strings *)

Lemma str_leb_refl (a : pystr) : str_leb a a = true.
Proof.
  induction a as [|x a IH]; [done|]. simpl.
  by rewrite N.eqb_refl, IH, orb_true_r.
Qed.

#[global] Instance str_le_total : Total str_le.
Proof.
  unfold str_le. intros a. induction a as [|x a IH]; intros [|y b]; simpl;
    [by left | by left | by right |].
  destruct (N.ltb_spec x y); [by left|].
  destruct (N.ltb_spec y x); [by right|].
  assert (x = y) as -> by lia. rewrite N.eqb_refl. simpl. apply IH.
Qed.

#[global] Instance str_le_trans : Transitive str_le.
Proof.
  unfold str_le. intros a. induction a as [|x a IH]; intros [|y b] [|z c];
    simpl; try done.
  rewrite !orb_true_iff, !andb_true_iff, !N.ltb_lt, !N.eqb_eq.
  intros [Hxy | [-> Hab]] [Hyz | [-> Hbc]]; try (left; lia); try by left.
  right. split; [done|]. by eapply IH.
Qed.

#[global] Instance str_le_antisymm : AntiSymm (=) str_le.
Proof.
  unfold str_le. intros a. induction a as [|x a IH]; intros [|y b];
    simpl; try done.
  rewrite !orb_true_iff, !andb_true_iff, !N.ltb_lt, !N.eqb_eq.
  intros [Hxy | [-> Hab]] [Hyx | [Heq Hba]]; try lia.
  f_equal. by apply IH.
Qed.

(** [sorted] gives the one sorted arrangement of the names. *)
Lemma sorted_unique (names l : list pystr) :
  Sorted str_le l → l ≡ₚ names → l = sorted names.
Proof.
  intros Hsorted Hperm. apply (Sorted_unique str_le); [done | |].
  - apply (Sorted_merge_sort str_le).
  - unfold sorted. by rewrite merge_sort_Permutation.
Qed.

(** *** The name of the written file *)

Lemma rfind_None (c : N) (s : pystr) : c ∉ s → rfind c s = None.
Proof.
  induction s as [|x s IH]; [done|].
  rewrite not_elem_of_cons. intros [Hx Hs]. simpl. rewrite IH by done.
  by destruct (decide (x = c)).
Qed.

Lemma rfind_last (c : N) (a b : pystr) :
  c ∉ b → rfind c (a ++ c :: b) = Some (length a).
Proof.
  intros Hb. induction a as [|x a IH]; simpl.
  - rewrite rfind_None by done. by destruct (decide (c = c)).
  - by rewrite IH.
Qed.

(** What [process_file] names its output. *)
Definition json_name (markdown_filepath : pystr) : pystr :=
  (splitext markdown_filepath).1 ++ py ".json".

Lemma splitext_gh_md (x : pystr) :
  c_slash ∉ x →
  splitext (py "gh-" ++ x ++ py ".md") = (py "gh-" ++ x, py ".md").
Proof.
  intros Hx. unfold splitext.
  assert (Hdot : rfind c_dot (py "gh-" ++ x ++ py ".md")
                 = Some (length (py "gh-" ++ x))).
  { rewrite app_assoc. apply (rfind_last c_dot (py "gh-" ++ x) (py "md")).
    by vm_compute; intros [[=]|[[=]|[]%elem_of_nil]%elem_of_cons]%elem_of_cons. }
  rewrite Hdot, rfind_None; last first.
  { rewrite !elem_of_app. intros [Hin | [Hin | Hin]]; [|done|].
    - revert Hin. by vm_compute;
        intros [[=]|[[=]|[[=]|[]%elem_of_nil]%elem_of_cons]%elem_of_cons]%elem_of_cons.
    - revert Hin. by vm_compute;
        intros [[=]|[[=]|[[=]|[]%elem_of_nil]%elem_of_cons]%elem_of_cons]%elem_of_cons. }
  rewrite Nat.sub_0_r, drop_0.
  rewrite (app_assoc (py "gh-") x), take_app_length, drop_app_length.
  rewrite bool_decide_eq_true_2 by lia. done.
Qed.

Lemma json_name_gh_md (x : pystr) :
  c_slash ∉ x →
  json_name (py "gh-" ++ x ++ py ".md") = py "gh-" ++ x ++ py ".json".
Proof.
  intros Hx. unfold json_name. rewrite splitext_gh_md by done.
  cbn [fst]. by rewrite <- app_assoc.
Qed.

(** The written name is never one of the names read. *)
Lemma json_name_not_gh_md (name name' : pystr) :
  gh_md name' → json_name name ≠ name'.
Proof.
  intros (x & ->) Heq. apply (f_equal last) in Heq. unfold json_name in Heq.
  rewrite !last_app in Heq. by vm_compute in Heq.
Qed.

Lemma json_name_inj (name name' : pystr) :
  gh_md name → gh_md name' → c_slash ∉ name → c_slash ∉ name' →
  json_name name = json_name name' → name = name'.
Proof.
  intros (x & ->) (x' & ->) Hx Hx'.
  rewrite !json_name_gh_md by set_solver.
  intros Heq%app_inv_head%app_inv_tail. by rewrite Heq.
Qed.

(** *** One file *)

(** The patterns of a file, and what [process_file] writes and prints
    for it. *)
Definition extracted (fs : gmap pystr pystr) (name : pystr) : list pystr :=
  match parse_markdown_file fs name with
  | Ok patterns => patterns
  | Raise _ => []
  end.

Definition converted (fs : gmap pystr pystr) (name : pystr) : pystr :=
  json_dumps_indent 2 (create_permissions_json (extracted fs name)).

Definition created_message (fs : gmap pystr pystr) (name : pystr) : pystr :=
  (py "Created " ++ json_name name ++ py " with "
   ++ str_of_nat (length (extracted fs name)) ++ py " patterns") ++ [c_lf].

Lemma parse_markdown_file_total (fs : gmap pystr pystr)
    (name text : pystr) :
  fs !! name = Some text →
  parse_markdown_file fs name = Ok (extracted fs name).
Proof.
  intros Hfile. unfold extracted, parse_markdown_file. rewrite Hfile.
  destruct (parse_lines_captures (file_lines text) []) as (ocs & _ & ->).
  done.
Qed.

Lemma process_file_spec (name text : pystr) (w : md_world) :
  md_files w !! name = Some text →
  process_file name w
  = Ok (json_name name,
        MdWorld (<[json_name name := converted (md_files w) name]>
                   (md_files w))
          (md_stdout w ++ [created_message (md_files w) name])).
Proof.
  intros Hfile. unfold process_file.
  by rewrite (parse_markdown_file_total _ _ _ Hfile).
Qed.

Lemma extracted_insert (fs : gmap pystr pystr) (k v name : pystr) :
  k ≠ name → extracted (<[k := v]> fs) name = extracted fs name.
Proof.
  intros Hk. unfold extracted, parse_markdown_file.
  by rewrite lookup_insert_ne.
Qed.

(** *** The loop *)

(** On distinct names of existing files the loop converts each of them:
    no iteration fails, and none disturbs what another one reads or
    has written. *)
Lemma main_loop_spec (exn_message : exn → pystr) (l : list pystr) :
  ∀ created w,
    NoDup l →
    Forall (λ name, gh_md name ∧ (c_slash ∉ name)
                    ∧ is_Some (md_files w !! name)) l →
    ∃ w',
      main_loop exn_message l created w
      = Ok (created ++ (json_name <$> l), w')
      ∧ md_stdout w' = md_stdout w ++ (created_message (md_files w) <$> l)
      ∧ (∀ k, k ∉ json_name <$> l → md_files w' !! k = md_files w !! k)
      ∧ (∀ name, name ∈ l →
           md_files w' !! json_name name
           = Some (converted (md_files w) name)).
Proof.
  induction l as [|name l IH]; intros created w Hnodup Hall.
  { exists w. csimpl. rewrite !app_nil_r. split; [done|]. split; [done|].
    split; [done|]. by intros name ?%elem_of_nil. }
  apply NoDup_cons in Hnodup as [Hname Hnodup].
  apply Forall_cons in Hall as [(Hgh & Hflat & [text Htext]) Hall].
  cbn [main_loop]. rewrite (process_file_spec _ _ _ Htext).
  set (w1 := MdWorld _ _).
  assert (Hsame : ∀ name', gh_md name' →
            md_files w1 !! name' = md_files w !! name').
  { intros name' Hgh'. unfold w1. cbn [md_files].
    apply lookup_insert_ne. by apply json_name_not_gh_md. }
  assert (Hext : ∀ name', gh_md name' →
            extracted (md_files w1) name' = extracted (md_files w) name').
  { intros name' Hgh'. unfold w1. cbn [md_files].
    apply extracted_insert. by apply json_name_not_gh_md. }
  destruct (IH (created ++ [json_name name]) w1 Hnodup)
    as (w' & Hrun & Hout & Hframe & Hvalues).
  { eapply Forall_impl; [exact Hall|]. intros name' (Hgh' & Hflat' & Hsome).
    split; [done|]. split; [done|]. by rewrite Hsame. }
  assert (Hfresh : json_name name ∉ json_name <$> l).
  { intros (name' & Heq & Hin)%list_elem_of_fmap.
    rewrite Forall_forall in Hall.
    destruct (Hall _ Hin) as (Hgh' & Hflat' & _).
    apply json_name_inj in Heq; [|done..]. congruence. }
  exists w'. split; [|split; [|split]].
  - rewrite Hrun. csimpl. by rewrite <- app_assoc.
  - rewrite Hout. unfold w1 at 1. cbn [md_stdout]. csimpl.
    rewrite <- app_assoc. do 2 f_equal.
    apply Forall_fmap_ext_1. eapply Forall_impl; [exact Hall|].
    intros name' (Hgh' & _). unfold created_message. by rewrite Hext.
  - intros k Hk. csimpl in Hk. apply not_elem_of_cons in Hk as [Hk Hkl].
    rewrite Hframe by done. unfold w1. cbn [md_files].
    by rewrite lookup_insert_ne.
  - intros name' [->|Hin]%elem_of_cons.
    + rewrite Hframe by done. unfold w1. cbn [md_files].
      apply lookup_insert_eq.
    + rewrite Hvalues by done. unfold converted. rewrite Hext; [done|].
      rewrite Forall_forall in Hall. by destruct (Hall _ Hin).
Qed.

(** The whole run. *)
Lemma converter_main_run (exn_message : exn → pystr)
    (entries : list pystr) (w : md_world) :
  entries ≡ₚ elements (dom (md_files w)) →
  (∀ name, is_Some (md_files w !! name) → c_slash ∉ name) →
  ∃ w' names,
    converter_main exn_message entries w = Ok w'
    ∧ names = sorted (glob_gh_md entries)
    ∧ NoDup names ∧ Sorted str_le names
    ∧ (∀ name, name ∈ names ↔ gh_md name ∧ is_Some (md_files w !! name))
    ∧ (∀ name, name ∈ names →
         md_files w' !! json_name name = Some (converted (md_files w) name))
    ∧ (∀ k, k ∉ json_name <$> names → md_files w' !! k = md_files w !! k)
    ∧ md_stdout w'
      = md_stdout w
        ++ match names with
           | [] => [py "No gh-*.md files found in the current directory"
                    ++ [c_lf]]
           | _ =>
               [py "Found " ++ str_of_nat (length names)
                ++ py " markdown files to process" ++ [c_lf];
                replicate 50 c_hyphen ++ [c_lf]]
               ++ (created_message (md_files w) <$> names)
               ++ [replicate 50 c_hyphen ++ [c_lf];
                   py "Successfully created " ++ str_of_nat (length names)
                   ++ py " JSON files" ++ [c_lf]]
           end.
Proof.
  intros Hentries Hflat.
  remember (sorted (glob_gh_md entries)) as names eqn:Hdef.
  assert (Hperm : names ≡ₚ glob_gh_md entries).
  { rewrite Hdef. apply merge_sort_Permutation. }
  assert (Hin : ∀ name, name ∈ names
                        ↔ gh_md name ∧ is_Some (md_files w !! name)).
  { intros name. rewrite Hperm. unfold glob_gh_md.
    rewrite list_elem_of_filter, fnmatchcase_gh_md, Hentries.
    by rewrite elem_of_elements, elem_of_dom. }
  assert (Hnodup : NoDup names).
  { rewrite Hperm. apply NoDup_filter. rewrite Hentries.
    apply NoDup_elements. }
  assert (Hsorted : Sorted str_le names).
  { rewrite Hdef. apply (Sorted_merge_sort str_le). }
  unfold converter_main. rewrite <- Hdef.
  destruct (decide (glob_gh_md entries = [])) as [Hglob|Hglob].
  { rewrite Hglob in Hperm. apply Permutation_nil_r in Hperm.
    rewrite bool_decide_eq_true_2 by done.
    eexists _, names. split; [done|]. split; [done|]. split; [done|].
    split; [done|]. split; [done|]. rewrite Hperm.
    split; [by intros name ?%elem_of_nil|]. by split. }
  rewrite bool_decide_eq_false_2 by done.
  set (w2 := md_print _ (md_print _ w)).
  destruct (main_loop_spec exn_message names [] w2 Hnodup)
    as (w3 & Hrun & Hout & Hframe & Hvalues).
  { apply Forall_forall. intros name [Hgh Hsome]%Hin.
    split; [done|]. split; [by apply Hflat | done]. }
  rewrite Hrun. cbn [mbind result_bind app].
  eexists _, names. split; [done|]. split; [done|]. split; [done|].
  split; [done|]. split; [done|]. split; [exact Hvalues|].
  split; [exact Hframe|]. cbn [md_print md_stdout md_files].
  rewrite Hout. unfold w2. cbn [md_print md_stdout md_files].
  rewrite length_fmap, <- (Permutation_length Hperm).
  destruct names as [|name1 names'] eqn:Hnames.
  { symmetry in Hperm. by apply Permutation_nil_r in Hperm. }
  rewrite <- Hnames. by rewrite <- !app_assoc.
Qed.

Lemma example_md_entries :
  [py "gh-pr.md"] ≡ₚ elements (dom (md_files example_md_world)).
Proof.
  unfold example_md_world. cbn [md_files].
  by rewrite dom_singleton_L, elements_singleton.
Qed.

Lemma example_md_flat (name : pystr) :
  is_Some (md_files example_md_world !! name) → c_slash ∉ name.
Proof.
  unfold example_md_world. cbn [md_files].
  intros [text [<- _]%lookup_singleton_Some].
  refine (bool_decide_unpack _ _). by vm_compute.
Qed.

(** X14. When every entry of the current directory is a file whose
    content decodes to a text (the entries are the names of [md_files]),
    the converter's [main] ends normally and writes, for every file
    [gh-<x>.md], the file [gh-<x>.json] holding the document of that
    file's patterns. It changes no markdown file, and no file other than
    those [.json] siblings. An entry that cannot be read (a directory, a
    dangling link, bytes that do not decode) is outside this
    statement. *)
Theorem converter_main_files (exn_message : exn → pystr)
    (entries : list pystr) (w : md_world) :
  entries ≡ₚ elements (dom (md_files w)) →
  (∀ name, is_Some (md_files w !! name) → c_slash ∉ name) →
  ∃ w',
    converter_main exn_message entries w = Ok w'
    ∧ (∀ x text,
         md_files w !! (py "gh-" ++ x ++ py ".md") = Some text →
         ∃ patterns,
           parse_markdown_file (md_files w) (py "gh-" ++ x ++ py ".md")
           = Ok patterns
           ∧ md_files w' !! (py "gh-" ++ x ++ py ".json")
             = Some (json_dumps_indent 2 (create_permissions_json patterns)))
    ∧ (∀ name, gh_md name → md_files w' !! name = md_files w !! name)
    ∧ (∀ k,
         (∀ x, is_Some (md_files w !! (py "gh-" ++ x ++ py ".md")) →
               k ≠ py "gh-" ++ x ++ py ".json") →
         md_files w' !! k = md_files w !! k).
Proof.
  intros Hentries Hflat.
  destruct (converter_main_run exn_message entries w Hentries Hflat)
    as (w' & names & Hrun & _ & _ & _ & Hin & Hvalues & Hframe & _).
  assert (Hjson : ∀ name, name ∈ names →
            ∃ x, name = py "gh-" ++ x ++ py ".md"
                 ∧ json_name name = py "gh-" ++ x ++ py ".json").
  { intros name [(x & ->) Hsome]%Hin. exists x. split; [done|].
    apply json_name_gh_md. apply Hflat in Hsome. set_solver. }
  exists w'. split; [done|]. split; [|split].
  - intros x text Htext.
    assert (Hname : py "gh-" ++ x ++ py ".md" ∈ names).
    { apply Hin. split; [by exists x | by eexists]. }
    exists (extracted (md_files w) (py "gh-" ++ x ++ py ".md")).
    split; [by eapply parse_markdown_file_total|].
    rewrite <- json_name_gh_md; [by apply Hvalues|].
    assert (c_slash ∉ py "gh-" ++ x ++ py ".md") by (apply Hflat; eauto).
    set_solver.
  - intros name Hgh. apply Hframe.
    intros (name' & Heq & _)%list_elem_of_fmap.
    by apply (json_name_not_gh_md name' name).
  - intros k Hk. apply Hframe.
    intros (name & -> & Hname)%list_elem_of_fmap.
    destruct (Hjson _ Hname) as (x & -> & Heq).
    apply (Hk x); [|done]. by apply Hin in Hname as [_ ?].
Qed.

Lemma converter_main_files_witness :
  ∃ w',
    converter_main (λ _, []) [py "gh-pr.md"] example_md_world = Ok w'
    ∧ md_files w' !! py "gh-pr.json"
      = Some (json_dumps_indent 2
                (create_permissions_json [py "Bash(gh pr list)"]))
    ∧ md_files w' !! py "gh-pr.md" = Some (py "* `Bash(gh pr list)`").
Proof.
  destruct (converter_main_files (λ _, []) [py "gh-pr.md"] example_md_world
              example_md_entries example_md_flat)
    as (w' & Hrun & Hjson & Hmd & _).
  exists w'. split; [done|]. split.
  - destruct (Hjson (py "pr") (py "* `Bash(gh pr list)`"))
      as (patterns & Hparse & Hfile); [by vm_compute|].
    vm_compute in Hparse. injection Hparse as <-. exact Hfile.
  - rewrite (Hmd (py "gh-pr.md")); [by vm_compute | by exists (py "pr")].
Defined.

(** X15. The report of the converter's [main] when every entry of the
    current directory is a file whose content decodes to a text: with no
    matching name, one line saying so; otherwise the number of matching
    files, a rule, one [Created ... with n patterns] line per file in
    the sorted order of the names, a rule, and the same number again as
    the count of created files. Under that condition no file is reported
    twice and no error line is printed. *)
Theorem converter_main_report (exn_message : exn → pystr)
    (entries : list pystr) (w : md_world) :
  entries ≡ₚ elements (dom (md_files w)) →
  (∀ name, is_Some (md_files w !! name) → c_slash ∉ name) →
  ∃ w' names,
    converter_main exn_message entries w = Ok w'
    ∧ NoDup names ∧ Sorted str_le names
    ∧ (∀ name, name ∈ names ↔ gh_md name ∧ is_Some (md_files w !! name))
    ∧ md_stdout w'
      = md_stdout w
        ++ match names with
           | [] => [py "No gh-*.md files found in the current directory"
                    ++ [c_lf]]
           | _ =>
               [py "Found " ++ str_of_nat (length names)
                ++ py " markdown files to process" ++ [c_lf];
                replicate 50 c_hyphen ++ [c_lf]]
               ++ (created_message (md_files w) <$> names)
               ++ [replicate 50 c_hyphen ++ [c_lf];
                   py "Successfully created " ++ str_of_nat (length names)
                   ++ py " JSON files" ++ [c_lf]]
           end.
Proof.
  intros Hentries Hflat.
  destruct (converter_main_run exn_message entries w Hentries Hflat)
    as (w' & names & Hrun & _ & Hnodup & Hsorted & Hin & _ & _ & Hout).
  by exists w', names.
Qed.

Lemma converter_main_report_witness :
  ∃ w' names,
    converter_main (λ _, []) [py "gh-pr.md"] example_md_world = Ok w'
    ∧ (∀ name, name ∈ names
               ↔ gh_md name
                 ∧ is_Some (md_files example_md_world !! name))
    ∧ length (md_stdout w') = 4 + length names.
Proof.
  destruct (converter_main_report (λ _, []) [py "gh-pr.md"]
              example_md_world example_md_entries example_md_flat)
    as (w' & names & Hrun & _ & _ & Hin & Hout).
  exists w', names. split; [done|]. split; [done|].
  rewrite Hout. destruct names as [|name names].
  - exfalso. eapply elem_of_nil, (Hin (py "gh-pr.md")).
    split; [by exists (py "pr")|].
    exists (py "* `Bash(gh pr list)`"). by vm_compute.
  - rewrite !length_app, length_fmap. simpl. lia.
Defined.

(** ** The merger's [main] *)

(** *** [json.dumps] on a value of the store *)

(** The encoder walks the objects a value refers to. A walk through more
    nested objects than the store holds goes round a cycle, which the
    encoder refuses. *)
Fixpoint read_back (fuel : nat) (h : heap) (v : value) : result json :=
  match fuel with
  | 0 => Raise (ValueError "Circular reference detected")
  | S fuel' =>
      match view_of h v with
      | IsNone => Ok JNull
      | IsBool b => Ok (JBool b)
      | IsInt z => Ok (JInt z)
      | IsStr s => Ok (JStr s)
      | IsList _ items =>
          js ← mapM (read_back fuel' h) items; Ok (JArr js)
      | IsDict _ d =>
          fields ← mapM (λ kv, j ← read_back fuel' h kv.2; Ok (kv.1, j)) d;
          Ok (JObj fields)
      | Dangling => Raise SystemError
      end
  end.

(** [json.dumps(merged, ...)] with the options of [args]. *)
Definition prepare_output_value (args : arguments) (h : heap)
    (merged : value) : result pystr :=
  j ← read_back (S (length h)) h merged; Ok (prepare_output args j).

(** The nesting of a document. *)
Fixpoint depth (j : json) : nat :=
  match j with
  | JArr items => S (max_list (depth <$> items))
  | JObj fields => S (max_list ((λ kj, depth kj.2) <$> fields))
  | _ => 0
  end.

Lemma all2_elem_l {A B} (f : A → B → bool) (l : list A) (k : list B)
    (x : A) :
  all2 f l k = true → x ∈ l → ∃ y, y ∈ k ∧ f x y = true.
Proof.
  revert k. induction l as [|a l IH]; intros [|b k]; simpl; try done.
  - by intros _ ?%elem_of_nil.
  - intros [Hab Hlk]%andb_true_iff [->|Hx]%elem_of_cons.
    + exists b. split; [left | done].
    + destruct (IH k Hlk Hx) as (y & Hy & Hf). exists y. split; [by right | done].
Qed.

(** With enough fuel the walk reads a document back. *)
Lemma read_back_represents (j : json) :
  ∀ fuel h v,
    represents h j v = true → depth j < fuel → read_back fuel h v = Ok j.
Proof.
  induction j as [| b | z | s | items IH | fields IH] using json_induction;
    intros [|fuel] h v Hrep Hfuel; try lia.
  - by destruct v.
  - destruct v; try done. simpl in *.
    by apply bool_decide_eq_true in Hrep as ->.
  - destruct v; try done. simpl in *.
    by apply bool_decide_eq_true in Hrep as ->.
  - destruct v; try done. simpl in *.
    by apply bool_decide_eq_true in Hrep as ->.
  - destruct v as [| | | |l]; try done. cbn [represents] in Hrep.
    destruct (h !! l) as [[d|vs]|] eqn:Hl; try done.
    cbn [read_back view_of]. rewrite Hl.
    cbn [depth] in Hfuel.
    assert (Hall : mapM (read_back fuel h) vs = Ok items).
    { clear Hl. revert vs Hrep Hfuel.
      induction IH as [|j items Hj _ IHl]; intros [|v vs]; try done.
      cbn [all2]. intros [Hv Hvs]%andb_true_iff Hfuel. csimpl in Hfuel.
      cbn [mapM]. rewrite (Hj fuel h v) by (done || lia).
      cbn [mbind result_bind]. rewrite (IHl vs) by (done || lia). done. }
    by rewrite Hall.
  - destruct v as [| | | |l]; try done. cbn [represents] in Hrep.
    destruct (h !! l) as [[d|vs]|] eqn:Hl; try done.
    cbn [read_back view_of]. rewrite Hl.
    cbn [depth] in Hfuel.
    assert (Hall : mapM (λ kv, j ← read_back fuel h kv.2; Ok (kv.1, j)) d
                   = Ok fields).
    { clear Hl. revert d Hrep Hfuel.
      induction IH as [|[k j] fields Hj _ IHl]; intros [|[k' v] d]; try done.
      cbn [all2 fst snd].
      intros [[Hk%bool_decide_eq_true Hv]%andb_true_iff Hd]%andb_true_iff.
      intros Hfuel. csimpl in Hfuel. cbn [fst snd] in *. subst k'.
      cbn [mapM]. cbn [fst snd]. rewrite (Hj fuel h v) by (done || lia).
      pose proof (IHl d Hd ltac:(lia)) as E.
      unfold mbind, result_bind in E |- *. by rewrite E. }
    by rewrite Hall.
Qed.

(** *** No walk is longer than the store *)

(** Along a walk from a document into its parts the objects met are
    pairwise distinct: each reads as one document only, and the parts
    get smaller. *)
Definition walk (h : heap) (j : json) (ls : list loc) : Prop :=
  length ls = depth j ∧ NoDup ls
  ∧ ∀ l, l ∈ ls →
      l < length h
      ∧ ∃ j', represents h j' (VRef l) = true ∧ cells j' ≤ cells j.

Lemma walk_step (h : heap) (j jc : json) (l : loc) (ls : list loc) :
  represents h j (VRef l) = true → l < length h →
  cells jc < cells j → depth j = S (depth jc) →
  walk h jc ls → walk h j (l :: ls).
Proof.
  intros Hrep Hl Hcells Hdepth (Hlen & Hnodup & Hall).
  split; [simpl; lia|]. split.
  - apply NoDup_cons. split; [|done]. intros Hin.
    destruct (Hall _ Hin) as (_ & j' & Hrep' & Hle).
    assert (j' = j) as -> by by eapply represents_functional.
    lia.
  - intros l' [->|Hin]%elem_of_cons.
    + split; [done|]. by exists j.
    + destruct (Hall _ Hin) as (Hlt & j' & Hrep' & Hle).
      split; [done|]. exists j'. split; [done | lia].
Qed.

Lemma walk_leaf (h : heap) (j : json) (l : loc) :
  represents h j (VRef l) = true → l < length h → depth j = 1 →
  walk h j [l].
Proof.
  intros Hrep Hl Hdepth. split; [by rewrite Hdepth|].
  split; [apply NoDup_singleton|].
  intros l' ->%list_elem_of_singleton. split; [done|]. by exists j.
Qed.

Lemma represents_walk (j : json) :
  ∀ h v, represents h j v = true → ∃ ls, walk h j ls.
Proof.
  induction j as [| b | z | s | items IH | fields IH] using json_induction;
    intros h v Hrep.
  1-4: exists []; split; [done|]; split; [constructor|];
       by intros l ?%elem_of_nil.
  - destruct v as [| | | |l]; try done.
    pose proof Hrep as Hrep0. cbn [represents] in Hrep.
    destruct (h !! l) as [[d|vs]|] eqn:Hl; try done.
    apply lookup_lt_Some in Hl.
    destruct (decide (depth <$> items = [])) as [Hnil|Hne].
    { exists [l]. apply walk_leaf; [done..|]. cbn [depth]. by rewrite Hnil. }
    apply max_list_elem_of in Hne.
    apply list_elem_of_fmap in Hne as (jc & Hmax & Hjc).
    destruct (all2_elem_l _ _ _ _ Hrep Hjc) as (vc & _ & Hvc).
    rewrite Forall_forall in IH.
    destruct (IH jc Hjc h vc Hvc) as [ls Hls].
    exists (l :: ls). eapply walk_step; [done..| | |done].
    + cbn [cells]. 
      pose proof (sum_list_with_in jc cells items Hjc) as Hle.
      enough (sum_list_with cells items = sum_list (cells <$> items)) by lia.
      clear. induction items; csimpl; lia.
    + cbn [depth]. by rewrite Hmax.
  - destruct v as [| | | |l]; try done.
    pose proof Hrep as Hrep0. cbn [represents] in Hrep.
    destruct (h !! l) as [[d|vs]|] eqn:Hl; try done.
    apply lookup_lt_Some in Hl.
    destruct (decide ((λ kj, depth kj.2) <$> fields = [])) as [Hnil|Hne].
    { exists [l]. apply walk_leaf; [done..|]. cbn [depth]. by rewrite Hnil. }
    apply max_list_elem_of in Hne.
    apply list_elem_of_fmap in Hne as (kjc & Hmax & Hjc).
    destruct (all2_elem_l _ _ _ _ Hrep Hjc) as (kvc & _ & Hvc).
    apply andb_true_iff in Hvc as [_ Hvc].
    rewrite Forall_forall in IH.
    destruct (IH kjc Hjc h _ Hvc) as [ls Hls].
    exists (l :: ls). eapply walk_step; [done..| | |done].
    + cbn [cells].
      pose proof (sum_list_with_in kjc (λ kj, cells kj.2) fields Hjc) as Hle.
      enough (sum_list_with (λ kj, cells kj.2) fields
              = sum_list ((λ kj, cells kj.2) <$> fields)) by (simpl in *; lia).
      clear. induction fields; csimpl; lia.
    + cbn [depth]. by rewrite Hmax.
Qed.

Lemma represents_depth (h : heap) (j : json) (v : value) :
  represents h j v = true → depth j ≤ length h.
Proof.
  intros (ls & Hlen & Hnodup & Hall)%represents_walk.
  rewrite <- Hlen.
  transitivity (length (seq 0 (length h))); [|by rewrite length_seq].
  apply submseteq_length, NoDup_submseteq; [done|].
  intros l Hl. apply elem_of_seq. destruct (Hall _ Hl). lia.
Qed.

Lemma prepare_output_value_represents (args : arguments) (h : heap)
    (j : json) (v : value) :
  represents h j v = true →
  prepare_output_value args h v = Ok (prepare_output args j).
Proof.
  intros Hrep. unfold prepare_output_value.
  rewrite (read_back_represents j _ h v Hrep); [done|].
  apply represents_depth in Hrep. lia.
Qed.

(** *** The run *)

Section merger_main.

(** [list(Path('.').glob(pattern))] in the directory of the run. *)
Variable path_glob : pystr → result (list path).

(** [# Expand any glob patterns in file arguments] *)
Fixpoint expand_files (file_patterns : list path)
    (expanded_files : list path) (w : world) : result (list path * world) :=
  match file_patterns with
  | [] => Ok (expanded_files, w)
  | file_pattern :: rest =>
      if bool_decide (c_star ∈ str_of_path file_pattern) then
        matching_files ← path_glob (str_of_path file_pattern);
        let w' :=
          if bool_decide (matching_files = []) then
            print_err (py "Warning: No files match pattern '"
                       ++ str_of_path file_pattern ++ py "'") w
          else w in
        expand_files rest (expanded_files ++ matching_files) w'
      else expand_files rest (expanded_files ++ [file_pattern]) w
  end.

(** [main()] after [parse_args]: [files] is [args.files], [docs] what
    [json.load] finds in each file, and the objects of the run live in
    a store of their own. *)
Definition merger_main (docs : gmap pystr file) (fuel : nat)
    (args : arguments) (files : list path) (w : world)
  : result (option world) :=
  '(expanded_files, w1) ← expand_files files [] w;
  if bool_decide (expanded_files = []) then
    (* print("Error: No files to merge", file=sys.stderr) *)
    Raise (SystemExit 1)
  else
    let unique_files := (Dedup.visit_list id (∅, []) expanded_files).2 in
    let w2 :=
      print_err (py "Merging " ++ str_of_nat (length unique_files)
                 ++ py " files...") w1 in
    match merge_settings_files docs (str_of_path <$> unique_files) [] with
    | Raise e => Raise e
    | Ok (merged, h) =>
        output ← prepare_output_value args h merged;
        write_output fuel args output w2
    end.

(** What the expansion of one argument is. *)
Definition expands_to (file_pattern : path) (matching : list path) : Prop :=
  if bool_decide (c_star ∈ str_of_path file_pattern)
  then path_glob (str_of_path file_pattern) = Ok matching
  else matching = [file_pattern].

(** The expansion loop on arguments whose patterns can be expanded: it
    collects the expansions in order and writes to the error stream
    only. *)
Lemma expand_files_spec (file_patterns : list path)
    (expansions : list (list path)) :
  Forall2 expands_to file_patterns expansions →
  ∀ expanded_files w,
    ∃ w',
      expand_files file_patterns expanded_files w
      = Ok (expanded_files ++ concat expansions, w')
      ∧ files w' = files w ∧ stdout w' = stdout w
      ∧ (Forall (λ ps, ps ≠ []) expansions → stderr w' = stderr w).
Proof.
  induction 1 as [|p ps file_patterns expansions Hp _ IH];
    intros expanded_files w.
  { exists w. simpl. by rewrite app_nil_r. }
  cbn [expand_files concat]. unfold expands_to in Hp.
  destruct (bool_decide (c_star ∈ str_of_path p)).
  - rewrite Hp. cbn [mbind result_bind].
    destruct (IH (expanded_files ++ ps)
                (if bool_decide (ps = [])
                 then print_err (py "Warning: No files match pattern '"
                                 ++ str_of_path p ++ py "'") w
                 else w))
      as (w' & Hrun & Hfiles & Hout & Herr).
    exists w'. rewrite Hrun, <- app_assoc. split; [done|].
    rewrite Hfiles, Hout. split; [by destruct (bool_decide (ps = []))|].
    split; [by destruct (bool_decide (ps = []))|].
    intros [Hne Hall]%Forall_cons. rewrite Herr by done.
    by rewrite bool_decide_eq_false_2.
  - subst ps.
    destruct (IH (expanded_files ++ [p]) w)
      as (w' & Hrun & Hfiles & Hout & Herr).
    exists w'. rewrite Hrun, <- app_assoc. split; [done|].
    split; [done|]. split; [done|].
    intros [_ Hall]%Forall_cons. by apply Herr.
Qed.

End merger_main.

Lemma unique_files_first_occurrences (expanded_files : list path) :
  (Dedup.visit_list id (∅, []) expanded_files).2
  = first_occurrences expanded_files.
Proof.
  rewrite Dedup.visit_list_fresh. cbn [snd app].
  apply (fresh_items_keep_first expanded_files []).
Qed.

(** The run on arguments that expand to files holding permission
    documents: up to the output block it changes the error stream only,
    and enters the block with the serialized merge of the distinct
    files. *)
Lemma merger_main_run (path_glob : pystr → result (list path))
    (docs : gmap pystr file) (fuel : nat) (args : arguments)
    (file_args : list path) (w : world)
    (expansions : list (list path)) (ds : list json) :
  Forall2 (expands_to path_glob) file_args expansions →
  Forall2 (λ p d, docs !! str_of_path p = Some (Document d))
    (first_occurrences (concat expansions)) ds →
  ds ≠ [] →
  Forall (λ d, permission_document d = true) ds →
  ∃ w2,
    merger_main path_glob docs fuel args file_args w
    = main_output fuel args (merged_document ds) w2
    ∧ files w2 = files w ∧ stdout w2 = stdout w
    ∧ last (stderr w2)
      = Some (py "Merging " ++ str_of_nat (length ds) ++ py " files..."
              ++ [c_lf]).
Proof.
  intros Hexp Hdocs Hne Hshape.
  destruct (expand_files_spec path_glob file_args expansions Hexp [] w)
    as (w1 & Hrun & Hfiles & Hout & _).
  unfold merger_main. rewrite Hrun. cbn [mbind result_bind app].
  rewrite unique_files_first_occurrences.
  set (unique_files := first_occurrences (concat expansions)) in *.
  assert (Hlen : length unique_files = length ds)
    by by eapply Forall2_length.
  assert (Hsome : concat expansions ≠ []).
  { intros Hnil. unfold unique_files in Hlen. rewrite Hnil in Hlen.
    by destruct ds. }
  rewrite bool_decide_eq_false_2 by done.
  destruct (merge_settings_files_run docs (str_of_path <$> unique_files)
              ds [])
    as (d1 & ds' & v1 & vs' & h0 & h' & _ & _ & _ & Hmerge & _ & _ & _
        & Hrep & _); [| by apply Forall2_fmap_l | done |].
  { destruct unique_files; [by destruct ds | done]. }
  rewrite Hmerge.
  rewrite (prepare_output_value_represents _ _ _ _ Hrep).
  cbn [mbind result_bind]. eexists. split; [reflexivity|].
  cbn [print_err files stdout stderr]. split; [done|]. split; [done|].
  rewrite last_snoc, Hlen. by rewrite <- !app_assoc.
Qed.

Definition example_glob (pattern : pystr) : result (list path) :=
  Ok [Path [] (py "extra.json"); Path [] (py "base.json")].

Definition example_args : list path :=
  [Path [] (py "base.json"); Path [] (py "*.json")].

Lemma example_args_expand :
  Forall2 (expands_to example_glob) example_args
    [[Path [] (py "base.json")];
     [Path [] (py "extra.json"); Path [] (py "base.json")]].
Proof. repeat constructor. Qed.

Lemma example_args_load :
  Forall2 (λ p d, example_docs !! str_of_path p = Some (Document d))
    (first_occurrences
       (concat [[Path [] (py "base.json")];
                [Path [] (py "extra.json"); Path [] (py "base.json")]]))
    [example_base; example_extra].
Proof. repeat constructor; by vm_compute. Qed.

(** X16. The merger's [main], on arguments that expand (patterns
    included) to files holding permission documents, is the output block
    run on the merged document of the distinct files, taken in the order
    of their first occurrence: a file named twice, or matched by two
    patterns, is loaded once. Before the output block only the error
    stream changes; its last line reports the number of distinct
    files. *)
Theorem merger_main_merges (path_glob : pystr → result (list path))
    (docs : gmap pystr file) (fuel : nat) (args : arguments)
    (file_args : list path) (w : world)
    (expansions : list (list path)) (ds : list json) :
  Forall2 (expands_to path_glob) file_args expansions →
  Forall2 (λ p d, docs !! str_of_path p = Some (Document d))
    (first_occurrences (concat expansions)) ds →
  ds ≠ [] →
  Forall (λ d, permission_document d = true) ds →
  ∃ w2,
    merger_main path_glob docs fuel args file_args w
    = main_output fuel args (merged_document ds) w2
    ∧ files w2 = files w ∧ stdout w2 = stdout w
    ∧ last (stderr w2)
      = Some (py "Merging " ++ str_of_nat (length ds) ++ py " files..."
              ++ [c_lf]).
Proof. apply merger_main_run. Qed.

Lemma merger_main_merges_witness :
  ∃ w2,
    merger_main example_glob example_docs 3
      (Arguments (Some example_out) 2 false false false) example_args
      example_world
    = main_output 3 (Arguments (Some example_out) 2 false false false)
        (merged_document [example_base; example_extra]) w2
    ∧ files w2 = files example_world.
Proof.
  destruct (merger_main_merges example_glob example_docs 3
              (Arguments (Some example_out) 2 false false false)
              example_args example_world _ [example_base; example_extra]
              example_args_expand example_args_load ltac:(done)
              example_docs_shape)
    as (w2 & Hrun & Hfiles & _).
  by exists w2.
Defined.



(** X18. Without [-o], the whole run ends normally, prints the serialized
    merged document on the standard output and changes no file. *)
Theorem merger_main_prints (path_glob : pystr → result (list path))
    (docs : gmap pystr file) (fuel : nat) (args : arguments)
    (file_args : list path) (w : world)
    (expansions : list (list path)) (ds : list json) :
  Forall2 (expands_to path_glob) file_args expansions →
  Forall2 (λ p d, docs !! str_of_path p = Some (Document d))
    (first_occurrences (concat expansions)) ds →
  ds ≠ [] →
  Forall (λ d, permission_document d = true) ds →
  arg_output args = None →
  ∃ w',
    merger_main path_glob docs fuel args file_args w = Ok (Some w')
    ∧ files w' = files w
    ∧ stdout w'
      = stdout w ++ [prepare_output args (merged_document ds) ++ [c_lf]].
Proof.
  intros Hexp Hdocs Hne Hshape Hout.
  destruct (merger_main_run path_glob docs fuel args file_args w
              expansions ds Hexp Hdocs Hne Hshape)
    as (w2 & -> & Hfiles & Hstdout & _).
  unfold main_output, write_output. rewrite Hout.
  eexists. split; [done|]. cbn [print_out files stdout].
  by rewrite Hfiles, Hstdout.
Qed.

Lemma merger_main_prints_witness :
  ∃ w',
    merger_main example_glob example_docs 0
      (Arguments None 2 false false false) example_args example_world
    = Ok (Some w')
    ∧ files w' = files example_world.
Proof.
  destruct (merger_main_prints example_glob example_docs 0
              (Arguments None 2 false false false) example_args
              example_world _ [example_base; example_extra]
              example_args_expand example_args_load ltac:(done)
              example_docs_shape eq_refl)
    as (w' & Hrun & Hfiles & _).
  by exists w'.
Defined.



(** ** What the merge keeps and what it ignores *)

Lemma merged_list_elem (k : pystr) (ds : list json) (p : pystr) :
  p ∈ merged_list k ds
  ↔ ∃ d l, d ∈ ds ∧ permission_list k d = Some l ∧ p ∈ l.
Proof.
  unfold merged_list.
  rewrite merge_permission_lists_fresh, first_occurrences_fresh.
  rewrite first_occurrences_elem, elem_of_concat. unfold defined_lists.
  split.
  - intros (l & (d & Hd & Hl)%list_elem_of_omap & Hp). by exists d, l.
  - intros (d & l & Hd & Hl & Hp). exists l. split; [|done].
    apply list_elem_of_omap. by exists d.
Qed.

(** X20. The merge loses no permission and invents none: in the document
    [merge_settings_files] returns, the ["allow"] list holds, each once,
    exactly the strings of the ["allow"] lists of the input documents,
    and likewise ["deny"]. A string allowed by one file and denied by
    another is in both lists of the result. *)
Theorem merge_settings_files_keeps_permissions (docs : gmap pystr file)
    (file_names : list pystr) (ds : list json) (h : heap) (k : pystr) :
  file_names ≠ [] →
  Forall2 (λ f d, docs !! f = Some (Document d)) file_names ds →
  Forall (λ d, permission_document d = true) ds →
  k = k_allow ∨ k = k_deny →
  ∃ m h' merged l,
    merge_settings_files docs file_names h = Ok (VRef m, h')
    ∧ represents h' merged (VRef m) = true
    ∧ permission_list k merged = Some l
    ∧ NoDup l
    ∧ ∀ p, p ∈ l ↔ ∃ d l', d ∈ ds ∧ permission_list k d = Some l' ∧ p ∈ l'.
Proof.
  intros Hne Hdocs Hshape Hk.
  destruct (merge_settings_files_run docs file_names ds h Hne Hdocs Hshape)
    as (d1 & ds' & v1 & vs' & h0 & h' & _ & _ & _ & Hrun & _ & _ & _
        & Hrep & _).
  exists (length h0), h', (merged_document ds), (merged_list k ds).
  split; [done|]. split; [done|]. split.
  { destruct Hk as [-> | ->];
      [apply merged_document_allow | apply merged_document_deny]. }
  split; [apply merge_permission_lists_NoDup|].
  apply merged_list_elem.
Qed.

Lemma merge_settings_files_keeps_permissions_witness :
  ∃ m h' merged l,
    merge_settings_files example_docs [py "base.json"; py "extra.json"] []
    = Ok (VRef m, h')
    ∧ represents h' merged (VRef m) = true
    ∧ permission_list k_deny merged = Some l
    ∧ py "Bash(rm)" ∈ l.
Proof.
  destruct (merge_settings_files_keeps_permissions example_docs
              [py "base.json"; py "extra.json"]
              [example_base; example_extra] [] k_deny
              ltac:(done) example_docs_load example_docs_shape
              ltac:(by right))
    as (m & h' & merged & l & Hrun & Hrep & Hl & _ & Hin).
  exists m, h', merged, l. split; [done|]. split; [done|]. split; [done|].
  apply Hin. exists example_extra, [py "Bash(rm)"].
  split; [set_solver|]. split; [by vm_compute | set_solver].
Defined.

(** X21. Of the files after the first, only the ["allow"] and ["deny"]
    lists matter: two runs whose first documents are the same and whose
    later documents define the same lists return the same document,
    whatever else the later files contain. *)
Theorem merge_settings_files_later_fields (docs : gmap pystr file)
    (file_names file_names' : list pystr) (d1 : json)
    (ds ds' : list json) (h1 h2 : heap) :
  Forall2 (λ f d, docs !! f = Some (Document d)) file_names (d1 :: ds) →
  Forall2 (λ f d, docs !! f = Some (Document d)) file_names' (d1 :: ds') →
  Forall (λ d, permission_document d = true) (d1 :: ds) →
  Forall (λ d, permission_document d = true) (d1 :: ds') →
  omap (permission_list k_allow) ds = omap (permission_list k_allow) ds' →
  omap (permission_list k_deny) ds = omap (permission_list k_deny) ds' →
  ∃ merged m1 h1' m2 h2',
    merge_settings_files docs file_names h1 = Ok (VRef m1, h1')
    ∧ merge_settings_files docs file_names' h2 = Ok (VRef m2, h2')
    ∧ represents h1' merged (VRef m1) = true
    ∧ represents h2' merged (VRef m2) = true.
Proof.
  intros Hdocs Hdocs' Hshape Hshape' Hallow Hdeny.
  destruct (merge_settings_files_run docs file_names (d1 :: ds) h1)
    as (_ & _ & _ & _ & h0 & h1' & _ & _ & _ & Hrun & _ & _ & _
        & Hrep & _); [by inversion Hdocs | done | done |].
  destruct (merge_settings_files_run docs file_names' (d1 :: ds') h2)
    as (_ & _ & _ & _ & h0' & h2' & _ & _ & _ & Hrun' & _ & _ & _
        & Hrep' & _); [by inversion Hdocs' | done | done |].
  exists (merged_document (d1 :: ds)), (length h0), h1', (length h0'), h2'.
  split; [done|]. split; [done|]. split; [done|].
  enough (merged_document (d1 :: ds) = merged_document (d1 :: ds')) as ->
    by done.
  unfold merged_document, merged_list, defined_lists.
  cbn [omap list_omap first_fields first_permissions].
  fold (omap (permission_list k_allow) ds).
  fold (omap (permission_list k_allow) ds').
  fold (omap (permission_list k_deny) ds).
  fold (omap (permission_list k_deny) ds').
  by rewrite Hallow, Hdeny.
Qed.

Definition example_other : json :=
  JObj [ (py "model", JStr (py "haiku"));
         (py "env", JObj [ (py "CI", JStr (py "1")) ]);
         (k_permissions,
          JObj [ (k_allow, JArr [JStr (py "Bash(pwd)"); JStr (py "Bash(ls)")]);
                 (py "defaultMode", JStr (py "acceptEdits"));
                 (k_deny, JArr [JStr (py "Bash(rm)")]) ]) ].

Definition example_docs_other : gmap pystr file :=
  <[ py "other.json" := Document example_other ]> example_docs.

Lemma merge_settings_files_later_fields_witness :
  ∃ merged m1 h1' m2 h2',
    merge_settings_files example_docs_other
      [py "base.json"; py "extra.json"] [] = Ok (VRef m1, h1')
    ∧ merge_settings_files example_docs_other
        [py "base.json"; py "other.json"] [] = Ok (VRef m2, h2')
    ∧ represents h1' merged (VRef m1) = true
    ∧ represents h2' merged (VRef m2) = true.
Proof.
  apply (merge_settings_files_later_fields example_docs_other
           [py "base.json"; py "extra.json"]
           [py "base.json"; py "other.json"]
           example_base [example_extra] [example_other] [] []).
  - repeat constructor; by vm_compute.
  - repeat constructor; by vm_compute.
  - repeat constructor; by vm_compute.
  - repeat constructor; by vm_compute.
  - by vm_compute.
  - by vm_compute.
Defined.

(** ** Running the converter again *)

Lemma extracted_lookup (fs fs' : gmap pystr pystr) (name : pystr) :
  fs' !! name = fs !! name → extracted fs' name = extracted fs name.
Proof.
  intros Heq. unfold extracted, parse_markdown_file. by rewrite Heq.
Qed.

(** X22. The converter can be run again at no cost: a second run in the
    directory the first one left finds the same markdown files, ends
    normally, and leaves every file as it is, since it rewrites each
    [.json] sibling with the content it already has. *)
Theorem converter_main_again (exn_message : exn → pystr)
    (entries entries' : list pystr) (w w' : md_world) :
  entries ≡ₚ elements (dom (md_files w)) →
  (∀ name, is_Some (md_files w !! name) → c_slash ∉ name) →
  converter_main exn_message entries w = Ok w' →
  entries' ≡ₚ elements (dom (md_files w')) →
  ∃ w'',
    converter_main exn_message entries' w' = Ok w''
    ∧ md_files w'' = md_files w'.
Proof.
  intros Hentries Hflat Hrun Hentries'.
  destruct (converter_main_run exn_message entries w Hentries Hflat)
    as (w1 & names & Hrun1 & _ & _ & _ & Hin & Hvalues & Hframe & _).
  rewrite Hrun in Hrun1. injection Hrun1 as <-.
  assert (Hmd : ∀ name, gh_md name → md_files w' !! name = md_files w !! name).
  { intros name Hgh. apply Hframe.
    intros (name' & Heq & _)%list_elem_of_fmap.
    by apply (json_name_not_gh_md name' name). }
  assert (Hflat' : ∀ name, is_Some (md_files w' !! name) → c_slash ∉ name).
  { intros k Hk.
    destruct (decide (k ∈ json_name <$> names)) as [Hjson|Hother].
    - apply list_elem_of_fmap in Hjson as (name & -> & Hname).
      apply Hin in Hname as [(x & ->) Hsome]. apply Hflat in Hsome.
      rewrite json_name_gh_md by set_solver.
      rewrite !elem_of_app in Hsome. rewrite !elem_of_app.
      intros [?|[?|Hj]]; [tauto | tauto |].
      revert Hj. apply (bool_decide_unpack _). by vm_compute.
    - rewrite Hframe in Hk by done. by apply Hflat. }
  destruct (converter_main_run exn_message entries' w' Hentries' Hflat')
    as (w'' & names' & Hrun' & _ & _ & _ & Hin' & Hvalues' & Hframe' & _).
  exists w''. split; [done|]. apply map_eq. intros k.
  destruct (decide (k ∈ json_name <$> names')) as [Hjson|Hother];
    [|by apply Hframe'].
  apply list_elem_of_fmap in Hjson as (name & -> & Hname).
  rewrite Hvalues' by done.
  apply Hin' in Hname as [Hgh Hsome]. rewrite Hmd in Hsome by done.
  rewrite Hvalues by (by apply Hin). f_equal. unfold converted.
  rewrite (extracted_lookup (md_files w) (md_files w')); [done|].
  by apply Hmd.
Qed.

Lemma converter_main_again_witness :
  ∃ w' w'',
    converter_main (λ _, []) [py "gh-pr.md"] example_md_world = Ok w'
    ∧ converter_main (λ _, []) [py "gh-pr.json"; py "gh-pr.md"] w' = Ok w''
    ∧ md_files w'' = md_files w'.
Proof.
  destruct (converter_main (λ _, []) [py "gh-pr.md"] example_md_world)
    as [w'|e] eqn:Hrun; [|by vm_compute in Hrun].
  destruct (converter_main_again (λ _, []) [py "gh-pr.md"]
              [py "gh-pr.json"; py "gh-pr.md"] example_md_world w'
              example_md_entries example_md_flat Hrun)
    as (w'' & Hrun' & Hfiles).
  - vm_compute in Hrun. injection Hrun as <-. vm_compute.
    first [reflexivity | apply perm_swap].
  - by exists w', w''.
Defined.
